(** * d2q9-bgk: a shallow embedding of the lattice-Boltzmann kernel

    The C program [d2q9-bgk.c] keeps nine [float] arrays per grid (one per
    lattice speed), two such grids that are swapped after every iteration,
    and an [int] array marking obstacles.  This file embeds the numerical
    core ([accelerate_flow], [timestep], [av_velocity], [calc_reynolds],
    [total_density] and the grid part of [initialise]), the checks
    [initialise] makes on the lines of the obstacle file, the records
    [write_values] prints and the timestep loop of [main], and proves
    properties of them.  Memory allocation, file handling and the parsing
    done by [fscanf] are not modelled.

    The kernel is written once, over an interface of arithmetic operations
    ([FloatOps]).  Two instances are given: [binary32], IEEE-754 single
    precision with round-to-nearest-even, which is what the C type [float]
    computes, and [real_arith], exact arithmetic over the reals, the
    idealisation in which the algebraic identities of the method hold.

    Conventions of the embedding:
    - every C expression is evaluated operation by operation, in the order
      and association the source gives it (no fused multiply-add, no
      reassociation);
    - the loop nests run in source order.  The two OpenMP reductions of
      [timestep] leave the order of the additions open: the function
      [timestep] takes them in loop order, and the relation
      [timestep_returns] gives every value the reduction admits;
    - [int] values are integers of [Z]; on a well-formed grid ([wf]) every
      index stays below [INT_MAX];
    - the two grids never alias (they are separate allocations, and
      [timestep] declares them [restrict]). *)

From Stdlib Require Import ZArith List Lia Bool Reals Lra.
From Stdlib Require Import Floats.SpecFloat.
From stdpp Require Import base list.
Import ListNotations.

Open Scope Z_scope.

(** ** Arithmetic interface *)

Class FloatOps (F : Type) := {
  fadd : F -> F -> F;
  fsub : F -> F -> F;
  fmul : F -> F -> F;
  fdiv : F -> F -> F;
  fneg : F -> F;
  fsqrt : F -> F;
  (** [fgt x y] is the C comparison [x > y]. *)
  fgt : F -> F -> bool;
  (** [fconst m e] is the literal [m * 2^e]; [fconst n 0] is also the
      conversion [(float) n] of an [int]. *)
  fconst : Z -> Z -> F
}.

Declare Scope flt_scope.
Delimit Scope flt_scope with flt.
Notation "x + y" := (fadd x y) : flt_scope.
Notation "x - y" := (fsub x y) : flt_scope.
Notation "x * y" := (fmul x y) : flt_scope.
Notation "x / y" := (fdiv x y) : flt_scope.
Notation "- x" := (fneg x) : flt_scope.

(** IEEE-754 binary32: 24 bits of precision, exponent bound 128. *)
Definition f32_prec : Z := 24.
Definition f32_emax : Z := 128.

#[export] Instance binary32 : FloatOps spec_float := {|
  fadd := SFadd f32_prec f32_emax;
  fsub := SFsub f32_prec f32_emax;
  fmul := SFmul f32_prec f32_emax;
  fdiv := SFdiv f32_prec f32_emax;
  fneg := SFopp;
  fsqrt := SFsqrt f32_prec f32_emax;
  fgt := fun x y => SFltb y x;
  fconst := fun m e => binary_normalize f32_prec f32_emax m e false
|}.

(** Exact arithmetic. *)
#[export] Instance real_arith : FloatOps R := {|
  fadd := Rplus;
  fsub := Rminus;
  fmul := Rmult;
  fdiv := Rdiv;
  fneg := Ropp;
  fsqrt := sqrt;
  fgt := fun x y => if Rlt_dec y x then true else false;
  fconst := fun m e => (IZR m * powerRZ 2 e)%R
|}.

(** ** Lattice geometry

    The speeds of a cell are numbered as in the source:
<<
      6 2 5
       \|/
      3-0-1
       /|\
      7 4 8
>> *)

Inductive speed : Set :=
  | C0 | E1 | N2 | W3 | S4 | NE5 | NW6 | SW7 | SE8.

Definition all_speeds : list speed := [C0; E1; N2; W3; S4; NE5; NW6; SW7; SE8].

(** Unit offset of a speed along x and along y. *)
Definition off_x (d : speed) : Z :=
  match d with
  | C0 | N2 | S4 => 0
  | E1 | NE5 | SE8 => 1
  | W3 | NW6 | SW7 => -1
  end.

Definition off_y (d : speed) : Z :=
  match d with
  | C0 | E1 | W3 => 0
  | N2 | NE5 | NW6 => 1
  | S4 | SW7 | SE8 => -1
  end.

Definition opposite (d : speed) : speed :=
  match d with
  | C0 => C0
  | E1 => W3 | W3 => E1
  | N2 => S4 | S4 => N2
  | NE5 => SW7 | SW7 => NE5
  | NW6 => SE8 | SE8 => NW6
  end.

Inductive weight_class : Set := w_rest | w_axis | w_diag.

Definition class_of (d : speed) : weight_class :=
  match d with
  | C0 => w_rest
  | E1 | N2 | W3 | S4 => w_axis
  | NE5 | NW6 | SW7 | SE8 => w_diag
  end.

(** ** Data model *)

Section Kernel.

Context {F : Type} `{FloatOps F}.

Local Open Scope flt_scope.

(** [(float) n] and the literals of the source. *)
Definition of_int (n : Z) : F := fconst n 0.
Definition f0 : F := of_int 0.
Definition f1 : F := of_int 1.
Definition f0_5 : F := fconst 1 (-1).
Definition f1_5 : F := fconst 3 (-1).

(** [t_param]: the parameter values. *)
Record t_param := {
  nx : Z;
  ny : Z;
  maxIters : Z;
  reynolds_dim : Z;
  density : F;
  accel : F;
  omega : F
}.

(** [t_speeds]: one array per speed (structure of arrays). *)
Record t_speeds := {
  s0 : list F; s1 : list F; s2 : list F;
  s3 : list F; s4 : list F; s5 : list F;
  s6 : list F; s7 : list F; s8 : list F
}.

(** [t_speed]: nine values, indexed by speed ([float speeds[NSPEEDS]]). *)
Record t_speed := {
  v0 : F; v1 : F; v2 : F; v3 : F; v4 : F; v5 : F; v6 : F; v7 : F; v8 : F
}.

(** The memory the kernel works on: the main grid, the scratch grid and
    the obstacle map. *)
Record grids := {
  cells : t_speeds;
  tmp_cells : t_speeds;
  obstacles : list Z
}.

Definition arr (d : speed) (c : t_speeds) : list F :=
  match d with
  | C0 => s0 c | E1 => s1 c | N2 => s2 c | W3 => s3 c | S4 => s4 c
  | NE5 => s5 c | NW6 => s6 c | SW7 => s7 c | SE8 => s8 c
  end.

Definition sp (d : speed) (v : t_speed) : F :=
  match d with
  | C0 => v0 v | E1 => v1 v | N2 => v2 v | W3 => v3 v | S4 => v4 v
  | NE5 => v5 v | NW6 => v6 v | SW7 => v7 v | SE8 => v8 v
  end.

(** Array accesses.  An index outside the array is undefined behaviour in
    C; here such a read yields the default and such a write is dropped.
    The theorems below only speak about well-formed grids ([wf]), where
    every index the kernel computes is in range. *)
Definition rd {A : Type} (dflt : A) (a : list A) (i : Z) : A :=
  if 0 <=? i then default dflt (a !! Z.to_nat i) else dflt.

Definition wr {A : Type} (a : list A) (i : Z) (x : A) : list A :=
  if 0 <=? i then <[Z.to_nat i := x]> a else a.

Definition rdf (a : list F) (i : Z) : F := rd f0 a i.

(** A loop body that either stores [val k] at index [ix k] of one array or
    leaves the array alone, for the loop variable [k]. *)
Definition array_step {A K : Type} (ix : K -> Z) (val : K -> option A)
    (a : list A) (k : K) : list A :=
  match val k with
  | Some x => wr a (ix k) x
  | None => a
  end.

Definition with_arr (d : speed) (a : list F) (c : t_speeds) : t_speeds :=
  match d with
  | C0 => {| s0 := a; s1 := s1 c; s2 := s2 c; s3 := s3 c; s4 := s4 c;
             s5 := s5 c; s6 := s6 c; s7 := s7 c; s8 := s8 c |}
  | E1 => {| s0 := s0 c; s1 := a; s2 := s2 c; s3 := s3 c; s4 := s4 c;
             s5 := s5 c; s6 := s6 c; s7 := s7 c; s8 := s8 c |}
  | N2 => {| s0 := s0 c; s1 := s1 c; s2 := a; s3 := s3 c; s4 := s4 c;
             s5 := s5 c; s6 := s6 c; s7 := s7 c; s8 := s8 c |}
  | W3 => {| s0 := s0 c; s1 := s1 c; s2 := s2 c; s3 := a; s4 := s4 c;
             s5 := s5 c; s6 := s6 c; s7 := s7 c; s8 := s8 c |}
  | S4 => {| s0 := s0 c; s1 := s1 c; s2 := s2 c; s3 := s3 c; s4 := a;
             s5 := s5 c; s6 := s6 c; s7 := s7 c; s8 := s8 c |}
  | NE5 => {| s0 := s0 c; s1 := s1 c; s2 := s2 c; s3 := s3 c; s4 := s4 c;
              s5 := a; s6 := s6 c; s7 := s7 c; s8 := s8 c |}
  | NW6 => {| s0 := s0 c; s1 := s1 c; s2 := s2 c; s3 := s3 c; s4 := s4 c;
              s5 := s5 c; s6 := a; s7 := s7 c; s8 := s8 c |}
  | SW7 => {| s0 := s0 c; s1 := s1 c; s2 := s2 c; s3 := s3 c; s4 := s4 c;
              s5 := s5 c; s6 := s6 c; s7 := a; s8 := s8 c |}
  | SE8 => {| s0 := s0 c; s1 := s1 c; s2 := s2 c; s3 := s3 c; s4 := s4 c;
              s5 := s5 c; s6 := s6 c; s7 := s7 c; s8 := a |}
  end.

(** [store d i x c] is the assignment [c->s_d[i] = x]. *)
Definition store (d : speed) (i : Z) (x : F) (c : t_speeds) : t_speeds :=
  with_arr d (wr (arr d c) i x) c.

(** The nine values of one cell of a grid. *)
Definition cell_at (c : t_speeds) (i : Z) : t_speed :=
  {| v0 := rdf (s0 c) i; v1 := rdf (s1 c) i; v2 := rdf (s2 c) i;
     v3 := rdf (s3 c) i; v4 := rdf (s4 c) i; v5 := rdf (s5 c) i;
     v6 := rdf (s6 c) i; v7 := rdf (s7 c) i; v8 := rdf (s8 c) i |}.

(** [range n] is the index sequence of [for (i = 0; i < n; i++)]. *)
Definition range (n : Z) : list Z := map Z.of_nat (seq 0 (Z.to_nat n)).

(** ** accelerate_flow *)

Definition accelerate_cell (params : t_param) (w1 w2 : F) (jj : Z)
    (g : grids) (ii : Z) : grids :=
  let c := cells g in
  let i := (ii + jj * nx params)%Z in
  if (rd 0 (obstacles g) i =? 0)
     && fgt (rdf (s3 c) i - w1) f0
     && fgt (rdf (s6 c) i - w2) f0
     && fgt (rdf (s7 c) i - w2) f0
  then
    (* increase 'east-side' densities *)
    let c := store E1 i (rdf (s1 c) i + w1) c in
    let c := store NE5 i (rdf (s5 c) i + w2) c in
    let c := store SE8 i (rdf (s8 c) i + w2) c in
    (* decrease 'west-side' densities *)
    let c := store W3 i (rdf (s3 c) i - w1) c in
    let c := store NW6 i (rdf (s6 c) i - w2) c in
    let c := store SW7 i (rdf (s7 c) i - w2) c in
    {| cells := c; tmp_cells := tmp_cells g; obstacles := obstacles g |}
  else g.

Definition accel_w1 (params : t_param) : F :=
  density params * accel params / of_int 9.

Definition accel_w2 (params : t_param) : F :=
  density params * accel params / of_int 36.

Definition accelerate_flow (params : t_param) (g : grids) : grids :=
  let w1 := accel_w1 params in
  let w2 := accel_w2 params in
  (* modify the 2nd row of the grid *)
  let jj := (ny params - 2)%Z in
  fold_left (accelerate_cell params w1 w2 jj) (range (nx params)) g.

(** ** timestep *)

(** Neighbour indices; [Z.rem] is C's [%]. *)
Definition idx_y_s (params : t_param) (jj : Z) : Z :=
  if jj =? 0 then (jj + ny params - 1)%Z else (jj - 1)%Z.
Definition idx_y_n (params : t_param) (jj : Z) : Z :=
  Z.rem (jj + 1)%Z (ny params).
Definition idx_x_e (params : t_param) (ii : Z) : Z :=
  Z.rem (ii + 1)%Z (nx params).
Definition idx_x_w (params : t_param) (ii : Z) : Z :=
  if ii =? 0 then (ii + nx params - 1)%Z else (ii - 1)%Z.

(** propagate: the nine values streamed into cell [(ii, jj)]. *)
Definition propagate (params : t_param) (c : t_speeds) (jj ii : Z) : t_speed :=
  let y_s := idx_y_s params jj in
  let y_n := idx_y_n params jj in
  let x_e := idx_x_e params ii in
  let x_w := idx_x_w params ii in
  let n := nx params in
  {| v0 := rdf (s0 c) (ii + jj * n)%Z;     (* central cell, no movement *)
     v1 := rdf (s1 c) (x_w + jj * n)%Z;    (* east *)
     v2 := rdf (s2 c) (ii + y_s * n)%Z;    (* north *)
     v3 := rdf (s3 c) (x_e + jj * n)%Z;    (* west *)
     v4 := rdf (s4 c) (ii + y_n * n)%Z;    (* south *)
     v5 := rdf (s5 c) (x_w + y_s * n)%Z;   (* north-east *)
     v6 := rdf (s6 c) (x_e + y_s * n)%Z;   (* north-west *)
     v7 := rdf (s7 c) (x_e + y_n * n)%Z;   (* south-west *)
     v8 := rdf (s8 c) (x_w + y_n * n)%Z    (* south-east *) |}.

(** rebound: the stores of the obstacle branch. *)
Definition rebound (prop : t_speed) (i : Z) (tmp : t_speeds) : t_speeds :=
  let tmp := store E1 i (v3 prop) tmp in
  let tmp := store N2 i (v4 prop) tmp in
  let tmp := store W3 i (v1 prop) tmp in
  let tmp := store S4 i (v2 prop) tmp in
  let tmp := store NE5 i (v7 prop) tmp in
  let tmp := store NW6 i (v8 prop) tmp in
  let tmp := store SW7 i (v5 prop) tmp in
  let tmp := store SE8 i (v6 prop) tmp in
  tmp.

Definition c_lat : F := of_int 3.
Definition w0 : F := of_int 4 / of_int 9.
Definition w1 : F := of_int 1 / of_int 9.
Definition w2 : F := of_int 1 / of_int 36.

Definition local_density (prop : t_speed) : F :=
  v0 prop + v1 prop + v2 prop + v3 prop + v4 prop
  + v5 prop + v6 prop + v7 prop + v8 prop.

Definition vel_x (prop : t_speed) : F :=
  (v1 prop + v5 prop + v8 prop - (v3 prop + v6 prop + v7 prop))
  / local_density prop.

Definition vel_y (prop : t_speed) : F :=
  (v2 prop + v5 prop + v6 prop - (v4 prop + v7 prop + v8 prop))
  / local_density prop.

Definition vel_sq (prop : t_speed) : F :=
  let u_x := vel_x prop in
  let u_y := vel_y prop in
  (u_x * u_x) + (u_y * u_y).

(** One entry of [d_equ] for an axis or diagonal speed. *)
Definition equ_term (w rho u u_sq : F) : F :=
  w * rho * (f1 + u * c_lat + (u * u) * (f1_5 * c_lat) - u_sq * (f0_5 * c_lat)).

(** equilibrium densities [d_equ]. *)
Definition d_equ (prop : t_speed) : t_speed :=
  let rho := local_density prop in
  let u_x := vel_x prop in
  let u_y := vel_y prop in
  let u_sq := vel_sq prop in
  (* directional velocity components *)
  let u1 := u_x in
  let u2 := u_y in
  let u3 := - u_x in
  let u4 := - u_y in
  let u5 := u_x + u_y in
  let u6 := - u_x + u_y in
  let u7 := - u_x - u_y in
  let u8 := u_x - u_y in
  {| v0 := w0 * rho * (f1 - u_sq * (f0_5 * c_lat));
     v1 := equ_term w1 rho u1 u_sq;
     v2 := equ_term w1 rho u2 u_sq;
     v3 := equ_term w1 rho u3 u_sq;
     v4 := equ_term w1 rho u4 u_sq;
     v5 := equ_term w2 rho u5 u_sq;
     v6 := equ_term w2 rho u6 u_sq;
     v7 := equ_term w2 rho u7 u_sq;
     v8 := equ_term w2 rho u8 u_sq |}.

(** relaxation step: the value stored for one speed. *)
Definition relax (om p e : F) : F := p + om * (e - p).

Definition collision (params : t_param) (prop : t_speed) : t_speed :=
  let e := d_equ prop in
  let om := omega params in
  {| v0 := relax om (v0 prop) (v0 e); v1 := relax om (v1 prop) (v1 e);
     v2 := relax om (v2 prop) (v2 e); v3 := relax om (v3 prop) (v3 e);
     v4 := relax om (v4 prop) (v4 e); v5 := relax om (v5 prop) (v5 e);
     v6 := relax om (v6 prop) (v6 e); v7 := relax om (v7 prop) (v7 e);
     v8 := relax om (v8 prop) (v8 e) |}.

Definition store_all (v : t_speed) (i : Z) (tmp : t_speeds) : t_speeds :=
  let tmp := store C0 i (v0 v) tmp in
  let tmp := store E1 i (v1 v) tmp in
  let tmp := store N2 i (v2 v) tmp in
  let tmp := store W3 i (v3 v) tmp in
  let tmp := store S4 i (v4 v) tmp in
  let tmp := store NE5 i (v5 v) tmp in
  let tmp := store NW6 i (v6 v) tmp in
  let tmp := store SW7 i (v7 v) tmp in
  let tmp := store SE8 i (v8 v) tmp in
  tmp.

(** The state of the fused loop: the scratch grid being written and the
    two reduction variables. *)
Record loop_state := {
  ls_tmp : t_speeds;
  tot_cells : Z;
  tot_u : F
}.

(** Body of the inner loop of [timestep]. *)
Definition timestep_cell (params : t_param) (c : t_speeds) (obst : list Z)
    (jj : Z) (st : loop_state) (ii : Z) : loop_state :=
  let prop := propagate params c jj ii in
  let i := (ii + jj * nx params)%Z in
  if negb (rd 0 obst (jj * nx params + ii)%Z =? 0) then
    {| ls_tmp := rebound prop i (ls_tmp st);
       tot_cells := tot_cells st;
       tot_u := tot_u st |}
  else
    {| ls_tmp := store_all (collision params prop) i (ls_tmp st);
       tot_cells := (tot_cells st + 1)%Z;
       tot_u := tot_u st + fsqrt (vel_sq prop) |}.

Definition timestep_row (params : t_param) (c : t_speeds) (obst : list Z)
    (st : loop_state) (jj : Z) : loop_state :=
  fold_left (timestep_cell params c obst jj) (range (nx params)) st.

(** The loop nest of [timestep], after [accelerate_flow] has run. *)
Definition stream_collide (params : t_param) (g : grids) : loop_state :=
  fold_left (timestep_row params (cells g) (obstacles g)) (range (ny params))
    {| ls_tmp := tmp_cells g; tot_cells := 0%Z; tot_u := f0 |}.

Definition timestep (params : t_param) (g : grids) : grids * F :=
  let g := accelerate_flow params g in
  let st := stream_collide params g in
  ({| cells := cells g; tmp_cells := ls_tmp st; obstacles := obstacles g |},
   tot_u st / of_int (tot_cells st)).

(** The pointer swap of the main loop. *)
Definition swap (g : grids) : grids :=
  {| cells := tmp_cells g; tmp_cells := cells g; obstacles := obstacles g |}.

(** One pass of the main loop: [av_vels[tt] = timestep(...)], then swap. *)
Definition iteration (params : t_param) (g : grids) : grids * F :=
  let '(g', av) := timestep params g in (swap g', av).

(** ** av_velocity, calc_reynolds, total_density *)

(** The velocity magnitude [av_velocity] computes for the cell at index [i]. *)
Definition av_cell_speed (c : t_speeds) (i : Z) : F :=
  let local_density := f0 in
  let local_density := local_density + rdf (s0 c) i in
  let local_density := local_density + rdf (s1 c) i in
  let local_density := local_density + rdf (s2 c) i in
  let local_density := local_density + rdf (s3 c) i in
  let local_density := local_density + rdf (s4 c) i in
  let local_density := local_density + rdf (s5 c) i in
  let local_density := local_density + rdf (s6 c) i in
  let local_density := local_density + rdf (s7 c) i in
  let local_density := local_density + rdf (s8 c) i in
  (* x-component of velocity *)
  let u_x := (rdf (s1 c) i + rdf (s5 c) i + rdf (s8 c) i
              - (rdf (s3 c) i + rdf (s6 c) i + rdf (s7 c) i)) / local_density in
  (* compute y velocity component *)
  let u_y := (rdf (s2 c) i + rdf (s5 c) i + rdf (s6 c) i
              - (rdf (s4 c) i + rdf (s7 c) i + rdf (s8 c) i)) / local_density in
  fsqrt ((u_x * u_x) + (u_y * u_y)).

(** Body of the inner loop of [av_velocity]; [acc] is [(tot_cells, tot_u)]. *)
Definition av_velocity_cell (params : t_param) (c : t_speeds) (obst : list Z)
    (jj : Z) (acc : Z * F) (ii : Z) : Z * F :=
  let i := (ii + jj * nx params)%Z in
  (* ignore occupied cells *)
  if rd 0 obst i =? 0 then
    ((fst acc + 1)%Z, snd acc + av_cell_speed c i)
  else acc.

(** The loop nest of [av_velocity]: the counter and the accumulator. *)
Definition av_velocity_loop (params : t_param) (c : t_speeds) (obst : list Z)
    : Z * F :=
  fold_left
    (fun acc jj => fold_left (av_velocity_cell params c obst jj) (range (nx params)) acc)
    (range (ny params)) (0%Z, f0).

Definition av_velocity (params : t_param) (c : t_speeds) (obst : list Z) : F :=
  let acc := av_velocity_loop params c obst in
  snd acc / of_int (fst acc).

Definition viscosity (params : t_param) : F :=
  f1 / of_int 6 * (of_int 2 / omega params - f1).

Definition calc_reynolds (params : t_param) (c : t_speeds) (obst : list Z) : F :=
  av_velocity params c obst * of_int (reynolds_dim params) / viscosity params.

Definition total_density_cell (params : t_param) (c : t_speeds) (jj : Z)
    (total : F) (ii : Z) : F :=
  let i := (ii + jj * nx params)%Z in
  let total := total + rdf (s0 c) i in
  let total := total + rdf (s1 c) i in
  let total := total + rdf (s2 c) i in
  let total := total + rdf (s3 c) i in
  let total := total + rdf (s4 c) i in
  let total := total + rdf (s5 c) i in
  let total := total + rdf (s6 c) i in
  let total := total + rdf (s7 c) i in
  let total := total + rdf (s8 c) i in
  total.

Definition total_density (params : t_param) (c : t_speeds) : F :=
  fold_left
    (fun total jj => fold_left (total_density_cell params c jj) (range (nx params)) total)
    (range (ny params)) f0.

(** ** initialise (the part that fills the arrays)

    [initialise] allocates both grids and the obstacle map, writes the
    zero-velocity equilibrium into the main grid, clears the obstacle map
    and marks the blocked cells read from the obstacle file.  It never
    writes the scratch grid: [tmp_cells] keeps whatever the allocator
    returned. *)

Definition initialise_cell (params : t_param) (jj : Z) (c : t_speeds) (ii : Z)
    : t_speeds :=
  let iw0 := density params * of_int 4 / of_int 9 in
  let iw1 := density params / of_int 9 in
  let iw2 := density params / of_int 36 in
  let i := (ii + jj * nx params)%Z in
  let c := store C0 i iw0 c in
  let c := store E1 i iw1 c in
  let c := store N2 i iw1 c in
  let c := store W3 i iw1 c in
  let c := store S4 i iw1 c in
  let c := store NE5 i iw2 c in
  let c := store NW6 i iw2 c in
  let c := store SW7 i iw2 c in
  let c := store SE8 i iw2 c in
  c.

Definition clear_obstacles (params : t_param) (obst : list Z) : list Z :=
  fold_left
    (fun o jj => fold_left (fun o ii => wr o (ii + jj * nx params)%Z 0%Z)
                   (range (nx params)) o)
    (range (ny params)) obst.

(** [blocked] lists the [(xx, yy)] pairs of the obstacle file; the three
    arguments after it are the freshly allocated arrays. *)
Definition initialise (params : t_param) (blocked : list (Z * Z))
    (fresh_cells fresh_tmp : t_speeds) (fresh_obst : list Z) : grids :=
  let c :=
    fold_left
      (fun c jj => fold_left (initialise_cell params jj) (range (nx params)) c)
      (range (ny params)) fresh_cells in
  let o := clear_obstacles params fresh_obst in
  let o := fold_left (fun o p => wr o (fst p + snd p * nx params)%Z 1%Z) blocked o in
  {| cells := c; tmp_cells := fresh_tmp; obstacles := o |}.

(** The cells of the grid in the order the loop nests visit them:
    [(jj, ii)] with [jj] outermost. *)
Definition cell_list (params : t_param) : list (Z * Z) :=
  flat_map (fun jj => map (pair jj) (range (nx params))) (range (ny params)).

Definition cell_ix (params : t_param) (k : Z * Z) : Z :=
  (snd k + fst k * nx params)%Z.

(** The cells that are not blocked, in loop order. *)
Definition is_open (params : t_param) (obst : list Z) (k : Z * Z) : bool :=
  rd 0 obst (cell_ix params k) =? 0.

Definition open_cells (params : t_param) (obst : list Z) : list (Z * Z) :=
  List.filter (is_open params obst) (cell_list params).

(** What the body of the loop nest of [timestep] stores into the array of
    speed [d] of the scratch grid when it visits cell [k = (jj, ii)]:
    nothing for the rest speed of a blocked cell. *)
Definition written (params : t_param) (c : t_speeds) (obst : list Z)
    (d : speed) (k : Z * Z) : option F :=
  let prop := propagate params c (fst k) (snd k) in
  if is_open params obst k then Some (sp d (collision params prop))
  else match d with
       | C0 => None
       | _ => Some (sp (opposite d) prop)
       end.

(** The guard of [accelerate_flow] on the obstacle flag and the values of a
    cell, and the update it protects. *)
Definition accel_guard (aw1 aw2 : F) (blocked : Z) (v : t_speed) : bool :=
  (blocked =? 0)
  && fgt (v3 v - aw1) f0 && fgt (v6 v - aw2) f0 && fgt (v7 v - aw2) f0.

Definition accel_update (aw1 aw2 : F) (v : t_speed) : t_speed :=
  {| v0 := v0 v;
     v1 := v1 v + aw1; v2 := v2 v; v3 := v3 v - aw1; v4 := v4 v;
     v5 := v5 v + aw2; v6 := v6 v - aw2; v7 := v7 v - aw2; v8 := v8 v + aw2 |}.

(** Index [i] lies in row [jj] of the grid. *)
Definition in_row (params : t_param) (jj i : Z) : bool :=
  (jj * nx params <=? i) && (i <? jj * nx params + nx params).

(** The equilibrium formula in the words of the specification:
    [weight(d) * rho * (1 + 3 e_d + 4.5 e_d^2 - 1.5 u_sq)], where [e_d] is
    the component of the velocity along the unit offset of [d]. *)
Definition weight (d : speed) : F :=
  match class_of d with
  | w_rest => of_int 4 / of_int 9
  | w_axis => of_int 1 / of_int 9
  | w_diag => of_int 1 / of_int 36
  end.

(** The contribution of one coordinate with unit offset [o] in [-1, 0, 1]. *)
Definition component (o : Z) (u : F) : option F :=
  match o with
  | Z0 => None
  | Zpos _ => Some u
  | Zneg _ => Some (- u)
  end.

Definition e_dir (d : speed) (u_x u_y : F) : F :=
  match component (off_x d) u_x, component (off_y d) u_y with
  | None, None => f0
  | Some a, None => a
  | None, Some b => b
  | Some a, Some b => a + b
  end.

Definition equilibrium_spec (d : speed) (rho u_x u_y u_sq : F) : F :=
  let e := e_dir d u_x u_y in
  weight d * rho
  * (f1 + of_int 3 * e + fconst 9 (-1) * (e * e) - fconst 3 (-1) * u_sq).

(** The cell a value of speed [d] is streamed from: one unit offset back,
    wrapped around both axes. *)
Definition neighbour (params : t_param) (d : speed) (k : Z * Z) : Z * Z :=
  ((fst k - off_y d) mod ny params, (snd k - off_x d) mod nx params).

(** The grids after [n] passes of the main loop. *)
Fixpoint run (n : nat) (params : t_param) (g : grids) : grids :=
  match n with
  | O => g
  | S n' => run n' params (fst (iteration params g))
  end.

(** At every blocked cell the scratch grid holds the rest value of the
    current grid. *)
Definition scratch_agrees (params : t_param) (g : grids) : Prop :=
  forall jj ii, (0 <= jj < ny params)%Z -> (0 <= ii < nx params)%Z ->
    rd 0 (obstacles g) (ii + jj * nx params)%Z <> 0 ->
    rdf (s0 (tmp_cells g)) (ii + jj * nx params)%Z
    = rdf (s0 (cells g)) (ii + jj * nx params)%Z.

(** ** The reductions of timestep

    The loop nest of [timestep] runs under
    [#pragma omp parallel for reduction(+ : tot_cells) reduction(+ : tot_u)]
    and [#pragma omp simd reduction(...)]: every iteration at an open cell
    contributes one term to each variable, and the source does not fix the
    order and the grouping in which the terms are added.  For the integer
    counter this is immaterial.  For [tot_u], the function [timestep] above
    adds the terms in loop order, as a sequential run does; [reduction_of]
    describes every value the reduction may produce, and statements that
    depend on the order are made for all of them. *)

(** The terms the open cells contribute to [tot_u], listed in loop order;
    [g] is the state [accelerate_flow] has left. *)
Definition tot_u_terms (params : t_param) (g : grids) : list F :=
  map (fun k => fsqrt (vel_sq (propagate params (cells g) (fst k) (snd k))))
      (open_cells params (obstacles g)).

(** [reduction_of terms u]: [u] is obtained by adding [terms], each of them
    once, in some order and grouping; an accumulator (the variable itself,
    or the private copy of a thread or of a SIMD lane) starts at [0.f]. *)
Inductive reduction_of : list F -> F -> Prop :=
  | reduction_init : reduction_of [] f0
  | reduction_term (x : F) : reduction_of [x] x
  | reduction_add (l1 l2 : list F) (a b : F) :
      reduction_of l1 a -> reduction_of l2 b -> reduction_of (l1 ++ l2) (a + b)
  | reduction_perm (l l' : list F) (a : F) :
      Permutation l l' -> reduction_of l a -> reduction_of l' a.

(** [timestep_returns params g u av]: called on [g], [timestep] may end
    with [tot_u = u] and return [av = tot_u / (float)tot_cells]. *)
Definition timestep_returns (params : t_param) (g : grids) (u av : F) : Prop :=
  let g1 := accelerate_flow params g in
  reduction_of (tot_u_terms params g1) u /\
  av = u / of_int (Z.of_nat (length (tot_u_terms params g1))).

(** ** The rest of the program: obstacle file, output records, main loop *)

(** The index [propagate] reads for speed [d] at cell [(ii, jj)]. *)
Definition propagate_index (params : t_param) (d : speed) (jj ii : Z) : Z :=
  let y_s := idx_y_s params jj in
  let y_n := idx_y_n params jj in
  let x_e := idx_x_e params ii in
  let x_w := idx_x_w params ii in
  let n := nx params in
  match d with
  | C0 => (ii + jj * n)%Z
  | E1 => (x_w + jj * n)%Z
  | N2 => (ii + y_s * n)%Z
  | W3 => (x_e + jj * n)%Z
  | S4 => (ii + y_n * n)%Z
  | NE5 => (x_w + y_s * n)%Z
  | NW6 => (x_e + y_s * n)%Z
  | SW7 => (x_e + y_n * n)%Z
  | SE8 => (x_w + y_n * n)%Z
  end.

(** The value [initialise] writes for speed [d]. *)
Definition initial_value (params : t_param) (d : speed) : F :=
  match class_of d with
  | w_rest => density params * of_int 4 / of_int 9
  | w_axis => density params / of_int 9
  | w_diag => density params / of_int 36
  end.

(** The messages [initialise] dies with while it reads the obstacle file. *)
Inductive die_message : Set :=
  | x_coord_out_of_range     (* "obstacle x-coord out of range" *)
  | y_coord_out_of_range     (* "obstacle y-coord out of range" *)
  | blocked_should_be_1.     (* "obstacle blocked value should be 1" *)

(** The checks made on one line [xx yy blocked] of the obstacle file, in
    the order of the source. *)
Definition obstacle_line_check (params : t_param) (e : Z * Z * Z)
    : option die_message :=
  let '(xx, yy, blocked) := e in
  if (xx <? 0) || (xx >? nx params - 1)%Z then Some x_coord_out_of_range
  else if (yy <? 0) || (yy >? ny params - 1)%Z then Some y_coord_out_of_range
  else if negb (blocked =? 1) then Some blocked_should_be_1
  else None.

(** The loop that reads the blocked cells: [entries] are the lines of the
    obstacle file that [fscanf] read as three integers; the result is the
    obstacle map, or the message the program dies with. *)
Fixpoint load_obstacles (params : t_param) (entries : list (Z * Z * Z))
    (obst : list Z) : die_message + list Z :=
  match entries with
  | [] => inr obst
  | e :: rest =>
      match obstacle_line_check params e with
      | Some msg => inl msg
      | None =>
          let '(xx, yy, blocked) := e in
          (* assign to array *)
          load_obstacles params rest (wr obst (xx + yy * nx params)%Z blocked)
      end
  end.

(** One line of the final state file:
    [ii jj u_x u_y u pressure obstacle]. *)
Record t_report := {
  rep_ii : Z;
  rep_jj : Z;
  rep_u_x : F;
  rep_u_y : F;
  rep_u : F;
  rep_pressure : F;
  rep_obstacle : Z
}.

(** Body of the loop nest of [write_values]. *)
Definition write_values_cell (params : t_param) (c : t_speeds) (obst : list Z)
    (jj ii : Z) : t_report :=
  let c_sq := f1 / of_int 3 in (* sq. of speed of sound *)
  let i := (ii + jj * nx params)%Z in
  if negb (rd 0 obst i =? 0) then
    (* an occupied cell *)
    {| rep_ii := ii; rep_jj := jj;
       rep_u_x := f0; rep_u_y := f0; rep_u := f0;
       rep_pressure := density params * c_sq;
       rep_obstacle := rd 0 obst (ii + nx params * jj)%Z |}
  else
    (* no obstacle *)
    let local_density := f0 in
    let local_density := local_density + rdf (s0 c) i in
    let local_density := local_density + rdf (s1 c) i in
    let local_density := local_density + rdf (s2 c) i in
    let local_density := local_density + rdf (s3 c) i in
    let local_density := local_density + rdf (s4 c) i in
    let local_density := local_density + rdf (s5 c) i in
    let local_density := local_density + rdf (s6 c) i in
    let local_density := local_density + rdf (s7 c) i in
    let local_density := local_density + rdf (s8 c) i in
    (* compute x velocity component *)
    let u_x := (rdf (s1 c) i + rdf (s5 c) i + rdf (s8 c) i
                - (rdf (s3 c) i + rdf (s6 c) i + rdf (s7 c) i)) / local_density in
    (* compute y velocity component *)
    let u_y := (rdf (s2 c) i + rdf (s5 c) i + rdf (s6 c) i
                - (rdf (s4 c) i + rdf (s7 c) i + rdf (s8 c) i)) / local_density in
    (* compute norm of velocity *)
    let u := fsqrt ((u_x * u_x) + (u_y * u_y)) in
    {| rep_ii := ii; rep_jj := jj;
       rep_u_x := u_x; rep_u_y := u_y; rep_u := u;
       (* compute pressure *)
       rep_pressure := local_density * c_sq;
       rep_obstacle := rd 0 obst (ii + nx params * jj)%Z |}.

(** The lines [write_values] prints to the final state file, in order. *)
Definition write_values_cells (params : t_param) (c : t_speeds) (obst : list Z)
    : list t_report :=
  fold_left
    (fun out jj =>
       fold_left (fun out ii => out ++ [write_values_cell params c obst jj ii])
         (range (nx params)) out)
    (range (ny params)) [].

(** The lines [write_values] prints to the velocity file: [ii: av_vels[ii]]. *)
Definition write_values_av_vels (params : t_param) (av_vels : list F)
    : list (Z * F) :=
  map (fun ii => (ii, rdf av_vels ii)) (range (maxIters params)).

(** The timestep loop of [main]: [av_vels[tt] = timestep(...)], then the
    pointer swap, for [tt] from 0 to [maxIters - 1]. *)
Fixpoint time_loop (params : t_param) (n : nat) (tt : Z) (g : grids)
    (av_vels : list F) : grids * list F :=
  match n with
  | O => (g, av_vels)
  | S n' =>
      let '(g', av) := timestep params g in
      time_loop params n' (tt + 1)%Z (swap g') (wr av_vels tt av)
  end.

Definition main_loop (params : t_param) (g : grids) (av_vels : list F)
    : grids * list F :=
  time_loop params (Z.to_nat (maxIters params)) 0 g av_vels.

(** What [main] prints and writes once the loop is over: the Reynolds
    number, the lines of the final state file and those of the velocity
    file, all taken from the grid [cells] points to after the last swap. *)
Record t_output := {
  out_reynolds : F;
  out_cells : list t_report;
  out_av_vels : list (Z * F)
}.

Definition main_output (params : t_param) (g : grids) (av_vels : list F)
    : t_output :=
  let '(g', av) := main_loop params g av_vels in
  {| out_reynolds := calc_reynolds params (cells g') (obstacles g');
     out_cells := write_values_cells params (cells g') (obstacles g');
     out_av_vels := write_values_av_vels params av |}.

(** A line of the obstacle file that passes the checks. *)
Definition valid_line (params : t_param) (e : Z * Z * Z) : Prop :=
  (0 <= fst (fst e) <= nx params - 1)%Z /\
  (0 <= snd (fst e) <= ny params - 1)%Z /\ snd e = 1.

(** ** Well-formed grids *)

Definition int_max : Z := 2147483647.

Definition sized (params : t_param) (c : t_speeds) : Prop :=
  forall d, length (arr d c) = Z.to_nat (nx params * ny params)%Z.

Definition wf (params : t_param) (g : grids) : Prop :=
  (0 < nx params)%Z /\ (0 < ny params)%Z /\
  (nx params * ny params <= int_max)%Z /\
  sized params (cells g) /\ sized params (tmp_cells g) /\
  length (obstacles g) = Z.to_nat (nx params * ny params)%Z.

End Kernel.

Arguments t_param F : clear implicits.
Arguments t_speeds F : clear implicits.
Arguments t_speed F : clear implicits.
Arguments grids F : clear implicits.
Arguments loop_state F : clear implicits.
Arguments t_report F : clear implicits.
Arguments t_output F : clear implicits.


(** ** Classification of binary32 values *)

(** [is_negative x]: [x] is [-0], a negative number or [-infinity].  A NaN
    is none of these.  The model has a single NaN, which carries no sign:
    which sign bit a NaN of the program has is not modelled, and no
    statement below says anything about it. *)
Definition is_negative (x : spec_float) : bool :=
  match x with
  | S754_zero s | S754_infinity s | S754_finite s _ _ => s
  | S754_nan => false
  end.

(** A number, as opposed to an infinity or a NaN. *)
Definition is_finite (x : spec_float) : bool :=
  match x with
  | S754_zero _ | S754_finite _ _ _ => true
  | S754_infinity _ | S754_nan => false
  end.

(** [+0] or [-0]. *)
Definition is_zero (x : spec_float) : bool :=
  match x with
  | S754_zero _ => true
  | _ => false
  end.

(** Equal, or the zeros [+0] and [-0]. *)
Definition eq_or_zeros (a b : spec_float) : Prop :=
  a = b \/ (a = S754_zero false /\ b = S754_zero true).

(** ** Concrete binary32 inputs used in the examples below *)

Definition fl (n : Z) : spec_float := of_int n.

Definition mk_params (n m : Z) (dens acc om : spec_float) : t_param spec_float :=
  {| nx := n; ny := m; maxIters := 1; reynolds_dim := 1;
     density := dens; accel := acc; omega := om |}.

(** A grid of [n] cells whose nine arrays all hold [x]. *)
Definition uniform (n : nat) (x : spec_float) : t_speeds spec_float :=
  let a := replicate n x in
  {| s0 := a; s1 := a; s2 := a; s3 := a; s4 := a;
     s5 := a; s6 := a; s7 := a; s8 := a |}.

(** A 2 x 2 run: density 36 makes the initial values 16, 4 and 1.  The
    freshly allocated arrays are taken to hold zeros. *)
Definition demo_start (acc : spec_float) (blocked : list (Z * Z))
    : t_param spec_float * grids spec_float :=
  let p := mk_params 2 2 (fl 36) acc (fl 1) in
  (p, initialise p blocked (uniform 4 (fl 0)) (uniform 4 (fl 0)) [0; 0; 0; 0]).

(** A 2 x 2 grid without obstacles whose whole mass sits in the rest
    speed (value 1 in every cell), with omega = 1 and no forcing. *)
Definition rest_only_run : t_param spec_float * grids spec_float :=
  let z := replicate 4 (fl 0) in
  (mk_params 2 2 (fl 1) (fl 0) (fl 1),
   {| cells := {| s0 := replicate 4 (fl 1); s1 := z; s2 := z; s3 := z; s4 := z;
                  s5 := z; s6 := z; s7 := z; s8 := z |};
      tmp_cells := uniform 4 (fl 0);
      obstacles := [0; 0; 0; 0] |}).

(** A 2 x 2 grid without obstacles whose east and north-east values are
    all [2^127]; every other value is zero. *)
Definition huge_run : t_param spec_float * grids spec_float :=
  let z := replicate 4 (fl 0) in
  let b := replicate 4 (fconst 1 127) in
  (mk_params 2 2 (fl 1) (fl 0) (fl 1),
   {| cells := {| s0 := z; s1 := b; s2 := z; s3 := z; s4 := z;
                  s5 := b; s6 := z; s7 := z; s8 := z |};
      tmp_cells := uniform 4 (fl 0);
      obstacles := [0; 0; 0; 0] |}).

(** A 4 x 4 run as [initialise] sets it up: density 0.1, accel 0.5,
    omega 1, cell (1,1) blocked. *)
Definition blocked_run : t_param spec_float * grids spec_float :=
  let p := mk_params 4 4 (fconst 13421773 (-27)) (fconst 1 (-1)) (fl 1) in
  (p, initialise p [(1, 1)] (uniform 16 (fl 0)) (uniform 16 (fl 0))
        (replicate 16 0)).

(** A 1 x 1 grid over the reals. *)
Definition unit_run_R : t_param R * grids R :=
  let a := [1%R] in
  let c := {| s0 := a; s1 := a; s2 := a; s3 := a; s4 := a;
              s5 := a; s6 := a; s7 := a; s8 := a |} in
  ({| nx := 1; ny := 1; maxIters := 1; reynolds_dim := 1;
      density := 1%R; accel := 0%R; omega := 1%R |},
   {| cells := c; tmp_cells := c; obstacles := [0] |}).

(** A 2 x 2 run as [initialise] sets it up with density 0: every value of
    the main grid is [+0]. *)
Definition massless_run : t_param spec_float * grids spec_float :=
  let p := mk_params 2 2 (fl 0) (fl 0) (fl 1) in
  (p, initialise p [] (uniform 4 (fl 0)) (uniform 4 (fl 0)) [0; 0; 0; 0]).

(** Parameters of a 1 x 2 grid over the reals (density 1, no forcing), and
    a grid of that size without obstacles whose values are all 1. *)
Definition two_row_params_R : t_param R :=
  {| nx := 1; ny := 2; maxIters := 1; reynolds_dim := 1;
     density := 1%R; accel := 0%R; omega := 1%R |}.

Definition two_row_run_R : t_param R * grids R :=
  let a := [1%R; 1%R] in
  let c := {| s0 := a; s1 := a; s2 := a; s3 := a; s4 := a;
              s5 := a; s6 := a; s7 := a; s8 := a |} in
  (two_row_params_R, {| cells := c; tmp_cells := c; obstacles := [0; 0] |}).

(** Sum of a list of reals. *)
Definition Rsum (l : list R) : R := fold_right Rplus 0%R l.

(** * Properties *)

Ltac split_conj := repeat match goal with |- _ /\ _ => split end.

(** ** Arrays and index ranges *)

Lemma in_range (n k : Z) : In k (range n) <-> 0 <= k < n.
Proof.
  unfold range. rewrite in_map_iff. split.
  - intros (m & <- & Hm). apply in_seq in Hm. lia.
  - intros Hk. exists (Z.to_nat k). split; [lia|]. apply in_seq. lia.
Qed.

Lemma NoDup_range (n : Z) : List.NoDup (range n).
Proof.
  unfold range. apply Finite.Injective_map_NoDup.
  - intros a b Hab. lia.
  - apply List.seq_NoDup.
Qed.

Lemma length_wr {A : Type} (a : list A) (i : Z) (x : A) :
  length (wr a i x) = length a.
Proof. unfold wr. destruct (0 <=? i); [apply length_insert | reflexivity]. Qed.

Lemma rd_wr_eq {A : Type} (dflt : A) (a : list A) (i : Z) (x : A) :
  0 <= i < Z.of_nat (length a) -> rd dflt (wr a i x) i = x.
Proof.
  intros Hi. unfold rd, wr.
  destruct (Z.leb_spec 0 i); [|lia].
  rewrite list_lookup_insert_eq by lia. reflexivity.
Qed.

Lemma rd_wr_ne {A : Type} (dflt : A) (a : list A) (i j : Z) (x : A) :
  i <> j -> rd dflt (wr a j x) i = rd dflt a i.
Proof.
  intros Hij. unfold rd, wr.
  destruct (Z.leb_spec 0 i); [|reflexivity].
  destruct (Z.leb_spec 0 j); [|reflexivity].
  rewrite list_lookup_insert_ne by lia. reflexivity.
Qed.

(** Two arrays of the same length that read alike everywhere are equal. *)
Lemma rd_ext {A : Type} (dflt : A) (a b : list A) :
  length a = length b ->
  (forall i, 0 <= i < Z.of_nat (length a) -> rd dflt a i = rd dflt b i) ->
  a = b.
Proof.
  intros Hlen Hrd. apply list_eq. intros n.
  destruct (Nat.lt_ge_cases n (length a)) as [Hn|Hn].
  - specialize (Hrd (Z.of_nat n) ltac:(lia)). unfold rd in Hrd.
    destruct (Z.leb_spec 0 (Z.of_nat n)); [|lia].
    rewrite Nat2Z.id in Hrd.
    destruct (lookup_lt_is_Some_2 a n Hn) as [x Hx].
    destruct (lookup_lt_is_Some_2 b n ltac:(lia)) as [y Hy].
    rewrite Hx, Hy in *. simpl in Hrd. congruence.
  - rewrite (lookup_ge_None_2 a n) by lia.
    rewrite (lookup_ge_None_2 b n) by lia. reflexivity.
Qed.

Lemma speed_eq_dec (d d' : speed) : {d = d'} + {d <> d'}.
Proof. decide equality. Defined.

(** Cell indices are unique within the grid. *)
Lemma cell_index_inj (n ii jj ii' jj' : Z) :
  0 <= ii < n -> 0 <= ii' < n ->
  ii + jj * n = ii' + jj' * n -> ii = ii' /\ jj = jj'.
Proof.
  intros Hi Hi' Heq.
  assert (Hj : jj = jj').
  { destruct (Z.lt_trichotomy jj jj') as [Hlt|[Heq'|Hgt]]; [|exact Heq'|].
    - assert (n <= (jj' - jj) * n) by nia. lia.
    - assert (n <= (jj - jj') * n) by nia. lia. }
  subst jj'. lia.
Qed.

Lemma cell_index_bound (n m ii jj : Z) :
  0 <= ii < n -> 0 <= jj < m -> 0 <= ii + jj * n < n * m.
Proof. intros Hi Hj. nia. Qed.

Section KernelFacts.

Context {F : Type} `{FloatOps F}.

Implicit Types (c tmp : t_speeds F) (g : grids F) (params : t_param F).

Lemma arr_with_arr_eq d a c : arr d (with_arr d a c) = a.
Proof. destruct d; reflexivity. Qed.

Lemma arr_with_arr_ne d d' a c : d <> d' -> arr d' (with_arr d a c) = arr d' c.
Proof. destruct d, d'; intros Hd; try reflexivity; congruence. Qed.

Lemma arr_store d d' i x c :
  arr d' (store d i x c) = if speed_eq_dec d d' then wr (arr d c) i x else arr d' c.
Proof.
  unfold store. destruct (speed_eq_dec d d') as [->|Hd].
  - apply arr_with_arr_eq.
  - apply arr_with_arr_ne, Hd.
Qed.

Lemma sized_store params d i x c : sized params c -> sized params (store d i x c).
Proof.
  intros Hc d'. rewrite arr_store. destruct (speed_eq_dec d d') as [->|_].
  - rewrite length_wr. apply Hc.
  - apply Hc.
Qed.

Lemma sp_cell_at d c i : sp d (cell_at c i) = rdf (arr d c) i.
Proof. destruct d; reflexivity. Qed.

(** A grid is determined by its nine arrays, a cell by its nine values. *)
Lemma t_speeds_ext c c' : (forall d, arr d c = arr d c') -> c = c'.
Proof.
  intros Hd. destruct c, c'.
  pose proof (Hd C0); pose proof (Hd E1); pose proof (Hd N2);
  pose proof (Hd W3); pose proof (Hd S4); pose proof (Hd NE5);
  pose proof (Hd NW6); pose proof (Hd SW7); pose proof (Hd SE8).
  simpl in *. congruence.
Qed.

Lemma t_speed_ext (v v' : t_speed F) : (forall d, sp d v = sp d v') -> v = v'.
Proof.
  intros Hd. destruct v, v'.
  pose proof (Hd C0); pose proof (Hd E1); pose proof (Hd N2);
  pose proof (Hd W3); pose proof (Hd S4); pose proof (Hd NE5);
  pose proof (Hd NW6); pose proof (Hd SW7); pose proof (Hd SE8).
  simpl in *. congruence.
Qed.

(** *** Loops that store into one array *)

Section ArrayLoop.

Context {A K : Type} (ix : K -> Z) (val : K -> option A).


Lemma array_loop_length (l : list K) (a : list A) :
  length (fold_left (array_step ix val) l a) = length a.
Proof.
  revert a. induction l as [|k l IH]; intros a; simpl; [reflexivity|].
  rewrite IH. unfold array_step. destruct (val k); [apply length_wr|reflexivity].
Qed.

Lemma array_loop_rd (dflt : A) (v : option A) (l : list K) (a : list A) (i : Z) :
  (forall k, In k l -> ix k = i -> val k = v) ->
  0 <= i < Z.of_nat (length a) ->
  rd dflt (fold_left (array_step ix val) l a) i =
    if existsb (fun k => ix k =? i) l
    then match v with Some x => x | None => rd dflt a i end
    else rd dflt a i.
Proof.
  revert a. induction l as [|k l IH]; intros a Hv Hi; simpl; [reflexivity|].
  assert (Hlen : length (array_step ix val a k) = length a).
  { unfold array_step. destruct (val k); [apply length_wr | reflexivity]. }
  rewrite IH; [|intros k' Hk'; apply Hv; now right|rewrite Hlen; exact Hi].
  destruct (Z.eqb_spec (ix k) i) as [Hk|Hk]; simpl.
  - assert (Hstep : rd dflt (array_step ix val a k) i
                    = match v with Some x => x | None => rd dflt a i end).
    { unfold array_step. rewrite (Hv k (or_introl eq_refl) Hk).
      destruct v; [|reflexivity]. rewrite Hk. apply rd_wr_eq, Hi. }
    rewrite Hstep. destruct (existsb _ l), v; reflexivity.
  - assert (Hstep : rd dflt (array_step ix val a k) i = rd dflt a i).
    { unfold array_step. destruct (val k); [|reflexivity].
      apply rd_wr_ne. congruence. }
    rewrite Hstep. reflexivity.
Qed.

Lemma array_loop_miss (dflt : A) (l : list K) (a : list A) (i : Z) :
  (forall k, In k l -> ix k <> i) ->
  rd dflt (fold_left (array_step ix val) l a) i = rd dflt a i.
Proof.
  revert a. induction l as [|k l IH]; intros a Hl; simpl; [reflexivity|].
  rewrite IH by (intros k' Hk'; apply Hl; now right).
  unfold array_step. destruct (val k); [|reflexivity].
  apply rd_wr_ne. intros Heq. apply (Hl k); [now left | congruence].
Qed.

Lemma array_loop_hit (dflt : A) (l : list K) (a : list A) (k : K) :
  In k l ->
  (forall k', In k' l -> ix k' = ix k -> k' = k) ->
  0 <= ix k < Z.of_nat (length a) ->
  rd dflt (fold_left (array_step ix val) l a) (ix k) =
    match val k with Some x => x | None => rd dflt a (ix k) end.
Proof.
  intros Hin Hinj Hb.
  rewrite (array_loop_rd dflt (val k)); trivial.
  - replace (existsb _ l) with true; [reflexivity|].
    symmetry. apply existsb_exists. exists k. split; [exact Hin | apply Z.eqb_refl].
  - intros k' Hk' He. now rewrite (Hinj k' Hk' He).
Qed.

End ArrayLoop.

Lemma in_cell_list params jj ii :
  In (jj, ii) (cell_list params) <-> 0 <= jj < ny params /\ 0 <= ii < nx params.
Proof.
  unfold cell_list. rewrite in_flat_map. split.
  - intros (j & Hj & Hin). apply in_map_iff in Hin as (i & Heq & Hi).
    inversion Heq; subst. rewrite in_range in Hj, Hi. tauto.
  - intros [Hj Hi]. exists jj. rewrite in_range. split; [exact Hj|].
    apply in_map, in_range, Hi.
Qed.

Lemma fold_nested {S : Type} (body : Z -> S -> Z -> S) params (st : S) :
  fold_left (fun st jj => fold_left (body jj) (range (nx params)) st)
    (range (ny params)) st
  = fold_left (fun st k => body (fst k) st (snd k)) (cell_list params) st.
Proof.
  unfold cell_list. generalize (range (ny params)) as rows. intros rows. revert st.
  induction rows as [|jj rows IH]; intros st; simpl; [reflexivity|].
  rewrite fold_left_app, <- IH. f_equal.
  generalize (range (nx params)) as cols. intros cols. revert st.
  induction cols as [|ii cols IHc]; intros st; simpl; [reflexivity|].
  apply IHc.
Qed.

(** *** The loop nest of timestep, array by array *)

Lemma timestep_cell_arr params c obst d jj st ii :
  arr d (ls_tmp (timestep_cell params c obst jj st ii))
  = array_step (cell_ix params) (written params c obst d)
      (arr d (ls_tmp st)) (jj, ii).
Proof.
  unfold timestep_cell, array_step, written, is_open, cell_ix. simpl.
  rewrite (Z.add_comm (jj * nx params) ii).
  destruct (rd 0 obst (ii + jj * nx params) =? 0); simpl;
    destruct d; reflexivity.
Qed.

Lemma stream_collide_arr params g d :
  arr d (ls_tmp (stream_collide params g))
  = fold_left (array_step (cell_ix params) (written params (cells g) (obstacles g) d))
      (cell_list params) (arr d (tmp_cells g)).
Proof.
  unfold stream_collide, timestep_row.
  rewrite (fold_nested (timestep_cell params (cells g) (obstacles g))).
  change (tmp_cells g)
    with (ls_tmp {| ls_tmp := tmp_cells g; tot_cells := 0; tot_u := f0 |}) at 2.
  generalize {| ls_tmp := tmp_cells g; tot_cells := 0; tot_u := f0 |} as st.
  generalize (cell_list params) as l.
  induction l as [|[jj ii] l IH]; intros st; simpl; [reflexivity|].
  rewrite IH, timestep_cell_arr. reflexivity.
Qed.

Lemma cell_ix_inj params k k' :
  In k (cell_list params) -> In k' (cell_list params) ->
  cell_ix params k' = cell_ix params k -> k' = k.
Proof.
  destruct k as [jj ii], k' as [jj' ii']. rewrite !in_cell_list.
  unfold cell_ix. simpl. intros [_ Hi] [_ Hi'] Heq.
  destruct (cell_index_inj (nx params) ii' jj' ii jj Hi' Hi Heq). congruence.
Qed.

(** The value a pass leaves in the scratch grid at a cell of the grid. *)
Lemma stream_collide_cell params g d jj ii :
  length (arr d (tmp_cells g)) = Z.to_nat (nx params * ny params) ->
  0 <= jj < ny params -> 0 <= ii < nx params ->
  rdf (arr d (ls_tmp (stream_collide params g))) (ii + jj * nx params)
  = match written params (cells g) (obstacles g) d (jj, ii) with
    | Some x => x
    | None => rdf (arr d (tmp_cells g)) (ii + jj * nx params)
    end.
Proof.
  intros Hlen Hj Hi. rewrite stream_collide_arr. unfold rdf.
  change (ii + jj * nx params) with (cell_ix params (jj, ii)).
  apply array_loop_hit.
  - apply in_cell_list. tauto.
  - intros k' Hk'. apply cell_ix_inj; [apply in_cell_list; tauto | exact Hk'].
  - rewrite Hlen. unfold cell_ix. simpl.
    pose proof (cell_index_bound (nx params) (ny params) ii jj Hi Hj). lia.
Qed.

Lemma stream_collide_sized params g :
  sized params (tmp_cells g) -> sized params (ls_tmp (stream_collide params g)).
Proof.
  intros Hs d. rewrite stream_collide_arr, array_loop_length. apply Hs.
Qed.

(** *** The reduction of timestep *)

Lemma stream_collide_reduction params g :
  let st := stream_collide params g in
  let c := cells g in
  tot_cells st = Z.of_nat (length (open_cells params (obstacles g))) /\
  tot_u st = fold_left
               (fun u k => fadd u (fsqrt (vel_sq (propagate params c (fst k) (snd k)))))
               (open_cells params (obstacles g)) f0.
Proof.
  unfold stream_collide, timestep_row, open_cells.
  rewrite (fold_nested (timestep_cell params (cells g) (obstacles g))).
  generalize (cell_list params) as l. intros l.
  assert (Hgen : forall st,
    let st' := fold_left (fun st k => timestep_cell params (cells g) (obstacles g)
                                        (fst k) st (snd k)) l st in
    tot_cells st' = tot_cells st
                    + Z.of_nat (length (List.filter (is_open params (obstacles g)) l)) /\
    tot_u st' = fold_left
       (fun u k => fadd u (fsqrt (vel_sq (propagate params (cells g) (fst k) (snd k)))))
       (List.filter (is_open params (obstacles g)) l) (tot_u st)).
  { induction l as [|[jj ii] l IH]; intros st; simpl.
    - split; [lia | reflexivity].
    - destruct (IH (timestep_cell params (cells g) (obstacles g) jj st ii)) as [IH1 IH2].
      rewrite IH1, IH2. unfold timestep_cell, is_open, cell_ix. simpl.
      rewrite (Z.add_comm (jj * nx params) ii).
      destruct (rd 0 (obstacles g) (ii + jj * nx params) =? 0); simpl.
      + split; [lia | reflexivity].
      + split; [lia | reflexivity]. }
  specialize (Hgen {| ls_tmp := tmp_cells g; tot_cells := 0; tot_u := f0 |}).
  simpl in Hgen. exact Hgen.
Qed.

(** *** accelerate_flow *)

Lemma accelerate_cell_frame params aw1 aw2 jj g ii :
  let g' := accelerate_cell params aw1 aw2 jj g ii in
  obstacles g' = obstacles g /\ tmp_cells g' = tmp_cells g /\
  s0 (cells g') = s0 (cells g) /\ s2 (cells g') = s2 (cells g) /\
  s4 (cells g') = s4 (cells g) /\
  (sized params (cells g) -> sized params (cells g')).
Proof.
  unfold accelerate_cell.
  destruct (_ && _); simpl; repeat split; trivial.
  intros Hs d. pose proof (Hs d) as Hd.
  destruct d; simpl in *; rewrite ?length_wr; exact Hd.
Qed.

Lemma accelerate_cell_values params aw1 aw2 jj g ii i :
  sized params (cells g) ->
  0 <= ii + jj * nx params < nx params * ny params ->
  cell_at (cells (accelerate_cell params aw1 aw2 jj g ii)) i
  = if (ii + jj * nx params =? i)
       && accel_guard aw1 aw2 (rd 0 (obstacles g) i) (cell_at (cells g) i)
    then accel_update aw1 aw2 (cell_at (cells g) i)
    else cell_at (cells g) i.
Proof.
  intros Hs Hb. unfold accelerate_cell.
  change ((rd 0 (obstacles g) (ii + jj * nx params) =? 0)
          && fgt (fsub (rdf (s3 (cells g)) (ii + jj * nx params)) aw1) f0
          && fgt (fsub (rdf (s6 (cells g)) (ii + jj * nx params)) aw2) f0
          && fgt (fsub (rdf (s7 (cells g)) (ii + jj * nx params)) aw2) f0)
    with (accel_guard aw1 aw2 (rd 0 (obstacles g) (ii + jj * nx params))
            (cell_at (cells g) (ii + jj * nx params))).
  destruct (Z.eqb_spec (ii + jj * nx params) i) as [<-|Hne]; simpl.
  - destruct (accel_guard _ _ _ _); [|reflexivity].
    assert (Hlen : forall d, 0 <= ii + jj * nx params < Z.of_nat (length (arr d (cells g)))).
    { intros d. rewrite (Hs d). lia. }
    apply t_speed_ext. intros d. rewrite sp_cell_at. unfold rdf.
    destruct d; simpl;
      try (apply rd_wr_eq; first [apply (Hlen E1) | apply (Hlen W3) | apply (Hlen NE5)
                                  | apply (Hlen NW6) | apply (Hlen SW7) | apply (Hlen SE8)]);
      reflexivity.
  - destruct (accel_guard _ _ _ _); [|reflexivity].
    apply t_speed_ext. intros d. rewrite !sp_cell_at. unfold rdf.
    destruct d; simpl; try reflexivity; apply rd_wr_ne; congruence.
Qed.

Lemma accelerate_loop_spec params aw1 aw2 jj (l : list Z) g :
  List.NoDup l ->
  (forall ii, In ii l -> 0 <= ii + jj * nx params < nx params * ny params) ->
  sized params (cells g) ->
  let g' := fold_left (accelerate_cell params aw1 aw2 jj) l g in
  obstacles g' = obstacles g /\ tmp_cells g' = tmp_cells g /\
  s0 (cells g') = s0 (cells g) /\ s2 (cells g') = s2 (cells g) /\
  s4 (cells g') = s4 (cells g) /\
  sized params (cells g') /\
  forall i,
    cell_at (cells g') i
    = if existsb (fun ii => ii + jj * nx params =? i) l
         && accel_guard aw1 aw2 (rd 0 (obstacles g) i) (cell_at (cells g) i)
      then accel_update aw1 aw2 (cell_at (cells g) i)
      else cell_at (cells g) i.
Proof.
  revert g. induction l as [|ii l IH]; intros g Hnd Hb Hs; simpl.
  - repeat split; trivial.
  - inversion Hnd as [|? ? Hni Hnd']; subst.
    destruct (accelerate_cell_frame params aw1 aw2 jj g ii)
      as (Ho & Ht & H0 & H2 & H4 & Hs1).
    specialize (Hs1 Hs).
    destruct (IH (accelerate_cell params aw1 aw2 jj g ii) Hnd'
                (fun k Hk => Hb k (or_intror Hk)) Hs1)
      as (Ho' & Ht' & H0' & H2' & H4' & Hs' & Hv).
    repeat split; try congruence.
    intros i. rewrite Hv, Ho.
    rewrite !(accelerate_cell_values params aw1 aw2 jj g ii i Hs (Hb ii (or_introl eq_refl))).
    destruct (Z.eqb_spec (ii + jj * nx params) i) as [He|He]; simpl.
    + replace (existsb _ l) with false; [reflexivity|].
      symmetry. apply not_true_is_false. intros Hex.
      apply existsb_exists in Hex as (k & Hk & Hki).
      apply Z.eqb_eq in Hki. assert (k = ii) by lia. subst k. contradiction.
    + reflexivity.
Qed.

Lemma existsb_row params jj i :
  0 < nx params ->
  existsb (fun ii => ii + jj * nx params =? i) (range (nx params))
  = in_row params jj i.
Proof.
  intros Hn. unfold in_row. apply eq_true_iff_eq.
  rewrite existsb_exists, andb_true_iff, Z.leb_le, Z.ltb_lt. split.
  - intros (ii & Hin & He). apply in_range in Hin. apply Z.eqb_eq in He. lia.
  - intros Hi. exists (i - jj * nx params). rewrite in_range, Z.eqb_eq. lia.
Qed.

(** What [accelerate_flow] does, cell by cell. *)
Lemma accelerate_flow_spec params g :
  wf params g -> 2 <= ny params ->
  let g' := accelerate_flow params g in
  let aw1 := accel_w1 params in
  let aw2 := accel_w2 params in
  obstacles g' = obstacles g /\ tmp_cells g' = tmp_cells g /\
  s0 (cells g') = s0 (cells g) /\ s2 (cells g') = s2 (cells g) /\
  s4 (cells g') = s4 (cells g) /\
  sized params (cells g') /\
  forall i,
    cell_at (cells g') i
    = if in_row params (ny params - 2) i
         && accel_guard aw1 aw2 (rd 0 (obstacles g) i) (cell_at (cells g) i)
      then accel_update aw1 aw2 (cell_at (cells g) i)
      else cell_at (cells g) i.
Proof.
  intros (Hnx & Hny & _ & Hs & _ & _) Hny2. simpl. unfold accelerate_flow.
  destruct (accelerate_loop_spec params (accel_w1 params) (accel_w2 params)
              (ny params - 2) (range (nx params)) g) as (Ho & Ht & H0 & H2 & H4 & Hs' & Hv).
  - apply NoDup_range.
  - intros ii Hin. apply in_range in Hin. nia.
  - exact Hs.
  - repeat split; trivial.
    intros i. rewrite Hv, existsb_row by exact Hnx. reflexivity.
Qed.

(** Without any assumption on the grid, [accelerate_flow] never touches the
    obstacle map or the scratch grid. *)
Lemma accelerate_flow_frame params g :
  obstacles (accelerate_flow params g) = obstacles g /\
  tmp_cells (accelerate_flow params g) = tmp_cells g.
Proof.
  unfold accelerate_flow. generalize (range (nx params)) as l. intros l.
  revert g. induction l as [|ii l IH]; intros g; simpl; [tauto|].
  destruct (IH (accelerate_cell params (accel_w1 params) (accel_w2 params)
                  (ny params - 2) g ii)) as [-> ->].
  destruct (accelerate_cell_frame params (accel_w1 params) (accel_w2 params)
              (ny params - 2) g ii) as (-> & -> & _). tauto.
Qed.

(** *** The reduction of av_velocity *)

Lemma av_velocity_loop_spec params c obst :
  av_velocity_loop params c obst
  = (Z.of_nat (length (open_cells params obst)),
     fold_left (fun u k => fadd u (av_cell_speed c (cell_ix params k)))
       (open_cells params obst) f0).
Proof.
  unfold av_velocity_loop, open_cells.
  rewrite (fold_nested (av_velocity_cell params c obst)).
  generalize (cell_list params) as l. intros l.
  assert (Hgen : forall acc,
    fold_left (fun acc k => av_velocity_cell params c obst (fst k) acc (snd k)) l acc
    = (fst acc + Z.of_nat (length (List.filter (is_open params obst) l)),
       fold_left (fun u k => fadd u (av_cell_speed c (cell_ix params k)))
         (List.filter (is_open params obst) l) (snd acc))).
  { induction l as [|[jj ii] l IH]; intros [n u]; simpl.
    - f_equal. lia.
    - rewrite IH. unfold av_velocity_cell, is_open, cell_ix. simpl.
      destruct (rd 0 obst (ii + jj * nx params) =? 0); simpl; f_equal; lia. }
  rewrite Hgen. reflexivity.
Qed.

Lemma fold_left_map_add {K : Type} (f : K -> F) (l : list K) (u : F) :
  fold_left (fun u k => fadd u (f k)) l u = fold_left fadd (map f l) u.
Proof. revert u. induction l as [|k l IH]; intros u; simpl; [reflexivity | apply IH]. Qed.

(** *** The reduction of tot_u *)

(** Adding the terms one after the other, from [0.f], is one of the
    results a reduction admits. *)
Lemma reduction_fold (l : list F) :
  reduction_of l (fold_left fadd l f0).
Proof.
  assert (Hgen : forall l0 a, reduction_of l0 a ->
                              reduction_of (l0 ++ l) (fold_left fadd l a)).
  { induction l as [|x l IH]; intros l0 a Ha; cbn [fold_left].
    - rewrite app_nil_r. exact Ha.
    - replace (l0 ++ x :: l) with ((l0 ++ [x]) ++ l) by (rewrite <- app_assoc; reflexivity).
      apply IH. apply reduction_add; [exact Ha | apply reduction_term]. }
  apply (Hgen [] f0), reduction_init.
Qed.

Lemma length_tot_u_terms (params : t_param F) (g : grids F) :
  length (tot_u_terms params g) = length (open_cells params (obstacles g)).
Proof. unfold tot_u_terms. apply length_map. Qed.

(** What the function [timestep] computes is one of the admitted results. *)
Lemma timestep_returns_loop_order (params : t_param F) (g : grids F) :
  timestep_returns params g
    (tot_u (stream_collide params (accelerate_flow params g)))
    (snd (timestep params g)).
Proof.
  unfold timestep_returns. cbn zeta.
  destruct (stream_collide_reduction params (accelerate_flow params g)) as [Hn Hu].
  split.
  - rewrite Hu, fold_left_map_add. apply reduction_fold.
  - unfold timestep. cbn [snd]. rewrite Hn, length_tot_u_terms. reflexivity.
Qed.

Lemma open_cells_all_blocked params obst :
  (forall jj ii, 0 <= jj < ny params -> 0 <= ii < nx params ->
                 rd 0 obst (ii + jj * nx params) <> 0) ->
  open_cells params obst = [].
Proof.
  intros Hb. unfold open_cells.
  assert (Hall : forall k, In k (cell_list params) -> is_open params obst k = false).
  { intros [jj ii] Hk. apply in_cell_list in Hk as [Hj Hi].
    unfold is_open, cell_ix. simpl. apply Z.eqb_neq, Hb; assumption. }
  revert Hall. generalize (cell_list params) as l.
  induction l as [|k l IH]; intros Hall; simpl; [reflexivity|].
  rewrite (Hall k (or_introl eq_refl)). apply IH. intros k' Hk'. apply Hall. now right.
Qed.

(** *** What one call of timestep leaves at a cell of the scratch grid *)

Lemma sp_collision params (prop : t_speed F) d :
  sp d (collision params prop) = relax (omega params) (sp d prop) (sp d (d_equ prop)).
Proof. destruct d; reflexivity. Qed.

Lemma timestep_cell_value params g jj ii d :
  wf params g -> 0 <= jj < ny params -> 0 <= ii < nx params ->
  let prop := propagate params (cells (accelerate_flow params g)) jj ii in
  rdf (arr d (tmp_cells (fst (timestep params g)))) (ii + jj * nx params)
  = if rd 0 (obstacles g) (ii + jj * nx params) =? 0
    then relax (omega params) (sp d prop) (sp d (d_equ prop))
    else match d with
         | C0 => rdf (s0 (tmp_cells g)) (ii + jj * nx params)
         | _ => sp (opposite d) prop
         end.
Proof.
  intros (_ & _ & _ & _ & Ht & _) Hj Hi. cbn zeta.
  destruct (accelerate_flow_frame params g) as [Ho Htmp].
  unfold timestep. cbn [fst tmp_cells].
  rewrite stream_collide_cell; [|rewrite Htmp; apply Ht|exact Hj|exact Hi].
  unfold written, is_open, cell_ix. cbn [fst snd]. rewrite Ho, Htmp.
  destruct (rd 0 (obstacles g) (ii + jj * nx params) =? 0).
  - apply sp_collision.
  - destruct d; reflexivity.
Qed.

(** *** One pass of the main loop *)

Lemma iteration_grids params g :
  fst (iteration params g)
  = {| cells := tmp_cells (fst (timestep params g));
       tmp_cells := cells (accelerate_flow params g);
       obstacles := obstacles (accelerate_flow params g) |}.
Proof. reflexivity. Qed.

Lemma iteration_wf params g :
  wf params g -> 2 <= ny params -> wf params (fst (iteration params g)).
Proof.
  intros Hwf Hny. pose proof Hwf as (Hnx & Hny0 & Hmax & Hc & Ht & Ho).
  destruct (accelerate_flow_spec params g Hwf Hny) as (Ho' & Ht' & _ & _ & _ & Hs & _).
  rewrite iteration_grids. unfold wf. cbn [cells tmp_cells obstacles].
  split_conj; trivial.
  - unfold timestep. cbn [fst tmp_cells]. apply stream_collide_sized.
    rewrite Ht'. exact Ht.
  - rewrite Ho'. exact Ho.
Qed.

(** Had the scratch grid the right rest values at the blocked cells once,
    it would keep them: [timestep] never writes them and [accelerate_flow]
    never writes a rest value. *)
Lemma iteration_scratch_agrees params g :
  wf params g -> 2 <= ny params ->
  scratch_agrees params g -> scratch_agrees params (fst (iteration params g)).
Proof.
  intros Hwf Hny Hag jj ii Hj Hi.
  destruct (accelerate_flow_spec params g Hwf Hny) as (Ho' & _ & H0 & _).
  rewrite iteration_grids. cbn [cells tmp_cells obstacles]. rewrite Ho', H0.
  intros Hb.
  pose proof (timestep_cell_value params g jj ii C0 Hwf Hj Hi) as Hv.
  cbn zeta in Hv. cbn [arr] in Hv. rewrite Hv.
  apply Z.eqb_neq in Hb. rewrite Hb. symmetry. apply Hag; trivial.
  apply Z.eqb_neq, Hb.
Qed.

(** ** Claims about accelerate_flow *)

(** C2 (amended).  For a cell [(ii, ny-2)] of a well-formed grid with at
    least two rows: when the cell is not blocked, [accelerate_flow] applies
    the forcing update (add [w1' = density*accel/9] to E and
    [w2' = density*accel/36] to NE and SE, subtract the same from W, NW and
    SW) if each of [W - w1'], [NW - w2'] and [SW - w2'] is strictly greater
    than zero, and otherwise leaves all nine values of the cell as they
    were; a blocked cell is left as it was. *)
Theorem C2_accelerate_guard_strict params g ii :
  wf params g -> 2 <= ny params -> 0 <= ii < nx params ->
  let i := ii + (ny params - 2) * nx params in
  let v := cell_at (cells g) i in
  let v' := cell_at (cells (accelerate_flow params g)) i in
  let aw1 := fdiv (fmul (density params) (accel params)) (of_int 9) in
  let aw2 := fdiv (fmul (density params) (accel params)) (of_int 36) in
  let positive := fgt (fsub (v3 v) aw1) f0 && fgt (fsub (v6 v) aw2) f0
                  && fgt (fsub (v7 v) aw2) f0 in
  (rd 0 (obstacles g) i = 0 ->
     (positive = true ->
        v' = {| v0 := v0 v;
                v1 := fadd (v1 v) aw1; v2 := v2 v; v3 := fsub (v3 v) aw1;
                v4 := v4 v; v5 := fadd (v5 v) aw2; v6 := fsub (v6 v) aw2;
                v7 := fsub (v7 v) aw2; v8 := fadd (v8 v) aw2 |})
     /\ (positive = false -> v' = v))
  /\ (rd 0 (obstacles g) i <> 0 -> v' = v).
Proof.
  intros Hwf Hny Hii. simpl.
  destruct (accelerate_flow_spec params g Hwf Hny) as (_ & _ & _ & _ & _ & _ & Hv).
  rewrite Hv. clear Hv.
  assert (Hrow : in_row params (ny params - 2) (ii + (ny params - 2) * nx params) = true).
  { unfold in_row. apply andb_true_iff. rewrite Z.leb_le, Z.ltb_lt. lia. }
  rewrite Hrow. simpl. unfold accel_guard, accel_w1, accel_w2.
  split.
  - intros ->. simpl. split; intros ->; reflexivity.
  - intros Hb. apply Z.eqb_neq in Hb. rewrite Hb. reflexivity.
Qed.

(** C9.  [accelerate_flow] leaves the obstacle map and the scratch grid
    alone, leaves the arrays of speeds 0, 2 and 4 alone, keeps the length
    of every array, and leaves all nine values unchanged at every index
    that is outside row [ny-2] or whose cell fails the guard. *)
Theorem C9_accelerate_frame params g :
  wf params g -> 2 <= ny params ->
  let g' := accelerate_flow params g in
  obstacles g' = obstacles g /\
  tmp_cells g' = tmp_cells g /\
  s0 (cells g') = s0 (cells g) /\
  s2 (cells g') = s2 (cells g) /\
  s4 (cells g') = s4 (cells g) /\
  (forall d, length (arr d (cells g')) = length (arr d (cells g))) /\
  (forall i,
     in_row params (ny params - 2) i = false \/
     accel_guard (accel_w1 params) (accel_w2 params)
       (rd 0 (obstacles g) i) (cell_at (cells g) i) = false ->
     forall d, rdf (arr d (cells g')) i = rdf (arr d (cells g)) i).
Proof.
  intros Hwf Hny. simpl.
  destruct (accelerate_flow_spec params g Hwf Hny) as (Ho & Ht & H0 & H2 & H4 & Hs & Hv).
  repeat split; trivial.
  - intros d. rewrite (Hs d). destruct Hwf as (_ & _ & _ & Hc & _). now rewrite (Hc d).
  - intros i Hi d. rewrite <- !sp_cell_at, Hv.
    destruct Hi as [-> | ->]; [reflexivity | now rewrite andb_false_r].
Qed.

(** ** Claims about streaming *)

Lemma idx_x_e_mod params ii :
  0 <= ii < nx params -> idx_x_e params ii = (ii + 1) mod nx params.
Proof. intros Hi. unfold idx_x_e. apply Z.rem_mod_nonneg; lia. Qed.

Lemma idx_y_n_mod params jj :
  0 <= jj < ny params -> idx_y_n params jj = (jj + 1) mod ny params.
Proof. intros Hj. unfold idx_y_n. apply Z.rem_mod_nonneg; lia. Qed.

Lemma idx_x_w_mod params ii :
  0 <= ii < nx params -> idx_x_w params ii = (ii - 1) mod nx params.
Proof.
  intros Hi. unfold idx_x_w. destruct (Z.eqb_spec ii 0) as [->|Hne].
  - apply (Z.mod_unique _ _ (-1)); lia.
  - symmetry. apply Z.mod_small. lia.
Qed.

Lemma idx_y_s_mod params jj :
  0 <= jj < ny params -> idx_y_s params jj = (jj - 1) mod ny params.
Proof.
  intros Hj. unfold idx_y_s. destruct (Z.eqb_spec jj 0) as [->|Hne].
  - apply (Z.mod_unique _ _ (-1)); lia.
  - symmetry. apply Z.mod_small. lia.
Qed.

Lemma propagate_neighbour params c jj ii d :
  0 <= jj < ny params -> 0 <= ii < nx params ->
  sp d (propagate params c jj ii)
  = rdf (arr d c) (cell_ix params (neighbour params d (jj, ii))).
Proof.
  intros Hj Hi.
  pose proof (idx_x_e_mod params ii Hi) as Hxe.
  pose proof (idx_x_w_mod params ii Hi) as Hxw.
  pose proof (idx_y_n_mod params jj Hj) as Hyn.
  pose proof (idx_y_s_mod params jj Hj) as Hys.
  assert (Hi0 : (ii - 0) mod nx params = ii) by (rewrite Z.sub_0_r; apply Z.mod_small; lia).
  assert (Hj0 : (jj - 0) mod ny params = jj) by (rewrite Z.sub_0_r; apply Z.mod_small; lia).
  unfold propagate, neighbour, cell_ix. cbn [fst snd].
  destruct d; simpl off_x; simpl off_y; simpl sp; simpl arr;
    rewrite ?Z.sub_opp_r, ?Hi0, ?Hj0, ?Hxe, ?Hxw, ?Hyn, ?Hys; reflexivity.
Qed.

(** Every index the loop nest of [timestep] reads or writes lies inside the
    arrays of a well-formed grid. *)
Lemma neighbour_in_grid params d jj ii :
  0 < nx params -> 0 < ny params ->
  0 <= cell_ix params (neighbour params d (jj, ii)) < nx params * ny params.
Proof.
  intros Hnx Hny. unfold cell_ix, neighbour. cbn [fst snd].
  pose proof (Z.mod_pos_bound (jj - off_y d) (ny params) Hny).
  pose proof (Z.mod_pos_bound (ii - off_x d) (nx params) Hnx).
  apply cell_index_bound; assumption.
Qed.

(** A blocked cell adds nothing to the reduction of [timestep]. *)
Lemma timestep_cell_blocked_reduction params c (obst : list Z) jj st ii :
  rd 0 obst (ii + jj * nx params) <> 0 ->
  tot_cells (timestep_cell params c obst jj st ii) = tot_cells st /\
  tot_u (timestep_cell params c obst jj st ii) = tot_u st.
Proof.
  intros Hb. unfold timestep_cell. rewrite (Z.add_comm (jj * nx params) ii).
  apply Z.eqb_neq in Hb. rewrite Hb. split; reflexivity.
Qed.

(** C5.  The value streamed into cell [(ii, jj)] for speed [d] is read from
    the array of speed [d] at the cell found by subtracting the unit offset
    of [d], each coordinate wrapped modulo [nx] and [ny].  In particular the
    east value of a cell in column 0 comes from column [nx-1] of the same
    row, the west value of a cell in column [nx-1] from column 0, the north
    value of a cell in row 0 from row [ny-1], and the south value of a cell
    in row [ny-1] from row 0. *)
Theorem C5_periodic_streaming params c jj ii :
  0 <= jj < ny params -> 0 <= ii < nx params ->
  (forall d,
     sp d (propagate params c jj ii)
     = rdf (arr d c) ((ii - off_x d) mod nx params
                      + ((jj - off_y d) mod ny params) * nx params)) /\
  (ii = 0 ->
     v1 (propagate params c jj ii) = rdf (s1 c) (nx params - 1 + jj * nx params)) /\
  (ii = nx params - 1 ->
     v3 (propagate params c jj ii) = rdf (s3 c) (0 + jj * nx params)) /\
  (jj = 0 ->
     v2 (propagate params c jj ii) = rdf (s2 c) (ii + (ny params - 1) * nx params)) /\
  (jj = ny params - 1 ->
     v4 (propagate params c jj ii) = rdf (s4 c) (ii + 0 * nx params)).
Proof.
  intros Hj Hi. repeat split.
  - intros d. apply (propagate_neighbour params c jj ii d Hj Hi).
  - intros ->. reflexivity.
  - intros ->. unfold propagate. simpl. rewrite (idx_x_e_mod params _ Hi).
    replace (nx params - 1 + 1) with (nx params) by lia.
    now rewrite Z_mod_same_full.
  - intros ->. reflexivity.
  - intros ->. unfold propagate. simpl. rewrite (idx_y_n_mod params _ Hj).
    replace (ny params - 1 + 1) with (ny params) by lia.
    now rewrite Z_mod_same_full.
Qed.

End KernelFacts.

(** * Facts about binary32 arithmetic *)

Section Binary32Facts.

Implicit Types (x y a b s n : spec_float).

Lemma b32_mul_comm x y : fmul x y = fmul y x.
Proof.
  destruct x as [sx|sx| |sx mx ex], y as [sy|sy| |sy my ey]; simpl;
    rewrite ?(xorb_comm sx sy); try reflexivity.
  now rewrite Pos.mul_comm, Z.add_comm.
Qed.

Lemma b32_add_neg x y : fadd x (fneg y) = fsub x y.
Proof.
  destruct x as [sx|sx| |sx mx ex], y as [sy|sy| |sy my ey]; simpl; try reflexivity.
  - destruct sx, sy; reflexivity.
  - destruct sx, sy; reflexivity.
  - f_equal. destruct sy; simpl; lia.
Qed.

(** Rounding keeps the sign it is given, or yields a NaN. *)
Lemma sign_round_aux sx mx ex lx :
  is_negative (binary_round_aux f32_prec f32_emax sx mx ex lx) = false \/
  is_negative (binary_round_aux f32_prec f32_emax sx mx ex lx) = sx.
Proof.
  unfold binary_round_aux.
  destruct (shr_fexp f32_prec f32_emax mx ex lx) as [mrs' e'].
  destruct (shr_fexp f32_prec f32_emax _ e' loc_Exact) as [mrs'' e''].
  destruct (shr_m mrs''); simpl; auto.
  destruct (_ <=? _); simpl; auto.
Qed.

Lemma sign_round_aux_pos mx ex lx :
  is_negative (binary_round_aux f32_prec f32_emax false mx ex lx) = false.
Proof. destruct (sign_round_aux false mx ex lx); assumption. Qed.

Lemma sign_round_pos mx ex :
  is_negative (binary_round f32_prec f32_emax false mx ex) = false.
Proof. unfold binary_round. destruct (shl_align _ _ _). apply sign_round_aux_pos. Qed.

Lemma sign_mul_self x : is_negative (fmul x x) = false.
Proof.
  destruct x as [s|s| |s m e]; simpl; rewrite ?xorb_nilpotent; try reflexivity.
  apply sign_round_aux_pos.
Qed.

Lemma sign_add x y :
  is_negative x = false -> is_negative y = false -> is_negative (fadd x y) = false.
Proof.
  destruct x as [sx|sx| |sx mx ex], y as [sy|sy| |sy my ey]; simpl;
    intros Hx Hy; subst; try reflexivity.
  unfold binary_normalize. simpl. apply sign_round_pos.
Qed.

Lemma sign_sqrt x : is_negative x = false -> is_negative (fsqrt x) = false.
Proof.
  destruct x as [s|s| |s m e]; simpl; intros Hx; subst; try reflexivity.
  destruct (SFsqrt_core_binary _ _ _ _) as [[mz ez] lz]. apply sign_round_aux_pos.
Qed.

Lemma sign_div x y :
  is_negative x = false -> is_negative y = false -> is_negative (fdiv x y) = false.
Proof.
  destruct x as [sx|sx| |sx mx ex], y as [sy|sy| |sy my ey]; simpl;
    intros Hx Hy; subst; try reflexivity.
  destruct (SFdiv_core_binary _ _ _ _ _ _) as [[mz ez] lz]. apply sign_round_aux_pos.
Qed.

Lemma sign_of_int (k : Z) : 0 <= k -> is_negative (of_int k) = false.
Proof.
  destruct k; intros Hk; simpl; try reflexivity; [apply sign_round_pos | lia].
Qed.

Lemma sign_not_below_zero x : is_negative x = false -> fgt f0 x = false.
Proof. destruct x as [s|s| |s m e]; simpl; intros Hs; subst; reflexivity. Qed.

Lemma sign_vel_sq (prop : t_speed spec_float) : is_negative (vel_sq prop) = false.
Proof. unfold vel_sq. apply sign_add; apply sign_mul_self. Qed.

(** Adding to [+0] changes nothing but the sign of a zero. *)
Lemma zero_add x : eq_or_zeros (fadd f0 x) x.
Proof. destruct x as [[]|[]| |[] m e]; simpl; unfold eq_or_zeros; auto. Qed.

Lemma eq_or_zeros_add a b s : eq_or_zeros a b -> eq_or_zeros (fadd a s) (fadd b s).
Proof.
  intros [->|[-> ->]]; [left; reflexivity|].
  destruct s as [[]|[]| |[] m e]; simpl; unfold eq_or_zeros; auto.
Qed.

(** The sign of a zero divisor does not show in the square of a quotient. *)
Lemma eq_or_zeros_div_sq a b n :
  eq_or_zeros a b ->
  fmul (fdiv n a) (fdiv n a) = fmul (fdiv n b) (fdiv n b).
Proof.
  intros [->|[-> ->]]; [reflexivity|].
  destruct n as [[]|[]| |[] m e]; reflexivity.
Qed.

Lemma av_cell_speed_vel_sq (c : t_speeds spec_float) (i : Z) :
  av_cell_speed c i = fsqrt (vel_sq (cell_at c i)).
Proof.
  unfold av_cell_speed, vel_sq, vel_x, vel_y, local_density. cbn [cell_at v0 v1 v2 v3 v4 v5 v6 v7 v8].
  assert (Hrho : eq_or_zeros
    (fadd (fadd (fadd (fadd (fadd (fadd (fadd (fadd (fadd f0
       (rdf (s0 c) i)) (rdf (s1 c) i)) (rdf (s2 c) i)) (rdf (s3 c) i))
       (rdf (s4 c) i)) (rdf (s5 c) i)) (rdf (s6 c) i)) (rdf (s7 c) i)) (rdf (s8 c) i))
    (fadd (fadd (fadd (fadd (fadd (fadd (fadd (fadd
       (rdf (s0 c) i) (rdf (s1 c) i)) (rdf (s2 c) i)) (rdf (s3 c) i))
       (rdf (s4 c) i)) (rdf (s5 c) i)) (rdf (s6 c) i)) (rdf (s7 c) i)) (rdf (s8 c) i))).
  { repeat apply eq_or_zeros_add. apply zero_add. }
  rewrite (eq_or_zeros_div_sq _ _ _ Hrho).
  rewrite (eq_or_zeros_div_sq _ _
             (fsub (fadd (fadd (rdf (s2 c) i) (rdf (s5 c) i)) (rdf (s6 c) i))
                   (fadd (fadd (rdf (s4 c) i) (rdf (s7 c) i)) (rdf (s8 c) i))) Hrho).
  reflexivity.
Qed.

End Binary32Facts.

(** * Rounding in binary32: exponents, finiteness, validity *)

Section Binary32Rounding.

Implicit Types (m e d k : Z) (p : positive) (l : location) (x y : spec_float).

(** ** Number of binary digits *)

Lemma digits2_pos_bounds p :
  2 ^ (Zpos (digits2_pos p) - 1) <= Zpos p < 2 ^ Zpos (digits2_pos p).
Proof.
  induction p as [p IH|p IH|]; cbn [digits2_pos].
  - rewrite Pos2Z.inj_succ. change (Zpos p~1) with (2 * Zpos p + 1).
    replace (Z.succ (Zpos (digits2_pos p)) - 1) with (Z.succ (Zpos (digits2_pos p) - 1)) by lia.
    rewrite !Z.pow_succ_r by lia.
    revert IH. generalize (2 ^ (Zpos (digits2_pos p) - 1)) (2 ^ Zpos (digits2_pos p)). lia.
  - rewrite Pos2Z.inj_succ. change (Zpos p~0) with (2 * Zpos p).
    replace (Z.succ (Zpos (digits2_pos p)) - 1) with (Z.succ (Zpos (digits2_pos p) - 1)) by lia.
    rewrite !Z.pow_succ_r by lia.
    revert IH. generalize (2 ^ (Zpos (digits2_pos p) - 1)) (2 ^ Zpos (digits2_pos p)). lia.
  - cbn. lia.
Qed.

Lemma Zdigits2_nonneg m : 0 <= Zdigits2 m.
Proof. destruct m; cbn; lia. Qed.

Lemma Zdigits2_pos m : 0 < m -> 0 < Zdigits2 m.
Proof. destruct m; cbn; lia. Qed.

Lemma Zdigits2_bounds m : 0 < m -> 2 ^ (Zdigits2 m - 1) <= m < 2 ^ Zdigits2 m.
Proof. destruct m as [|p|p]; try lia. intros _. apply digits2_pos_bounds. Qed.

Lemma Zdigits2_le_of_lt m d : 0 <= m -> 0 <= d -> m < 2 ^ d -> Zdigits2 m <= d.
Proof.
  intros Hm Hd Hlt. destruct (Z.eq_dec m 0) as [->|Hne]; [cbn; lia|].
  destruct (Zdigits2_bounds m ltac:(lia)) as [Hlo _].
  destruct (Z_le_gt_dec (Zdigits2 m) d) as [|Hgt]; [assumption|].
  pose proof (Z.pow_le_mono_r 2 d (Zdigits2 m - 1) ltac:(lia) ltac:(lia)). lia.
Qed.

Lemma Zdigits2_gt_of_le m d : 0 <= d -> 2 ^ d <= m -> d < Zdigits2 m.
Proof.
  intros Hd Hle.
  pose proof (Z.pow_pos_nonneg 2 d ltac:(lia) Hd) as Hpos.
  destruct (Zdigits2_bounds m ltac:(lia)) as [_ Hhi].
  destruct (Z_lt_le_dec d (Zdigits2 m)) as [|Hge]; [assumption|].
  pose proof (Z.pow_le_mono_r 2 (Zdigits2 m) d ltac:(lia) Hge). lia.
Qed.

Lemma Zdigits2_mul_pow2 m k : 0 < m -> 0 <= k -> Zdigits2 (m * 2 ^ k) = Zdigits2 m + k.
Proof.
  intros Hm Hk.
  destruct (Zdigits2_bounds m Hm) as [Hlo Hhi].
  pose proof (Zdigits2_pos m Hm) as Hd.
  pose proof (Z.pow_pos_nonneg 2 k ltac:(lia) Hk) as Hpk.
  apply Z.le_antisymm.
  - apply Zdigits2_le_of_lt; [nia | lia |].
    rewrite Z.pow_add_r by lia. nia.
  - assert (Zdigits2 m + k - 1 < Zdigits2 (m * 2 ^ k)); [|lia].
    apply Zdigits2_gt_of_le; [lia|].
    replace (Zdigits2 m + k - 1) with (Zdigits2 m - 1 + k) by lia.
    rewrite Z.pow_add_r by lia. nia.
Qed.

(** ** Shifting a mantissa to the right *)

Lemma shr_1_m (mrs : shr_record) :
  0 <= shr_m mrs -> shr_m (shr_1 mrs) = shr_m mrs / 2.
Proof.
  destruct mrs as [m r s]. cbn [shr_m]. intros Hm.
  destruct m as [|[p|p|]|p]; cbn [shr_1 shr_m]; try lia.
  - reflexivity.
  - change (Zpos p~1) with (2 * Zpos p + 1). apply Z.div_unique with 1; lia.
  - change (Zpos p~0) with (2 * Zpos p). apply Z.div_unique with 0; lia.
  - reflexivity.
Qed.

Lemma div_pow2_nonneg m k : 0 <= m -> 0 <= k -> 0 <= m / 2 ^ k.
Proof. intros Hm Hk. apply Z.div_pos; [exact Hm|]. apply Z.pow_pos_nonneg; lia. Qed.

Lemma iter_shr_m p (mrs : shr_record) :
  0 <= shr_m mrs ->
  shr_m (SpecFloat.iter_pos shr_1 p mrs) = shr_m mrs / 2 ^ Zpos p.
Proof.
  revert mrs. induction p as [p IH|p IH|]; intros mrs Hm; cbn [SpecFloat.iter_pos].
  - assert (H1 : 0 <= shr_m (shr_1 mrs)).
    { rewrite shr_1_m by exact Hm. apply Z.div_pos; lia. }
    assert (H2 : 0 <= shr_m (SpecFloat.iter_pos shr_1 p (shr_1 mrs))).
    { rewrite IH by exact H1. apply div_pow2_nonneg; lia. }
    rewrite (IH _ H2), (IH _ H1), shr_1_m by exact Hm.
    change (Zpos p~1) with (2 * Zpos p + 1).
    replace (2 * Zpos p + 1) with (1 + Zpos p + Zpos p) by lia.
    rewrite !Z.pow_add_r, Z.pow_1_r by lia.
    rewrite !Z.div_div
      by first [apply Z.pow_pos_nonneg; lia | apply Z.pow_nonzero; lia | lia].
    f_equal. ring.
  - assert (H1 : 0 <= shr_m (SpecFloat.iter_pos shr_1 p mrs)).
    { rewrite IH by exact Hm. apply div_pow2_nonneg; lia. }
    rewrite (IH _ H1), (IH _ Hm).
    change (Zpos p~0) with (2 * Zpos p).
    replace (2 * Zpos p) with (Zpos p + Zpos p) by lia.
    rewrite !Z.pow_add_r by lia.
    rewrite !Z.div_div
      by first [apply Z.pow_pos_nonneg; lia | apply Z.pow_nonzero; lia | lia].
    reflexivity.
  - rewrite shr_1_m by assumption. reflexivity.
Qed.

Lemma shr_m_e (mrs : shr_record) e k :
  0 <= shr_m mrs ->
  shr_m (fst (shr mrs e k)) = shr_m mrs / 2 ^ Z.max 0 k /\
  snd (shr mrs e k) = e + Z.max 0 k.
Proof.
  intros Hm. destruct k as [|p|p]; cbn [shr fst snd].
  - cbn. rewrite Z.div_1_r. lia.
  - rewrite iter_shr_m by assumption. rewrite Z.max_r by lia. tauto.
  - rewrite Z.max_l by lia. cbn. rewrite Z.div_1_r. lia.
Qed.

Lemma shr_record_of_loc_m m l : shr_m (shr_record_of_loc m l) = m.
Proof. destruct l as [|[]]; reflexivity. Qed.

Lemma shr_fexp_m_e m e l :
  0 <= m ->
  let k := Z.max 0 (fexp f32_prec f32_emax (Zdigits2 m + e) - e) in
  shr_m (fst (shr_fexp f32_prec f32_emax m e l)) = m / 2 ^ k /\
  snd (shr_fexp f32_prec f32_emax m e l) = e + k.
Proof.
  intros Hm. cbn zeta. unfold shr_fexp.
  pose proof (shr_m_e (shr_record_of_loc m l) e
                (fexp f32_prec f32_emax (Zdigits2 m + e) - e)) as Hs.
  rewrite shr_record_of_loc_m in Hs. apply Hs, Hm.
Qed.

Lemma round_nearest_even_range m l :
  m <= round_nearest_even m l <= m + 1.
Proof.
  destruct l as [|[]]; cbn [round_nearest_even]; try lia.
  destruct (Z.even m); lia.
Qed.

Lemma fexp_eq e : fexp f32_prec f32_emax e = Z.max (e - 24) (-149).
Proof. reflexivity. Qed.

Lemma div_pow2_lt m k c :
  0 <= m -> 0 <= k -> 0 <= c -> Zdigits2 m <= k + c -> m / 2 ^ k < 2 ^ c.
Proof.
  intros Hm Hk Hc Hd.
  pose proof (Z.pow_pos_nonneg 2 k ltac:(lia) Hk) as Hpk.
  apply Z.div_lt_upper_bound; [exact Hpk|].
  rewrite <- Z.pow_add_r by lia.
  destruct (Z.eq_dec m 0) as [->|Hne]; [apply Z.pow_pos_nonneg; lia|].
  destruct (Zdigits2_bounds m ltac:(lia)) as [_ Hhi].
  pose proof (Z.pow_le_mono_r 2 (Zdigits2 m) (k + c) ltac:(lia) Hd). lia.
Qed.

Lemma div_pow2_ge m k c :
  0 < m -> 0 <= k -> 0 <= c -> k + c < Zdigits2 m -> 2 ^ c <= m / 2 ^ k.
Proof.
  intros Hm Hk Hc Hd.
  pose proof (Z.pow_pos_nonneg 2 k ltac:(lia) Hk) as Hpk.
  apply Z.div_le_lower_bound; [exact Hpk|].
  rewrite <- Z.pow_add_r by lia.
  destruct (Zdigits2_bounds m Hm) as [Hlo _].
  pose proof (Z.pow_le_mono_r 2 (k + c) (Zdigits2 m - 1) ltac:(lia) ltac:(lia)). lia.
Qed.

(** What [binary_round_aux] returns for a mantissa that is not negative
    and carries at least the bits the format keeps: the exponent of the
    result, that the result is in canonical form, and that rounding a
    normal number does not make it smaller than its binade. *)
Lemma binary_round_aux_spec sx m e l :
  0 <= m -> e <= fexp f32_prec f32_emax (Zdigits2 m + e) ->
  exists m2 e2,
    binary_round_aux f32_prec f32_emax sx m e l
    = match m2 with
      | Z0 => S754_zero sx
      | Zpos q => if e2 <=? 104 then S754_finite sx q e2 else S754_infinity sx
      | Zneg _ => S754_nan
      end /\
    0 <= m2 /\
    e2 <= fexp f32_prec f32_emax (Zdigits2 m + e) + 1 /\
    (0 < m -> m2 = 0 \/ fexp f32_prec f32_emax (Zdigits2 m2 + e2) = e2) /\
    (0 < m -> -125 <= Zdigits2 m + e -> 0 < m2 /\ Zdigits2 m + e <= Zdigits2 m2 + e2).
Proof.
  intros Hm He. unfold binary_round_aux.
  destruct (shr_fexp_m_e m e l Hm) as [Hm1 He1].
  destruct (shr_fexp f32_prec f32_emax m e l) as [mrs1 e1]. cbn [fst snd] in Hm1, He1.
  set (r := round_nearest_even (shr_m mrs1) (loc_of_shr_record mrs1)).
  pose proof (round_nearest_even_range (shr_m mrs1) (loc_of_shr_record mrs1)) as Hr.
  fold r in Hr.
  set (D := Zdigits2 m + e) in *.
  rewrite !fexp_eq in He; rewrite !fexp_eq in He1; rewrite !fexp_eq in Hm1; rewrite !fexp_eq.
  pose proof (Zdigits2_nonneg m) as Hdm.
  assert (Hk1 : Z.max 0 (Z.max (D - 24) (-149) - e) = Z.max (D - 24) (-149) - e) by lia.
  rewrite Hk1 in Hm1, He1.
  assert (Hm1lt : shr_m mrs1 < 2 ^ 24).
  { rewrite Hm1. apply div_pow2_lt; lia. }
  assert (Hm1nn : 0 <= shr_m mrs1).
  { rewrite Hm1. apply div_pow2_nonneg; lia. }
  assert (Hm1ge : 0 < m -> -125 <= D -> 2 ^ 23 <= shr_m mrs1).
  { intros Hpos HD. rewrite Hm1. apply div_pow2_ge; lia. }
  change (2 ^ 24) with 16777216 in Hm1lt. change (2 ^ 23) with 8388608 in Hm1ge.
  assert (Hr0 : 0 <= r) by lia.
  assert (Hdr : Zdigits2 r <= 25).
  { apply Zdigits2_le_of_lt; [lia | lia |]. change (2 ^ 25) with 33554432. lia. }
  pose proof (Zdigits2_nonneg r) as Hdr0.
  destruct (shr_fexp_m_e r e1 loc_Exact Hr0) as [Hm2 He2].
  destruct (shr_fexp f32_prec f32_emax r e1 loc_Exact) as [mrs2 e2].
  cbn [fst snd] in Hm2, He2. rewrite !fexp_eq in Hm2; rewrite !fexp_eq in He2.
  exists (shr_m mrs2), e2.
  split; [reflexivity|].
  assert (Hk2 : Z.max 0 (Z.max (Zdigits2 r + e1 - 24) (-149) - e1) = 0 \/
                (Z.max 0 (Z.max (Zdigits2 r + e1 - 24) (-149) - e1) = 1 /\ Zdigits2 r = 25))
    by lia.
  assert (Hdr24 : 0 < m -> -125 <= D -> 24 <= Zdigits2 r).
  { intros Hpos HD. specialize (Hm1ge Hpos HD).
    assert (23 < Zdigits2 r); [|lia].
    apply Zdigits2_gt_of_le; [lia|]. change (2 ^ 23) with 8388608. lia. }
  destruct Hk2 as [Hk2|[Hk2 Hd25]]; rewrite Hk2 in Hm2, He2.
  - (* the rounded mantissa still fits *)
    change (2 ^ 0) with 1 in Hm2. rewrite Z.div_1_r in Hm2. rewrite Hm2.
    split; [exact Hr0|]. split; [lia|]. split.
    + intros Hpos. right. rewrite fexp_eq.
      destruct (Z_le_gt_dec (D - 24) (-149)) as [Hsub|Hnorm]; [lia|].
      specialize (Hdr24 Hpos ltac:(lia)). lia.
    + intros Hpos HD. specialize (Hdr24 Hpos HD).
      split; [|lia].
      destruct (Z.eq_dec r 0) as [Hz|Hz]; [|lia]. rewrite Hz in Hdr24. cbn in Hdr24. lia.
  - (* the rounded mantissa is [2^prec] and is shifted once more *)
    change (2 ^ 1) with 2 in Hm2.
    assert (Hr24 : 16777216 <= r).
    { destruct (Z_le_gt_dec 16777216 r) as [|Hlt]; [assumption|].
      assert (Zdigits2 r <= 24); [|lia].
      apply Zdigits2_le_of_lt; [lia | lia |]. change (2 ^ 24) with 16777216. lia. }
    assert (Hm2v : shr_m mrs2 = 8388608).
    { rewrite Hm2. replace r with 16777216 by lia. reflexivity. }
    rewrite Hm2v. change (Zdigits2 8388608) with 24.
    split; [lia|]. split; [lia|]. split.
    + intros _. right. rewrite fexp_eq. lia.
    + intros Hpos HD. lia.
Qed.

Lemma binary_round_aux_finite sx m e l :
  0 <= m -> e <= fexp f32_prec f32_emax (Zdigits2 m + e) -> Zdigits2 m + e <= 127 ->
  is_finite (binary_round_aux f32_prec f32_emax sx m e l) = true.
Proof.
  intros Hm He HD.
  destruct (binary_round_aux_spec sx m e l Hm He) as (m2 & e2 & -> & Hm2 & He2 & _).
  rewrite fexp_eq in He2.
  destruct m2 as [|q|q]; [reflexivity| |lia].
  replace (e2 <=? 104) with true by (symmetry; apply Z.leb_le; lia). reflexivity.
Qed.

Lemma binary_round_aux_valid sx m e l :
  0 < m -> e <= fexp f32_prec f32_emax (Zdigits2 m + e) ->
  valid_binary f32_prec f32_emax (binary_round_aux f32_prec f32_emax sx m e l) = true.
Proof.
  intros Hm He.
  destruct (binary_round_aux_spec sx m e l ltac:(lia) He) as (m2 & e2 & -> & Hm2 & _ & Hc & _).
  destruct m2 as [|q|q]; [reflexivity| |lia].
  destruct (Z.leb_spec e2 104) as [Hle|Hgt]; [|reflexivity].
  destruct (Hc Hm) as [Hz|Hcan]; [discriminate Hz|].
  cbn [valid_binary]. unfold bounded, canonical_mantissa.
  change (Zpos (digits2_pos q)) with (Zdigits2 (Zpos q)).
  rewrite Hcan, Z.eqb_refl. apply Z.leb_le. exact Hle.
Qed.

(** Rounding a number of the normal range yields an infinity or a number
    that is not below the binade of the input. *)
Lemma binary_round_aux_lower sx m e l :
  0 < m -> e <= fexp f32_prec f32_emax (Zdigits2 m + e) -> -125 <= Zdigits2 m + e ->
  match binary_round_aux f32_prec f32_emax sx m e l with
  | S754_finite s q e' => s = sx /\ Zdigits2 m + e <= Zpos (digits2_pos q) + e'
  | S754_infinity s => s = sx
  | _ => False
  end.
Proof.
  intros Hm He HD.
  destruct (binary_round_aux_spec sx m e l ltac:(lia) He) as (m2 & e2 & -> & _ & _ & _ & Hl).
  destruct (Hl Hm HD) as [Hpos Hge].
  destruct m2 as [|q|q]; try lia.
  destruct (e2 <=? 104); [split; [reflexivity | exact Hge] | reflexivity].
Qed.

(** ** binary_round and the conversion of integers *)

Lemma iter_xO_pow2 p (n : positive) : Zpos (Pos.iter xO p n) = Zpos p * 2 ^ Zpos n.
Proof.
  rewrite (Pos.iter_swap_gen _ _ Zpos xO (Z.mul 2)) by reflexivity.
  change (Pos.iter (Z.mul 2) (Zpos p) n) with (Z.shiftl (Zpos p) (Zpos n)).
  apply Z.shiftl_mul_pow2. lia.
Qed.

Lemma shl_align_spec p e e' :
  snd (shl_align p e e') = Z.min e e' /\
  Zdigits2 (Zpos (fst (shl_align p e e'))) + snd (shl_align p e e') = Zdigits2 (Zpos p) + e.
Proof.
  unfold shl_align. destruct (e' - e) as [|n|n] eqn:Hd; cbn [fst snd]; try lia.
  rewrite iter_xO_pow2, Zdigits2_mul_pow2 by lia. lia.
Qed.

Lemma binary_round_eq sx p e :
  exists mz ez,
    binary_round f32_prec f32_emax sx p e
    = binary_round_aux f32_prec f32_emax sx (Zpos mz) ez loc_Exact /\
    ez <= fexp f32_prec f32_emax (Zdigits2 (Zpos mz) + ez) /\
    Zdigits2 (Zpos mz) + ez = Zdigits2 (Zpos p) + e.
Proof.
  unfold binary_round.
  change (Zpos (digits2_pos p)) with (Zdigits2 (Zpos p)).
  destruct (shl_align_spec p e (fexp f32_prec f32_emax (Zdigits2 (Zpos p) + e))) as [He HD].
  destruct (shl_align p e _) as [mz ez]. cbn [fst snd] in He, HD.
  exists mz, ez. split; [reflexivity|]. split; [|exact HD].
  rewrite HD. lia.
Qed.

Lemma binary_round_valid sx p e :
  valid_binary f32_prec f32_emax (binary_round f32_prec f32_emax sx p e) = true.
Proof.
  destruct (binary_round_eq sx p e) as (mz & ez & -> & He & _).
  apply binary_round_aux_valid; [lia | exact He].
Qed.

Lemma binary_normalize_valid m e (s : bool) :
  valid_binary f32_prec f32_emax (binary_normalize f32_prec f32_emax m e s) = true.
Proof. destruct m; [reflexivity | apply binary_round_valid ..]. Qed.

(** [(float) n] for [n >= 1] is [+infinity] or a positive number with at
    least as many binary digits before the point as [n]. *)
Lemma of_int_lower (n : Z) :
  1 <= n ->
  match of_int n with
  | S754_finite s q e => s = false /\ Zdigits2 n <= Zpos (digits2_pos q) + e
  | S754_infinity s => s = false
  | _ => False
  end.
Proof.
  intros Hn. destruct n as [|p|p]; try lia.
  change (of_int (Zpos p)) with (binary_round f32_prec f32_emax false p 0).
  destruct (binary_round_eq false p 0) as (mz & ez & -> & He & HD).
  pose proof (binary_round_aux_lower false (Zpos mz) ez loc_Exact ltac:(lia) He) as Hl.
  pose proof (Zdigits2_pos (Zpos p) ltac:(lia)) as Hd.
  rewrite HD in Hl. specialize (Hl ltac:(lia)).
  destruct (binary_round_aux _ _ _ _ _ _); exact Hl.
Qed.

(** ** Division *)

Lemma div_eucl_fst (a b : Z) : fst (Z.div_eucl a b) = a / b.
Proof. reflexivity. Qed.

(** The quotient mantissa and exponent that [SFdiv] hands to the rounding
    step: enough bits are kept, and the quotient lies at most one binade
    above the difference of the binades of the operands. *)
Lemma SFdiv_core_spec (mx my : positive) ex ey :
  let c := SFdiv_core_binary f32_prec f32_emax (Zpos mx) ex (Zpos my) ey in
  let q := fst (fst c) in
  let e' := snd (fst c) in
  let delta := Zdigits2 (Zpos mx) + ex - (Zdigits2 (Zpos my) + ey) in
  0 <= q /\
  e' <= fexp f32_prec f32_emax (Zdigits2 q + e') /\
  Zdigits2 q + e' <= Z.max (delta + 1) (-149).
Proof.
  cbn zeta. unfold SFdiv_core_binary.
  set (d1 := Zdigits2 (Zpos mx)). set (d2 := Zdigits2 (Zpos my)).
  set (delta := d1 + ex - (d2 + ey)).
  set (e' := Z.min (fexp f32_prec f32_emax delta) (ex - ey)).
  set (s := ex - ey - e').
  assert (Hs : 0 <= s) by (unfold s, e'; lia).
  set (m' := match s with Z.pos _ => Z.shiftl (Zpos mx) s | 0 => Zpos mx | Z.neg _ => 0 end).
  assert (Hm' : m' = Zpos mx * 2 ^ s).
  { unfold m'. destruct s as [|n|n]; [cbn; lia | apply Z.shiftl_mul_pow2; lia | lia]. }
  pose proof (div_eucl_fst m' (Zpos my)) as Hq.
  destruct (Z.div_eucl m' (Zpos my)) as [q r]. cbn [fst snd] in Hq |- *. subst q.
  destruct (Zdigits2_bounds (Zpos mx) ltac:(lia)) as [Hxlo Hxhi].
  destruct (Zdigits2_bounds (Zpos my) ltac:(lia)) as [Hylo Hyhi].
  fold d1 in Hxlo, Hxhi. fold d2 in Hylo, Hyhi.
  pose proof (Zdigits2_pos (Zpos mx) ltac:(lia)) as Hd1. fold d1 in Hd1.
  pose proof (Zdigits2_pos (Zpos my) ltac:(lia)) as Hd2. fold d2 in Hd2.
  pose proof (Z.pow_pos_nonneg 2 s ltac:(lia) Hs) as Hps.
  assert (Hm'lo : 2 ^ (d1 - 1 + s) <= m').
  { rewrite Hm', Z.pow_add_r by lia. nia. }
  assert (Hm'hi : m' < 2 ^ (d1 + s)).
  { rewrite Hm', Z.pow_add_r by lia. nia. }
  assert (Hq0 : 0 <= m' / Zpos my) by (apply Z.div_pos; lia).
  pose proof (Zdigits2_nonneg (m' / Zpos my)) as Hdq0.
  assert (Hup : Zdigits2 (m' / Zpos my) <= Z.max (d1 + s - d2 + 1) 0).
  { destruct (Z_le_gt_dec 0 (d1 + s - d2 + 1)) as [Hc|Hc].
    - rewrite Z.max_l by lia. apply Zdigits2_le_of_lt; [exact Hq0 | exact Hc |].
      apply Z.div_lt_upper_bound; [lia|].
      pose proof (Z.pow_pos_nonneg 2 (d1 + s - d2 + 1) ltac:(lia) Hc) as Hpc.
      assert (Heq : 2 ^ (d1 + s) = 2 ^ (d2 - 1) * 2 ^ (d1 + s - d2 + 1)).
      { rewrite <- Z.pow_add_r by lia. f_equal. lia. }
      nia.
    - rewrite Z.max_r by lia.
      pose proof (Z.pow_le_mono_r 2 (d1 + s) (d2 - 1) ltac:(lia) ltac:(lia)).
      rewrite Z.div_small by lia. cbn. lia. }
  assert (Hlow : d1 + s - d2 <= Zdigits2 (m' / Zpos my)).
  { destruct (Z_le_gt_dec (d1 + s - d2) 0) as [Hc|Hc]; [lia|].
    assert (d1 + s - d2 - 1 < Zdigits2 (m' / Zpos my)); [|lia].
    apply Zdigits2_gt_of_le; [lia|].
    apply Z.div_le_lower_bound; [lia|].
    pose proof (Z.pow_pos_nonneg 2 (d1 + s - d2 - 1) ltac:(lia) ltac:(lia)) as Hpc.
    assert (Heq : 2 ^ (d1 - 1 + s) = 2 ^ d2 * 2 ^ (d1 + s - d2 - 1)).
    { rewrite <- Z.pow_add_r by lia. f_equal. lia. }
    nia. }
  split; [exact Hq0|].
  unfold s, e' in Hup, Hlow |- *. clear Hm'lo Hm'hi Hm' Hps Hs.
  rewrite !fexp_eq in Hup; rewrite !fexp_eq in Hlow; rewrite !fexp_eq.
  clearbody m'. unfold delta in *. clearbody d1 d2. lia.
Qed.

Lemma SFdiv_finite sx (mx : positive) ex sy (my : positive) ey :
  Zdigits2 (Zpos mx) + ex - (Zdigits2 (Zpos my) + ey) <= 126 ->
  is_finite (SFdiv f32_prec f32_emax (S754_finite sx mx ex) (S754_finite sy my ey)) = true.
Proof.
  intros Hd. cbn [SFdiv].
  pose proof (SFdiv_core_spec mx my ex ey) as Hc. cbn zeta in Hc.
  destruct (SFdiv_core_binary f32_prec f32_emax (Zpos mx) ex (Zpos my) ey) as [[q e'] l].
  cbn [fst snd] in Hc. destruct Hc as (Hq & He & HD).
  apply binary_round_aux_finite; [exact Hq | exact He | lia].
Qed.

(** Dividing a normal number by one gives the number back. *)
Lemma SFdiv_one_normal sx (mx : positive) ex :
  Zpos (digits2_pos mx) = 24 -> -148 <= ex <= 104 ->
  SFdiv f32_prec f32_emax (S754_finite sx mx ex) (S754_finite false 8388608 (-23))
  = S754_finite sx mx ex.
Proof.
  intros Hd He. cbn [SFdiv]. unfold SFdiv_core_binary.
  change (Zdigits2 (Zpos mx)) with (Zpos (digits2_pos mx)). rewrite Hd.
  change (Zdigits2 8388608) with 24. rewrite fexp_eq.
  replace (Z.min (Z.max (24 + ex - (24 + -23) - 24) (-149)) (ex - -23)) with (ex - 1) by lia.
  replace (ex - -23 - (ex - 1)) with 24 by lia. cbv iota.
  assert (Hdiv : Z.div_eucl (Z.shiftl (Zpos mx) 24) 8388608 = (Zpos mx~0, 0)).
  { rewrite Z.shiftl_mul_pow2 by lia. change (2 ^ 24) with 16777216.
    pose proof (Z_div_mod (Zpos mx * 16777216) 8388608 eq_refl) as Hqr.
    destruct (Z.div_eucl (Zpos mx * 16777216) 8388608) as [q r].
    destruct Hqr as [Heq Hr]. change (Zpos mx~0) with (2 * Zpos mx).
    f_equal; lia. }
  rewrite Hdiv. change (new_location 8388608 0) with loc_Exact.
  unfold binary_round_aux, shr_fexp.
  change (Zdigits2 (Zpos mx~0)) with (Zpos (Pos.succ (digits2_pos mx))).
  rewrite Pos2Z.inj_succ, Hd, fexp_eq.
  replace (Z.max (Z.succ 24 + (ex - 1) - 24) (-149) - (ex - 1)) with 1 by lia.
  cbn [shr shr_record_of_loc SpecFloat.iter_pos shr_1 shr_m loc_of_shr_record
       round_nearest_even orb].
  change (Zdigits2 (Zpos mx)) with (Zpos (digits2_pos mx)). rewrite Hd, fexp_eq.
  replace (Z.max (24 + (ex - 1 + 1) - 24) (-149) - (ex - 1 + 1)) with 0 by lia.
  cbn [shr shr_m].
  replace (ex - 1 + 1) with ex by lia.
  replace (ex <=? f32_emax - f32_prec) with true
    by (symmetry; apply Z.leb_le; change (f32_emax - f32_prec) with 104; lia).
  rewrite xorb_false_r. reflexivity.
Qed.

(** A finite binary32 number divided by [(float) n], [n >= 1], is finite. *)
Lemma div_by_count_finite x (n : Z) :
  is_finite x = true -> valid_binary f32_prec f32_emax x = true -> 1 <= n ->
  is_finite (fdiv x (of_int n)) = true.
Proof.
  intros Hf Hv Hn.
  pose proof (of_int_lower n Hn) as Hy.
  destruct x as [sx|sx| |sx mx ex]; try discriminate Hf.
  - destruct (of_int n) as [sy|sy| |sy my ey]; try contradiction; reflexivity.
  - cbn [valid_binary] in Hv. unfold bounded, canonical_mantissa in Hv.
    apply andb_true_iff in Hv as [Hcan Hle].
    apply Z.eqb_eq in Hcan. apply Z.leb_le in Hle. rewrite fexp_eq in Hcan.
    change (f32_emax - f32_prec) with 104 in Hle.
    destruct (Z.eq_dec n 1) as [->|Hn1].
    + destruct (Z_le_gt_dec (Zpos (digits2_pos mx) + ex) 127) as [Hsmall|Hbig].
      * change (of_int 1) with (S754_finite false 8388608 (-23)).
        apply SFdiv_finite. change (Zdigits2 8388608) with 24.
        change (Zdigits2 (Zpos mx)) with (Zpos (digits2_pos mx)). lia.
      * change (of_int 1) with (S754_finite false 8388608 (-23)).
        change (fdiv (S754_finite sx mx ex) (S754_finite false 8388608 (-23)))
          with (SFdiv f32_prec f32_emax (S754_finite sx mx ex)
                  (S754_finite false 8388608 (-23))).
        rewrite SFdiv_one_normal by lia. reflexivity.
    + assert (Hd2 : 2 <= Zdigits2 n).
      { assert (1 < Zdigits2 n); [|lia]. apply Zdigits2_gt_of_le; [lia|].
        change (2 ^ 1) with 2. lia. }
      destruct (of_int n) as [sy|sy| |sy my ey]; try contradiction; [reflexivity|].
      destruct Hy as [_ Hy].
      apply SFdiv_finite. change (Zdigits2 (Zpos mx)) with (Zpos (digits2_pos mx)).
      change (Zdigits2 (Zpos my)) with (Zpos (digits2_pos my)). lia.
Qed.

(** ** Square root and addition return binary32 numbers *)

Lemma SFsqrt_core_spec (mx : positive) ex :
  let c := SFsqrt_core_binary f32_prec f32_emax (Zpos mx) ex in
  let q := fst (fst c) in
  let e' := snd (fst c) in
  0 < q /\ e' <= fexp f32_prec f32_emax (Zdigits2 q + e').
Proof.
  cbn zeta. unfold SFsqrt_core_binary.
  set (d := Zdigits2 (Zpos mx)).
  set (e' := Z.min (fexp f32_prec f32_emax (Z.div2 (d + ex + 1))) (Z.div2 ex)).
  set (s := ex - 2 * e').
  assert (Hs : 0 <= s).
  { unfold s, e'. rewrite (Z.div2_div ex). pose proof (Z.mul_div_le ex 2 ltac:(lia)). lia. }
  set (m' := match s with Z.pos _ => Z.shiftl (Zpos mx) s | 0 => Zpos mx | Z.neg _ => 0 end).
  assert (Hm' : m' = Zpos mx * 2 ^ s).
  { unfold m'. destruct s as [|n|n]; [cbn; lia | apply Z.shiftl_mul_pow2; lia | lia]. }
  pose proof (Z.pow_pos_nonneg 2 s ltac:(lia) Hs) as Hps.
  pose proof (Zdigits2_pos (Zpos mx) ltac:(lia)) as Hd. fold d in Hd.
  destruct (Zdigits2_bounds (Zpos mx) ltac:(lia)) as [Hxlo _]. fold d in Hxlo.
  assert (Hm'lo : 2 ^ (d - 1 + s) <= m').
  { rewrite Hm', Z.pow_add_r by lia. nia. }
  pose proof (Z.sqrtrem_spec m' ltac:(lia)) as Hsq.
  destruct (Z.sqrtrem m') as [q r]. cbn [fst snd]. destruct Hsq as [Heq Hr].
  set (j := (d - 1 + s) / 2).
  assert (Hj : 0 <= j) by (unfold j; apply Z.div_pos; lia).
  assert (Hj2 : 2 * j <= d - 1 + s) by (unfold j; apply Z.mul_div_le; lia).
  pose proof (Z.pow_pos_nonneg 2 j ltac:(lia) Hj) as Hpj.
  assert (Hq : 2 ^ j <= q).
  { destruct (Z_le_gt_dec (2 ^ j) q) as [|Hlt]; [assumption|exfalso].
    assert (Hpp : 2 ^ j * 2 ^ j <= 2 ^ (d - 1 + s)).
    { rewrite <- Z.pow_add_r by lia. apply Z.pow_le_mono_r; lia. }
    nia. }
  split; [lia|].
  assert (Hdq : j < Zdigits2 q) by (apply Zdigits2_gt_of_le; assumption).
  assert (Hje : j + 1 + e' = Z.div2 (d + ex + 1)).
  { unfold j, s. rewrite Z.div2_div.
    replace (d - 1 + (ex - 2 * e')) with (d + ex - 1 + (- e') * 2) by lia.
    rewrite Z.div_add by lia.
    replace (d + ex + 1) with (d + ex - 1 + 1 * 2) by lia.
    rewrite Z.div_add by lia. lia. }
  rewrite fexp_eq. unfold e' in Hje |- *. rewrite fexp_eq in Hje |- *.
  clearbody j d m'. lia.
Qed.

Lemma SFsqrt_valid x :
  valid_binary f32_prec f32_emax (SFsqrt f32_prec f32_emax x) = true.
Proof.
  destruct x as [sx|[]| |[] mx ex]; try reflexivity. cbn [SFsqrt].
  pose proof (SFsqrt_core_spec mx ex) as Hc. cbn zeta in Hc.
  destruct (SFsqrt_core_binary f32_prec f32_emax (Zpos mx) ex) as [[q e'] l].
  cbn [fst snd] in Hc. destruct Hc as [Hq He].
  apply binary_round_aux_valid; assumption.
Qed.

Lemma SFadd_valid x y :
  valid_binary f32_prec f32_emax x = true -> valid_binary f32_prec f32_emax y = true ->
  valid_binary f32_prec f32_emax (SFadd f32_prec f32_emax x y) = true.
Proof.
  intros Hx Hy.
  destruct x as [[]|[]| |sx mx ex], y as [[]|[]| |sy my ey];
    cbn [SFadd]; try reflexivity; try assumption.
  apply binary_normalize_valid.
Qed.

(** ** What a finite result says about the operands *)

Lemma add_finite_inv x y :
  is_finite (fadd x y) = true -> is_finite x = true /\ is_finite y = true.
Proof.
  destruct x as [[]|[]| |sx mx ex], y as [[]|[]| |sy my ey];
    cbn [fadd binary32 SFadd is_finite]; intros Hf; try discriminate Hf; split; reflexivity.
Qed.

Lemma mul_self_finite_inv x : is_finite (fmul x x) = true -> is_finite x = true.
Proof.
  destruct x as [sx|sx| |sx mx ex]; cbn [fmul binary32 SFmul is_finite];
    intros Hf; try discriminate Hf; reflexivity.
Qed.

Lemma sqrt_finite_inv x : is_finite (fsqrt x) = true -> is_finite x = true.
Proof.
  destruct x as [sx|[]| |sx mx ex]; cbn [fsqrt binary32 SFsqrt is_finite];
    intros Hf; try discriminate Hf; reflexivity.
Qed.

Lemma div_finite_inv x y :
  is_finite (fdiv x y) = true -> is_finite x = true /\ is_zero y = false.
Proof.
  destruct x as [sx|sx| |sx mx ex], y as [sy|sy| |sy my ey];
    cbn [fdiv binary32 SFdiv is_finite is_zero]; intros Hf; try discriminate Hf;
    split; reflexivity.
Qed.

(** A cell speed that is a number comes from a local density that is not
    zero. *)
Lemma speed_finite_density (prop : t_speed spec_float) :
  is_finite (fsqrt (vel_sq prop)) = true -> is_zero (local_density prop) = false.
Proof.
  intros Hf. apply sqrt_finite_inv in Hf. unfold vel_sq in Hf.
  apply add_finite_inv in Hf as [Hx _]. apply mul_self_finite_inv in Hx.
  unfold vel_x in Hx. apply div_finite_inv in Hx as [_ Hz]. exact Hz.
Qed.

(** ** Every result of the reduction *)

Lemma reduction_not_negative (l : list spec_float) u :
  (forall x, In x l -> is_negative x = false) ->
  reduction_of l u -> is_negative u = false.
Proof.
  intros Hl Hr. induction Hr as [|x|l1 l2 a b _ IHa _ IHb|l l' a Hp _ IH].
  - reflexivity.
  - apply Hl. left. reflexivity.
  - apply sign_add; [apply IHa | apply IHb]; intros x Hx; apply Hl, in_or_app; tauto.
  - apply IH. intros x Hx. apply Hl. eapply Permutation_in; eassumption.
Qed.

Lemma reduction_finite_terms (l : list spec_float) u :
  reduction_of l u -> is_finite u = true -> forall x, In x l -> is_finite x = true.
Proof.
  intros Hr. induction Hr as [|x|l1 l2 a b _ IHa _ IHb|l l' a Hp _ IH]; intros Hf y Hy.
  - destruct Hy.
  - destruct Hy as [<-|[]]. exact Hf.
  - apply add_finite_inv in Hf as [Ha Hb].
    apply in_app_or in Hy as [Hy|Hy]; [apply IHa | apply IHb]; assumption.
  - apply IH; [exact Hf|]. eapply Permutation_in; [symmetry|]; eassumption.
Qed.

Lemma reduction_valid (l : list spec_float) u :
  (forall x, In x l -> valid_binary f32_prec f32_emax x = true) ->
  reduction_of l u -> valid_binary f32_prec f32_emax u = true.
Proof.
  intros Hl Hr. induction Hr as [|x|l1 l2 a b _ IHa _ IHb|l l' a Hp _ IH].
  - reflexivity.
  - apply Hl. left. reflexivity.
  - apply SFadd_valid; [apply IHa | apply IHb]; intros x Hx; apply Hl, in_or_app; tauto.
  - apply IH. intros x Hx. apply Hl. eapply Permutation_in; eassumption.
Qed.

End Binary32Rounding.

(** * Claims about the collide step and the reductions, in binary32 *)

Section Binary32Claims.

Implicit Types (params : t_param spec_float) (g : grids spec_float).
Implicit Types (c : t_speeds spec_float) (prop : t_speed spec_float).

Lemma b32_const_4_5 : fmul (F:=spec_float) f1_5 c_lat = fconst 9 (-1).
Proof. vm_compute. reflexivity. Qed.

Lemma b32_const_1_5 : fmul (F:=spec_float) f0_5 c_lat = fconst 3 (-1).
Proof. vm_compute. reflexivity. Qed.

Lemma b32_rest_terms :
  fadd (fadd (F:=spec_float) f1 (fmul (of_int 3) f0))
       (fmul (fconst 9 (-1)) (fmul f0 f0)) = f1.
Proof. vm_compute. reflexivity. Qed.

Lemma equ_term_spec (w rho u u_sq : spec_float) :
  equ_term w rho u u_sq
  = fmul (fmul w rho)
      (fsub (fadd (fadd f1 (fmul (of_int 3) u)) (fmul (fconst 9 (-1)) (fmul u u)))
            (fmul (fconst 3 (-1)) u_sq)).
Proof.
  unfold equ_term.
  rewrite (b32_mul_comm u c_lat), (b32_mul_comm (fmul u u)), (b32_mul_comm u_sq).
  rewrite b32_const_4_5, b32_const_1_5. reflexivity.
Qed.

(** C4.  In binary32, for every set of streamed values and every speed [d],
    the entry of [d_equ] for [d] is
    [weight(d) * local_density * (1 + 3 e_d + 4.5 e_d^2 - 1.5 u_sq)], with
    weight 4/9 for the rest speed, 1/9 for the axis speeds and 1/36 for the
    diagonals, and [e_d] the velocity component along the unit offset of [d]
    (zero for the rest speed). *)
Theorem C4_equilibrium_formula prop d :
  sp d (d_equ prop)
  = equilibrium_spec d (local_density prop) (vel_x prop) (vel_y prop) (vel_sq prop).
Proof.
  unfold equilibrium_spec, d_equ.
  destruct d; cbn [sp v0 v1 v2 v3 v4 v5 v6 v7 v8 weight class_of e_dir
                   off_x off_y component].
  - rewrite b32_rest_terms, (b32_mul_comm (vel_sq prop)), b32_const_1_5. reflexivity.
  - rewrite equ_term_spec. reflexivity.
  - rewrite equ_term_spec. reflexivity.
  - rewrite equ_term_spec. reflexivity.
  - rewrite equ_term_spec. reflexivity.
  - rewrite equ_term_spec. reflexivity.
  - rewrite equ_term_spec. reflexivity.
  - rewrite equ_term_spec, b32_add_neg. reflexivity.
  - rewrite equ_term_spec, b32_add_neg. reflexivity.
Qed.


(** C8.  [calc_reynolds] returns
    [av_velocity * reynolds_dim / viscosity] with
    [viscosity = 1/6 * (2/omega - 1)], and [av_velocity] is the sum, over
    the open cells in loop order, of [sqrt (u_x^2 + u_y^2)] computed from the
    cell's own nine values by the functions of the collide step, divided by
    the number of open cells. *)
Theorem C8_reynolds params c (obst : list Z) :
  calc_reynolds params c obst
  = fdiv (fmul (av_velocity params c obst) (of_int (reynolds_dim params)))
         (fmul (fdiv (of_int 1) (of_int 6))
               (fsub (fdiv (of_int 2) (omega params)) (of_int 1)))
  /\
  av_velocity params c obst
  = fdiv (fold_left fadd
            (map (fun k => fsqrt (vel_sq (cell_at c (cell_ix params k))))
                 (open_cells params obst))
            (of_int 0))
         (of_int (Z.of_nat (length (open_cells params obst)))).
Proof.
  split; [reflexivity|].
  unfold av_velocity. rewrite av_velocity_loop_spec. cbn [fst snd].
  rewrite fold_left_map_add. do 2 f_equal.
  apply map_ext. intros k. apply av_cell_speed_vel_sq.
Qed.

(** C10.  When every cell of the grid is blocked, the cell counter of the
    loop nest of [timestep] and that of [av_velocity] both end at zero, the
    accumulators at [+0], and both functions return the quotient [0/0],
    which is a NaN. *)
Theorem C10_all_blocked params g :
  (forall jj ii, 0 <= jj < ny params -> 0 <= ii < nx params ->
                 rd 0 (obstacles g) (ii + jj * nx params) <> 0) ->
  let st := stream_collide params (accelerate_flow params g) in
  tot_cells st = 0 /\ tot_u st = S754_zero false /\
  snd (timestep params g) = S754_nan /\
  av_velocity_loop params (cells g) (obstacles g) = (0, S754_zero false) /\
  av_velocity params (cells g) (obstacles g) = S754_nan /\
  is_finite (snd (timestep params g)) = false /\
  is_finite (av_velocity params (cells g) (obstacles g)) = false.
Proof.
  intros Hb. cbn zeta.
  pose proof (open_cells_all_blocked params (obstacles g) Hb) as Hopen.
  destruct (stream_collide_reduction params (accelerate_flow params g)) as [Hn Hu].
  destruct (accelerate_flow_frame params g) as [Ho _].
  rewrite Ho, Hopen in Hn, Hu. cbn [length fold_left Z.of_nat] in Hn, Hu.
  assert (Hav : av_velocity_loop params (cells g) (obstacles g) = (0, S754_zero false)).
  { rewrite av_velocity_loop_spec, Hopen. reflexivity. }
  split; [exact Hn|]. split; [exact Hu|].
  assert (Hts : snd (timestep params g) = S754_nan).
  { unfold timestep. cbn [snd]. rewrite Hn, Hu. reflexivity. }
  assert (Hvel : av_velocity params (cells g) (obstacles g) = S754_nan).
  { unfold av_velocity. rewrite Hav. reflexivity. }
  rewrite Hts, Hvel. split_conj; trivial.
Qed.

End Binary32Claims.

(** * The relaxation step in exact arithmetic *)

Section RealClaims.

Implicit Types (params : t_param R) (g : grids R).

Lemma relax_one_R (p e : R) : relax 1%R p e = e.
Proof. unfold relax. simpl. lra. Qed.

(** C6 (amended).  Over the reals: when omega = 1, for every open cell of a
    well-formed grid and every speed [d], the value [timestep] stores in the
    next grid, [streamed(d) + omega * (equilibrium(d) - streamed(d))], is
    the equilibrium value [d_equ(d)] of the values streamed into the cell. *)
Theorem C6_fixed_point_exact_arithmetic params g jj ii d :
  wf params g -> 0 <= jj < ny params -> 0 <= ii < nx params ->
  rd 0 (obstacles g) (ii + jj * nx params) = 0 ->
  omega params = 1%R ->
  let prop := propagate params (cells (accelerate_flow params g)) jj ii in
  let next := rdf (arr d (tmp_cells (fst (timestep params g)))) (ii + jj * nx params) in
  next = (sp d prop + omega params * (sp d (d_equ prop) - sp d prop))%R /\
  next = sp d (d_equ prop).
Proof.
  intros Hwf Hj Hi Hopen Hom. cbn zeta.
  rewrite (timestep_cell_value params g jj ii d Hwf Hj Hi), Hopen.
  cbn [Z.eqb]. split; [reflexivity|].
  rewrite Hom. apply relax_one_R.
Qed.

(** ** The equilibrium formula and the velocity magnitude in exact arithmetic *)

(** Over the reals [e_dir] is the dot product of the unit offset of [d]
    with the velocity. *)
Lemma e_dir_dot (d : speed) (u_x u_y : R) :
  e_dir d u_x u_y = (IZR (off_x d) * u_x + IZR (off_y d) * u_y)%R.
Proof. destruct d; unfold e_dir; simpl; lra. Qed.

Lemma equilibrium_formula_exact (prop : t_speed R) (d : speed) :
  sp d (d_equ prop)
  = equilibrium_spec d (local_density prop) (vel_x prop) (vel_y prop) (vel_sq prop).
Proof.
  unfold equilibrium_spec, d_equ, vel_sq.
  generalize (vel_x prop) (vel_y prop) (local_density prop). intros ux uy rho.
  destruct d; unfold equ_term, weight, e_dir, w0, w1, w2, c_lat, f0, f1, f0_5, f1_5, of_int;
    simpl; field.
Qed.

Lemma av_cell_speed_exact (c : t_speeds R) (i : Z) :
  av_cell_speed c i = sqrt (vel_sq (cell_at c i)).
Proof.
  unfold av_cell_speed, vel_sq, vel_x, vel_y, local_density, f0, of_int. simpl.
  replace (0 * 1 + rdf (s0 c) i)%R with (rdf (s0 c) i) by lra. reflexivity.
Qed.

(** ** Conservation of mass in exact arithmetic *)

Lemma Rsum_perm (l l' : list R) : Permutation l l' -> Rsum l = Rsum l'.
Proof. induction 1; simpl; lra. Qed.

Lemma fold_left_Rsum {K} (f : K -> R) (l : list K) (a : R) :
  fold_left (fun t k => (t + f k)%R) l a = (a + Rsum (map f l))%R.
Proof.
  revert a. induction l as [|k l IH]; intros a; simpl; [lra|]. rewrite IH. lra.
Qed.

Lemma total_density_sum params c :
  total_density params c
  = Rsum (map (fun k => local_density (cell_at c (cell_ix params k))) (cell_list params)).
Proof.
  unfold total_density.
  rewrite (fold_nested (total_density_cell params c)).
  transitivity (fold_left (fun t k => (t + local_density (cell_at c (cell_ix params k)))%R)
                  (cell_list params) 0%R).
  - assert (H0 : (f0 : R) = 0%R) by (unfold f0, of_int; simpl; lra).
    rewrite H0. generalize 0%R as a. generalize (cell_list params) as l.
    induction l as [|k l IH]; intros a; simpl; [reflexivity|].
    rewrite <- IH. f_equal. unfold total_density_cell, local_density, cell_ix. simpl. lra.
  - rewrite fold_left_Rsum. lra.
Qed.

Lemma d_equ_sum (prop : t_speed R) : local_density (d_equ prop) = local_density prop.
Proof.
  unfold d_equ, vel_sq.
  generalize (vel_x prop) (vel_y prop). intros ux uy.
  unfold local_density at 1. cbn [v0 v1 v2 v3 v4 v5 v6 v7 v8].
  generalize (local_density prop). intros rho.
  unfold equ_term, w0, w1, w2, c_lat, f1, f0_5, f1_5, of_int. simpl. field.
Qed.

Lemma collision_sum params (prop : t_speed R) :
  local_density (collision params prop) = local_density prop.
Proof.
  pose proof (d_equ_sum prop) as He. unfold collision.
  revert He. generalize (d_equ prop) as e. intros e He.
  unfold local_density, relax in *.
  cbn [v0 v1 v2 v3 v4 v5 v6 v7 v8 fadd fsub fmul real_arith] in *.
  set (om := omega params).
  transitivity
    ((v0 prop + v1 prop + v2 prop + v3 prop + v4 prop + v5 prop + v6 prop + v7 prop + v8 prop)
     + om * ((v0 e + v1 e + v2 e + v3 e + v4 e + v5 e + v6 e + v7 e + v8 e)
             - (v0 prop + v1 prop + v2 prop + v3 prop + v4 prop + v5 prop + v6 prop
                + v7 prop + v8 prop)))%R.
  - ring.
  - rewrite He. ring.
Qed.

Lemma accel_zero_id params g :
  wf params g -> 2 <= ny params -> accel params = 0%R ->
  accelerate_flow params g = g.
Proof.
  intros Hwf Hny Hacc.
  destruct (accelerate_flow_spec params g Hwf Hny) as (Ho & Ht & _ & _ & _ & Hs & Hv).
  assert (Hw1 : accel_w1 params = 0%R).
  { unfold accel_w1, of_int. simpl. rewrite Hacc. field. }
  assert (Hw2 : accel_w2 params = 0%R).
  { unfold accel_w2, of_int. simpl. rewrite Hacc. field. }
  assert (Hc : cells (accelerate_flow params g) = cells g).
  { apply t_speeds_ext. intros d.
    destruct Hwf as (_ & _ & _ & Hsz & _).
    apply (rd_ext f0); [rewrite (Hs d), (Hsz d); reflexivity|].
    intros i _. fold (rdf (arr d (cells (accelerate_flow params g))) i).
    fold (rdf (arr d (cells g)) i). rewrite <- !sp_cell_at, Hv.
    destruct (_ && _); [|reflexivity].
    rewrite Hw1, Hw2. destruct d; unfold accel_update; simpl; lra. }
  destruct (accelerate_flow params g) as [c' t' o'], g as [c t o].
  simpl in *. congruence.
Qed.


Lemma NoDup_cell_list params : List.NoDup (cell_list params).
Proof.
  unfold cell_list.
  pose proof (NoDup_range (ny params)) as Hr. revert Hr.
  generalize (range (ny params)) as rows.
  induction rows as [|jj rows IH]; intros Hr; simpl; [constructor|].
  inversion Hr as [|? ? Hni Hr']; subst.
  apply List.NoDup_app.
  - apply Finite.Injective_map_NoDup; [|apply NoDup_range].
    intros a b Hab. congruence.
  - apply IH, Hr'.
  - intros k Hk Hk'.
    apply in_map_iff in Hk as (i & <- & _).
    apply in_flat_map in Hk' as (j & Hj & Hin).
    apply in_map_iff in Hin as (i' & Heq & _). inversion Heq; subst. contradiction.
Qed.

Lemma mod_shift_back (n a o : Z) : 0 <= a < n -> ((a - o) mod n + o) mod n = a.
Proof.
  intros Ha. rewrite Zplus_mod_idemp_l.
  replace (a - o + o) with a by lia. apply Z.mod_small, Ha.
Qed.

Lemma neighbour_perm params d :
  0 < nx params -> 0 < ny params ->
  Permutation (map (neighbour params d) (cell_list params)) (cell_list params).
Proof.
  intros Hnx Hny. apply NoDup_Permutation_bis.
  - apply Finite.Injective_map_NoDup_in; [|apply NoDup_cell_list].
    intros [jj ii] [jj' ii'] Hk Hk' Heq.
    apply in_cell_list in Hk as [Hj Hi]. apply in_cell_list in Hk' as [Hj' Hi'].
    unfold neighbour in Heq. cbn [fst snd] in Heq. inversion Heq as [[Hy Hx]].
    rewrite <- (mod_shift_back (ny params) jj (off_y d) Hj), Hy, mod_shift_back by exact Hj'.
    rewrite <- (mod_shift_back (nx params) ii (off_x d) Hi), Hx, mod_shift_back by exact Hi'.
    reflexivity.
  - rewrite length_map. reflexivity.
  - intros k Hk. apply in_map_iff in Hk as ([jj ii] & <- & _).
    apply in_cell_list. unfold neighbour. cbn [fst snd].
    split; apply Z.mod_pos_bound; assumption.
Qed.

Lemma Rsum_nine {K} (V : K -> t_speed R) (l : list K) :
  Rsum (map (fun k => local_density (V k)) l)
  = (Rsum (map (fun k => sp C0 (V k)) l) + Rsum (map (fun k => sp E1 (V k)) l)
     + Rsum (map (fun k => sp N2 (V k)) l) + Rsum (map (fun k => sp W3 (V k)) l)
     + Rsum (map (fun k => sp S4 (V k)) l) + Rsum (map (fun k => sp NE5 (V k)) l)
     + Rsum (map (fun k => sp NW6 (V k)) l) + Rsum (map (fun k => sp SW7 (V k)) l)
     + Rsum (map (fun k => sp SE8 (V k)) l))%R.
Proof.
  induction l as [|k l IH]; [simpl; lra|].
  unfold Rsum in *. cbn [map fold_right]. rewrite IH.
  unfold local_density. simpl. lra.
Qed.

Lemma streamed_sum params c d :
  0 < nx params -> 0 < ny params ->
  Rsum (map (fun k => sp d (propagate params c (fst k) (snd k))) (cell_list params))
  = Rsum (map (fun k => sp d (cell_at c (cell_ix params k))) (cell_list params)).
Proof.
  intros Hnx Hny.
  transitivity (Rsum (map (fun k => rdf (arr d c) (cell_ix params k))
                        (map (neighbour params d) (cell_list params)))).
  - rewrite map_map. f_equal. apply map_ext_in. intros [jj ii] Hk.
    apply in_cell_list in Hk as [Hj Hi]. apply propagate_neighbour; assumption.
  - rewrite (Rsum_perm _ _ (Permutation_map _ (neighbour_perm params d Hnx Hny))).
    f_equal. apply map_ext. intros k. symmetry. apply sp_cell_at.
Qed.

Lemma streaming_conserves_mass params c :
  0 < nx params -> 0 < ny params ->
  Rsum (map (fun k => local_density (propagate params c (fst k) (snd k))) (cell_list params))
  = total_density params c.
Proof.
  intros Hnx Hny. rewrite total_density_sum.
  rewrite (Rsum_nine (fun k => propagate params c (fst k) (snd k))).
  rewrite (Rsum_nine (fun k => cell_at c (cell_ix params k))).
  rewrite !streamed_sum by assumption. reflexivity.
Qed.

(** The collide step, the reflection at obstacles and the streaming
    together conserve mass exactly over the reals, as long as the rest
    value the scratch grid holds at each blocked cell is the one of the
    current grid: that value is the one thing [timestep] does not write. *)
Theorem mass_conserved_exact params g :
  wf params g -> 2 <= ny params -> accel params = 0%R ->
  scratch_agrees params g ->
  total_density params (tmp_cells (fst (timestep params g)))
  = total_density params (cells g).
Proof.
  intros Hwf Hny Hacc Hagree.
  pose proof Hwf as (Hnx & Hny0 & _).
  rewrite <- (streaming_conserves_mass params (cells g) Hnx Hny0).
  rewrite total_density_sum. f_equal. apply map_ext_in. intros [jj ii] Hk.
  apply in_cell_list in Hk as [Hj Hi]. cbn [fst snd].
  unfold cell_ix. cbn [fst snd].
  pose proof (fun d => timestep_cell_value params g jj ii d Hwf Hj Hi) as Hv.
  cbn zeta in Hv. rewrite (accel_zero_id params g Hwf Hny Hacc) in Hv.
  pose proof (Hv C0) as H0. pose proof (Hv E1) as H1. pose proof (Hv N2) as H2.
  pose proof (Hv W3) as H3. pose proof (Hv S4) as H4. pose proof (Hv NE5) as H5.
  pose proof (Hv NW6) as H6. pose proof (Hv SW7) as H7. pose proof (Hv SE8) as H8.
  clear Hv. cbn [arr opposite] in *.
  destruct (Z.eqb_spec (rd 0 (obstacles g) (ii + jj * nx params)) 0) as [Ho|Ho].
  - rewrite <- (collision_sum params (propagate params (cells g) jj ii)).
    unfold local_density. cbn [cell_at v0 v1 v2 v3 v4 v5 v6 v7 v8].
    rewrite H0, H1, H2, H3, H4, H5, H6, H7, H8. reflexivity.
  - unfold local_density. cbn [cell_at v0 v1 v2 v3 v4 v5 v6 v7 v8].
    rewrite H0, H1, H2, H3, H4, H5, H6, H7, H8.
    rewrite (Hagree jj ii Hj Hi Ho).
    change (rdf (s0 (cells g)) (ii + jj * nx params))
      with (v0 (propagate params (cells g) jj ii)).
    simpl. lra.
Qed.

(** Along a run whose scratch grid starts with the right rest values at
    the blocked cells, the total density never changes (accel = 0, exact
    arithmetic). *)
Theorem run_mass_conserved_exact params g (n : nat) :
  wf params g -> 2 <= ny params -> accel params = 0%R ->
  scratch_agrees params g ->
  total_density params (cells (run n params g)) = total_density params (cells g).
Proof.
  revert g. induction n as [|n IH]; intros g Hwf Hny Hacc Hag; [reflexivity|].
  cbn [run]. rewrite IH; trivial.
  - rewrite iteration_grids. cbn [cells].
    apply mass_conserved_exact; trivial.
  - apply iteration_wf; trivial.
  - apply iteration_scratch_agrees; trivial.
Qed.

End RealClaims.

(** * Examples on binary32 grids *)

Ltac solve_cmp :=
  vm_compute; split_conj;
  first [reflexivity | let H := fresh in intro H; discriminate H].

Ltac solve_wf :=
  unfold wf, sized; split_conj;
  try match goal with |- forall d : speed, _ => intros [] end; solve_cmp.

(** A run with accel = 1/4: in row 0 the forcing is applied, E grows from
    4 to 5 and W shrinks from 4 to 3. *)
Lemma C2_accelerate_guard_strict_witness :
  let p := fst (demo_start (fconst 1 (-2)) []) in
  let g := snd (demo_start (fconst 1 (-2)) []) in
  wf p g /\ 2 <= ny p /\ 0 <= 0 < nx p /\
  v1 (cell_at (cells (accelerate_flow p g)) 0) = fl 5 /\
  v3 (cell_at (cells (accelerate_flow p g)) 0) = fl 3.
Proof.
  intros p g.
  assert (Hwf : wf p g) by solve_wf.
  assert (Hny : 2 <= ny p) by solve_cmp.
  assert (Hii : 0 <= 0 < nx p) by solve_cmp.
  destruct (C2_accelerate_guard_strict p g 0 Hwf Hny Hii) as [Hopen _].
  destruct (Hopen eq_refl) as [Happ _].
  change (0 + (ny p - 2) * nx p) with 0 in Happ.
  specialize (Happ ltac:(vm_compute; reflexivity)).
  split; [exact Hwf|]. split; [exact Hny|]. split; [exact Hii|].
  rewrite Happ. split; vm_compute; reflexivity.
Defined.

(** With accel = 1 the initial grid has [W - w1' = 4 - 4 = 0] and
    [NW - w2' = SW - w2' = 1 - 1 = 0]: no value would become negative, yet
    the cell is skipped, although the update would change it. *)
Lemma C2_counterexample :
  let p := fst (demo_start (fl 1) []) in
  let g := snd (demo_start (fl 1) []) in
  let v := cell_at (cells g) 0 in
  let aw1 := fdiv (fmul (density p) (accel p)) (of_int 9) in
  let aw2 := fdiv (fmul (density p) (accel p)) (of_int 36) in
  rd 0 (obstacles g) 0 = 0 /\
  fsub (v3 v) aw1 = S754_zero false /\
  fsub (v6 v) aw2 = S754_zero false /\
  fsub (v7 v) aw2 = S754_zero false /\
  fgt f0 (fsub (v3 v) aw1) = false /\
  fgt f0 (fsub (v6 v) aw2) = false /\
  fgt f0 (fsub (v7 v) aw2) = false /\
  cell_at (cells (accelerate_flow p g)) 0 = v /\
  accel_update aw1 aw2 v <> v.
Proof.
  vm_compute. repeat split; discriminate.
Qed.

Lemma C9_accelerate_frame_witness :
  let p := fst (demo_start (fconst 1 (-2)) [(1, 0)]) in
  let g := snd (demo_start (fconst 1 (-2)) [(1, 0)]) in
  wf p g /\ 2 <= ny p /\
  obstacles (accelerate_flow p g) = obstacles g /\
  tmp_cells (accelerate_flow p g) = tmp_cells g.
Proof.
  intros p g.
  assert (Hwf : wf p g) by solve_wf.
  assert (Hny : 2 <= ny p) by solve_cmp.
  destruct (C9_accelerate_frame p g Hwf Hny) as (Ho & Ht & _).
  split_conj; assumption.
Defined.

Lemma C5_periodic_streaming_witness :
  let p := fst (demo_start (fl 0) []) in
  let g := snd (demo_start (fl 0) []) in
  0 <= 1 < ny p /\ 0 <= 0 < nx p /\
  v1 (propagate p (cells g) 1 0) = rdf (s1 (cells g)) (nx p - 1 + 1 * nx p).
Proof.
  intros p g.
  assert (Hj : 0 <= 1 < ny p) by solve_cmp.
  assert (Hi : 0 <= 0 < nx p) by solve_cmp.
  destruct (C5_periodic_streaming p (cells g) 1 0 Hj Hi) as (_ & Hw & _).
  split; [exact Hj|]. split; [exact Hi|].
  exact (Hw eq_refl).
Defined.

(** Two binary32 inputs with omega = 1 where the stored value is not the
    equilibrium value.

    First, a cell whose whole mass 1 sits in the rest speed: the
    equilibrium value of the rest speed is [14913081 * 2^-25], the float
    nearest to 4/9; [4/9 - 1] is [-18641351 * 2^-25], which needs 25 bits
    and rounds to [-18641352 * 2^-25]; adding 1 gives [14913080 * 2^-25].

    Second, the second iteration of a run started by [initialise]
    (4 x 4, density 0.1, accel 0.5, cell (1,1) blocked): at the open cell
    in column 0 of row 2 the north-west value stored is
    [14287600 * 2^-33], its equilibrium value [14287601 * 2^-33]. *)
Lemma C6_counterexample :
  (let p := fst rest_only_run in
   let g := snd rest_only_run in
   let prop := propagate p (cells (accelerate_flow p g)) 0 0 in
   let next := rdf (s0 (tmp_cells (fst (timestep p g)))) 0 in
   omega p = of_int 1 /\
   rd 0 (obstacles g) 0 = 0 /\
   v0 (d_equ prop) = S754_finite false 14913081 (-25) /\
   next = S754_finite false 14913080 (-25) /\
   next <> v0 (d_equ prop))
  /\
  (let p := fst blocked_run in
   let g := fst (iteration p (snd blocked_run)) in
   let prop := propagate p (cells (accelerate_flow p g)) 2 0 in
   let next := rdf (s6 (tmp_cells (fst (timestep p g)))) (0 + 2 * nx p) in
   omega p = of_int 1 /\
   rd 0 (obstacles g) (0 + 2 * nx p) = 0 /\
   v6 (d_equ prop) = S754_finite false 14287601 (-33) /\
   next = S754_finite false 14287600 (-33) /\
   next <> v6 (d_equ prop)).
Proof.
  vm_compute. split_conj; try reflexivity; discriminate.
Qed.

Lemma C6_fixed_point_exact_arithmetic_witness :
  let p := fst unit_run_R in
  let g := snd unit_run_R in
  wf p g /\ 0 <= 0 < ny p /\ 0 <= 0 < nx p /\
  rd 0 (obstacles g) (0 + 0 * nx p) = 0 /\ omega p = 1%R /\
  rdf (arr C0 (tmp_cells (fst (timestep p g)))) (0 + 0 * nx p)
  = sp C0 (d_equ (propagate p (cells (accelerate_flow p g)) 0 0)).
Proof.
  intros p g.
  assert (Hwf : wf p g).
  { unfold wf, sized, p, g. cbn. unfold int_max. split_conj; try lia; try reflexivity.
    all: intros []; reflexivity. }
  assert (Hj : 0 <= 0 < ny p) by (unfold p; cbn; lia).
  assert (Hi : 0 <= 0 < nx p) by (unfold p; cbn; lia).
  assert (Ho : rd 0 (obstacles g) (0 + 0 * nx p) = 0) by reflexivity.
  assert (Hom : omega p = 1%R) by reflexivity.
  split; [exact Hwf|]. split; [exact Hj|]. split; [exact Hi|].
  split; [exact Ho|]. split; [exact Hom|].
  exact (proj2 (C6_fixed_point_exact_arithmetic p g 0 0 C0 Hwf Hj Hi Ho Hom)).
Defined.



Lemma C10_all_blocked_witness :
  let p := fst (demo_start (fl 0) [(0, 0); (1, 0); (0, 1); (1, 1)]) in
  let g := snd (demo_start (fl 0) [(0, 0); (1, 0); (0, 1); (1, 1)]) in
  obstacles g = [1; 1; 1; 1] /\
  snd (timestep p g) = S754_nan /\
  av_velocity p (cells g) (obstacles g) = S754_nan.
Proof.
  intros p g.
  assert (Hb : forall jj ii, 0 <= jj < ny p -> 0 <= ii < nx p ->
                             rd 0 (obstacles g) (ii + jj * nx p) <> 0).
  { intros jj ii Hj Hi. change (ny p) with 2 in Hj. change (nx p) with 2 in Hi.
    assert (Hjj : jj = 0 \/ jj = 1) by lia.
    assert (Hii : ii = 0 \/ ii = 1) by lia.
    destruct Hjj, Hii; subst jj ii; vm_compute; discriminate. }
  destruct (C10_all_blocked p g Hb) as (_ & _ & Ht & _ & Hav & _ & _).
  split; [vm_compute; reflexivity|]. split; assumption.
Defined.

(** * Where the code departs from the claims *)

(** C1.  The obstacle branch of [timestep] stores eight values: the rest
    value of the next grid is never written.  On the first iteration of a
    2 x 2 run (density 36, accel 1/4, cell (0,0) blocked, scratch grid as
    allocated, here zeros) the values streamed into the blocked cell are
    16 (rest), 5 (E), 4 (N), 3 (W), 4 (S) and 1 (diagonals); the next grid
    gets W and E swapped, but its rest value stays at the 0 the scratch
    grid held, not at the streamed 16. *)
Theorem C1_rest_value_not_stored :
  let p := fst (demo_start (fconst 1 (-2)) [(0, 0)]) in
  let g := snd (demo_start (fconst 1 (-2)) [(0, 0)]) in
  let prop := propagate p (cells (accelerate_flow p g)) 0 0 in
  let next := cell_at (tmp_cells (fst (timestep p g))) 0 in
  rd 0 (obstacles g) 0 = 1 /\
  prop = {| v0 := fl 16; v1 := fl 5; v2 := fl 4; v3 := fl 3; v4 := fl 4;
            v5 := fl 1; v6 := fl 1; v7 := fl 1; v8 := fl 1 |} /\
  next = {| v0 := fl 0; v1 := fl 3; v2 := fl 4; v3 := fl 5; v4 := fl 4;
            v5 := fl 1; v6 := fl 1; v7 := fl 1; v8 := fl 1 |} /\
  v0 next = v0 (cell_at (tmp_cells g) 0) /\
  v0 next <> v0 prop.
Proof.
  vm_compute. split_conj; try reflexivity. discriminate.
Qed.

(** C3.  With accel = 0 and one blocked cell, [total_density] of the
    current grid is 144 before the first iteration, 128 after it (the rest
    value 16 of the blocked cell is missing from the grid that was the
    scratch grid) and 144 again after the second. *)
Theorem C3_total_density_changes :
  let p := fst (demo_start (fl 0) [(0, 0)]) in
  let g := snd (demo_start (fl 0) [(0, 0)]) in
  let g1 := fst (iteration p g) in
  let g2 := fst (iteration p g1) in
  accel p = fl 0 /\
  total_density p (cells g) = fl 144 /\
  total_density p (cells g1) = fl 128 /\
  total_density p (cells g2) = fl 144.
Proof.
  vm_compute. split_conj; reflexivity.
Qed.

(** * Further properties of the code *)

Section MoreKernelFacts.

Context {F : Type} `{FloatOps F}.

Implicit Types (c tmp : t_speeds F) (g : grids F) (params : t_param F).

(** ** Indices *)

Lemma propagate_reads params c jj ii d :
  sp d (propagate params c jj ii) = rdf (arr d c) (propagate_index params d jj ii).
Proof. destruct d; reflexivity. Qed.

Lemma idx_bounds params jj ii :
  0 <= jj < ny params -> 0 <= ii < nx params ->
  0 <= idx_y_s params jj < ny params /\ 0 <= idx_y_n params jj < ny params /\
  0 <= idx_x_e params ii < nx params /\ 0 <= idx_x_w params ii < nx params.
Proof.
  intros Hj Hi.
  rewrite (idx_y_s_mod params jj Hj), (idx_y_n_mod params jj Hj),
    (idx_x_e_mod params ii Hi), (idx_x_w_mod params ii Hi).
  split_conj; apply Z.mod_pos_bound; lia.
Qed.

(** X1.  On a grid with [nx, ny > 0], every index the loop nest of
    [timestep] computes for a cell of the grid (the nine indices it reads
    from the current grid and the index it writes in the scratch grid) lies
    in [0, nx*ny).  The row index [ny - 2] of [accelerate_flow] gives indices
    in [0, nx*ny) exactly when [ny >= 2]; with [ny = 1] they are negative. *)
Theorem X1_indices_in_bounds params jj ii :
  0 <= jj < ny params -> 0 <= ii < nx params ->
  (forall c d, sp d (propagate params c jj ii)
               = rdf (arr d c) (propagate_index params d jj ii)) /\
  (forall d, 0 <= propagate_index params d jj ii < nx params * ny params) /\
  0 <= cell_ix params (jj, ii) < nx params * ny params /\
  (0 <= cell_ix params (ny params - 2, ii) < nx params * ny params
   <-> 2 <= ny params) /\
  (ny params = 1 -> cell_ix params (ny params - 2, ii) < 0).
Proof.
  intros Hj Hi.
  destruct (idx_bounds params jj ii Hj Hi) as (Hys & Hyn & Hxe & Hxw).
  split; [intros c d; apply propagate_reads|].
  split; [|split; [|split]].
  - intros d. unfold propagate_index.
    destruct d; apply cell_index_bound; assumption.
  - unfold cell_ix. cbn [fst snd]. apply cell_index_bound; assumption.
  - unfold cell_ix. cbn [fst snd]. split.
    + intros Hb. nia.
    + intros Hny. apply cell_index_bound; lia.
  - intros Hny. unfold cell_ix. cbn [fst snd]. rewrite Hny. lia.
Qed.

(** ** initialise *)

Lemma initialise_cell_arr params d jj c ii :
  arr d (initialise_cell params jj c ii)
  = array_step (cell_ix params) (fun _ => Some (initial_value params d))
      (arr d c) (jj, ii).
Proof. destruct d; reflexivity. Qed.

Lemma initialise_cells_arr params blocked fresh_cells fresh_tmp fresh_obst d :
  arr d (cells (initialise params blocked fresh_cells fresh_tmp fresh_obst))
  = fold_left (array_step (cell_ix params) (fun _ => Some (initial_value params d)))
      (cell_list params) (arr d fresh_cells).
Proof.
  unfold initialise. cbn [cells].
  rewrite (fold_nested (initialise_cell params)).
  generalize fresh_cells as c. generalize (cell_list params) as l.
  induction l as [|[jj ii] l IH]; intros c; cbn [fold_left fst snd]; [reflexivity|].
  rewrite IH, initialise_cell_arr. reflexivity.
Qed.

Lemma initialise_cell_value params blocked fresh_cells fresh_tmp fresh_obst jj ii d :
  sized params fresh_cells ->
  0 <= jj < ny params -> 0 <= ii < nx params ->
  rdf (arr d (cells (initialise params blocked fresh_cells fresh_tmp fresh_obst)))
      (ii + jj * nx params)
  = initial_value params d.
Proof.
  intros Hs Hj Hi. rewrite initialise_cells_arr. unfold rdf.
  change (ii + jj * nx params) with (cell_ix params (jj, ii)).
  rewrite array_loop_hit; [reflexivity| | |].
  - apply in_cell_list. tauto.
  - intros k' Hk'. apply cell_ix_inj; [apply in_cell_list; tauto | exact Hk'].
  - rewrite (Hs d). unfold cell_ix. cbn [fst snd].
    pose proof (cell_index_bound (nx params) (ny params) ii jj Hi Hj). lia.
Qed.

Lemma initialise_sized params blocked fresh_cells fresh_tmp fresh_obst :
  sized params fresh_cells ->
  sized params (cells (initialise params blocked fresh_cells fresh_tmp fresh_obst)).
Proof.
  intros Hs d. rewrite initialise_cells_arr, array_loop_length. apply Hs.
Qed.

Lemma clear_obstacles_steps params (o : list Z) :
  clear_obstacles params o
  = fold_left (array_step (cell_ix params) (fun _ => Some 0)) (cell_list params) o.
Proof.
  unfold clear_obstacles.
  rewrite (fold_nested (fun jj o ii => wr o (ii + jj * nx params) 0)).
  reflexivity.
Qed.

Lemma mark_blocked_steps params (blocked : list (Z * Z)) (o : list Z) :
  fold_left (fun o p => wr o (fst p + snd p * nx params) 1) blocked o
  = fold_left (array_step (fun p : Z * Z => fst p + snd p * nx params)
                 (fun _ => Some 1)) blocked o.
Proof. reflexivity. Qed.

Lemma initialise_obstacles_length params blocked fresh_cells fresh_tmp (fresh_obst : list Z) :
  length (obstacles (initialise params blocked fresh_cells fresh_tmp fresh_obst))
  = length fresh_obst.
Proof.
  unfold initialise. cbn [obstacles].
  rewrite mark_blocked_steps, array_loop_length, clear_obstacles_steps, array_loop_length.
  reflexivity.
Qed.

Lemma initialise_obstacle_value params blocked fresh_cells fresh_tmp (fresh_obst : list Z) jj ii :
  length fresh_obst = Z.to_nat (nx params * ny params) ->
  0 <= jj < ny params -> 0 <= ii < nx params ->
  rd 0 (obstacles (initialise params blocked fresh_cells fresh_tmp fresh_obst))
     (ii + jj * nx params)
  = if existsb (fun p => fst p + snd p * nx params =? ii + jj * nx params) blocked
    then 1 else 0.
Proof.
  intros Hlen Hj Hi. unfold initialise. cbn [obstacles].
  pose proof (cell_index_bound (nx params) (ny params) ii jj Hi Hj) as Hb.
  rewrite mark_blocked_steps.
  rewrite (array_loop_rd _ _ 0 (Some 1)).
  - destruct (existsb _ blocked); [reflexivity|].
    rewrite clear_obstacles_steps.
    change (ii + jj * nx params) with (cell_ix params (jj, ii)).
    rewrite array_loop_hit; [reflexivity| | |].
    + apply in_cell_list. tauto.
    + intros k' Hk'. apply cell_ix_inj; [apply in_cell_list; tauto | exact Hk'].
    + rewrite Hlen. unfold cell_ix. cbn [fst snd]. lia.
  - reflexivity.
  - rewrite clear_obstacles_steps, array_loop_length, Hlen. lia.
Qed.

Lemma initialise_streamed params blocked fresh_cells fresh_tmp fresh_obst jj ii d :
  sized params fresh_cells ->
  0 <= jj < ny params -> 0 <= ii < nx params ->
  sp d (propagate params
          (cells (initialise params blocked fresh_cells fresh_tmp fresh_obst)) jj ii)
  = initial_value params d.
Proof.
  intros Hs Hj Hi. rewrite propagate_neighbour by assumption.
  unfold neighbour, cell_ix. cbn [fst snd].
  apply initialise_cell_value; [exact Hs| |]; apply Z.mod_pos_bound; lia.
Qed.

(** X2.  Whatever the freshly allocated arrays hold, after [initialise]
    every cell of the main grid holds [density*4/9] for the rest speed,
    [density/9] for the four axis speeds and [density/36] for the four
    diagonals; the scratch grid is the fresh one, untouched; and the grids
    are well formed. *)
Theorem X2_initialise_cells params blocked fresh_cells fresh_tmp (fresh_obst : list Z) :
  0 < nx params -> 0 < ny params -> nx params * ny params <= int_max ->
  sized params fresh_cells -> sized params fresh_tmp ->
  length fresh_obst = Z.to_nat (nx params * ny params) ->
  let g := initialise params blocked fresh_cells fresh_tmp fresh_obst in
  wf params g /\
  tmp_cells g = fresh_tmp /\
  forall jj ii, 0 <= jj < ny params -> 0 <= ii < nx params ->
    cell_at (cells g) (ii + jj * nx params)
    = {| v0 := fdiv (fmul (density params) (of_int 4)) (of_int 9);
         v1 := fdiv (density params) (of_int 9);
         v2 := fdiv (density params) (of_int 9);
         v3 := fdiv (density params) (of_int 9);
         v4 := fdiv (density params) (of_int 9);
         v5 := fdiv (density params) (of_int 36);
         v6 := fdiv (density params) (of_int 36);
         v7 := fdiv (density params) (of_int 36);
         v8 := fdiv (density params) (of_int 36) |}.
Proof.
  intros Hnx Hny Hmax Hs Ht Ho. cbn zeta. split; [|split].
  - unfold wf. split_conj; trivial.
    + apply initialise_sized, Hs.
    + rewrite initialise_obstacles_length. exact Ho.
  - reflexivity.
  - intros jj ii Hj Hi. apply t_speed_ext. intros d.
    rewrite sp_cell_at, initialise_cell_value by assumption.
    destruct d; reflexivity.
Qed.

(** X3.  After [initialise], when every listed pair [(xx, yy)] lies in the
    grid, the obstacle map holds 1 at exactly the listed cells and 0 at
    every other cell of the grid, whatever the fresh array held. *)
Theorem X3_initialise_obstacles params blocked fresh_cells fresh_tmp (fresh_obst : list Z) :
  length fresh_obst = Z.to_nat (nx params * ny params) ->
  Forall (fun p => 0 <= fst p < nx params /\ 0 <= snd p < ny params) blocked ->
  let g := initialise params blocked fresh_cells fresh_tmp fresh_obst in
  forall jj ii, 0 <= jj < ny params -> 0 <= ii < nx params ->
    rd 0 (obstacles g) (ii + jj * nx params)
    = if existsb (fun p => (fst p =? ii) && (snd p =? jj)) blocked then 1 else 0.
Proof.
  intros Hlen Hin. cbn zeta. intros jj ii Hj Hi.
  rewrite initialise_obstacle_value by assumption.
  replace (existsb (fun p => fst p + snd p * nx params =? ii + jj * nx params) blocked)
    with (existsb (fun p => (fst p =? ii) && (snd p =? jj)) blocked); [reflexivity|].
  induction Hin as [|[xx yy] l [Hx Hy] _ IH]; [reflexivity|].
  cbn [existsb fst snd] in *. rewrite IH. f_equal.
  destruct (Z.eqb_spec (xx + yy * nx params) (ii + jj * nx params)) as [He|He].
  - destruct (cell_index_inj _ _ _ _ _ Hx Hi He) as [-> ->].
    now rewrite !Z.eqb_refl.
  - destruct (Z.eqb_spec xx ii) as [->|]; [|reflexivity].
    destruct (Z.eqb_spec yy jj) as [->|]; [contradiction|reflexivity].
Qed.

(** ** The obstacle file *)

Lemma obstacle_line_check_ok params e :
  obstacle_line_check params e = None <-> valid_line params e.
Proof.
  destruct e as [[xx yy] b]. unfold obstacle_line_check, valid_line. cbn [fst snd].
  destruct (Z.ltb_spec xx 0), (Z.gtb_spec xx (nx params - 1)),
    (Z.ltb_spec yy 0), (Z.gtb_spec yy (ny params - 1)), (Z.eqb_spec b 1);
    cbn; split; intros; try discriminate; try lia; reflexivity.
Qed.

Lemma load_obstacles_valid params entries (o : list Z) :
  Forall (valid_line params) entries ->
  load_obstacles params entries o
  = inr (fold_left (fun o p => wr o (fst p + snd p * nx params) 1) (map fst entries) o).
Proof.
  intros Hv. revert o. induction Hv as [|e l He _ IH]; intros o; [reflexivity|].
  cbn [load_obstacles map fold_left].
  rewrite (proj2 (obstacle_line_check_ok params e) He).
  destruct e as [[xx yy] b]. destruct He as (_ & _ & Hb). cbn [fst snd] in *. subst b.
  apply IH.
Qed.

Lemma load_obstacles_first_error params good e rest msg (o : list Z) :
  Forall (valid_line params) good ->
  obstacle_line_check params e = Some msg ->
  load_obstacles params (good ++ e :: rest) o = inl msg.
Proof.
  intros Hv He. revert o. induction Hv as [|e0 l He0 _ IH]; intros o.
  - cbn [app load_obstacles]. now rewrite He.
  - cbn [app load_obstacles].
    rewrite (proj2 (obstacle_line_check_ok params e0) He0).
    destruct e0 as [[xx yy] b]. apply IH.
Qed.

Lemma load_obstacles_success params entries (o o' : list Z) :
  load_obstacles params entries o = inr o' -> Forall (valid_line params) entries.
Proof.
  revert o. induction entries as [|e l IH]; intros o Hl; [constructor|].
  cbn [load_obstacles] in Hl.
  destruct (obstacle_line_check params e) eqn:He; [discriminate|].
  constructor; [apply obstacle_line_check_ok, He|].
  destruct e as [[xx yy] b]. exact (IH _ Hl).
Qed.

(** X4.  Reading the obstacle file succeeds exactly when every line has
    [0 <= xx <= nx-1], [0 <= yy <= ny-1] and [blocked = 1]; it then marks
    the listed cells with 1, as [initialise] does, and every index it
    writes lies inside the obstacle array.  Otherwise the program dies with
    the message of the first offending line, whatever follows it. *)
Theorem X4_load_obstacles params entries (o : list Z) :
  (Forall (valid_line params) entries <->
   exists o', load_obstacles params entries o = inr o') /\
  (Forall (valid_line params) entries ->
   load_obstacles params entries o
   = inr (fold_left (fun o p => wr o (fst p + snd p * nx params) 1)
            (map fst entries) o)
   /\ Forall (fun p => 0 <= fst p + snd p * nx params < nx params * ny params)
        (map fst entries)) /\
  (forall good e rest msg,
     entries = good ++ e :: rest ->
     Forall (valid_line params) good ->
     obstacle_line_check params e = Some msg ->
     load_obstacles params entries o = inl msg).
Proof.
  split; [split|split].
  - intros Hv. eexists. apply load_obstacles_valid, Hv.
  - intros [o' Ho']. eapply load_obstacles_success, Ho'.
  - intros Hv. split; [apply load_obstacles_valid, Hv|].
    apply Forall_map. eapply Forall_impl; [exact Hv|].
    intros [[xx yy] b] (Hx & Hy & _). cbn [fst snd] in *.
    apply cell_index_bound; lia.
  - intros good e rest msg -> Hv He. now apply load_obstacles_first_error.
Qed.

(** ** Reflection at an obstacle *)

Lemma rebound_arr (prop : t_speed F) i tmp d :
  arr d (rebound prop i tmp)
  = match d with
    | C0 => arr C0 tmp
    | _ => wr (arr d tmp) i (sp (opposite d) prop)
    end.
Proof. destruct d; reflexivity. Qed.

(** X5.  The stores of the obstacle branch put, for each of the eight
    moving speeds, the streamed value of the opposite speed into the cell,
    and touch neither the rest value nor any other cell; reflecting the
    reflected values once more gives back the streamed values of the eight
    moving speeds. *)
Theorem X5_rebound_involution (prop : t_speed F) i tmp tmp' :
  (forall d, 0 <= i < Z.of_nat (length (arr d tmp))) ->
  (forall d, 0 <= i < Z.of_nat (length (arr d tmp'))) ->
  let once := cell_at (rebound prop i tmp) i in
  let twice := cell_at (rebound once i tmp') i in
  (forall d, d <> C0 -> sp d once = sp (opposite d) prop) /\
  (forall d, d <> C0 -> sp d twice = sp d prop) /\
  sp C0 once = sp C0 (cell_at tmp i) /\
  (forall d j, j <> i -> rdf (arr d (rebound prop i tmp)) j = rdf (arr d tmp) j).
Proof.
  intros Hi Hi'. cbn zeta.
  assert (Honce : forall (v : t_speed F) t, (forall d, 0 <= i < Z.of_nat (length (arr d t))) ->
            forall d, d <> C0 -> sp d (cell_at (rebound v i t) i) = sp (opposite d) v).
  { intros v t Ht d Hd. rewrite sp_cell_at, rebound_arr. unfold rdf.
    destruct d; try contradiction; apply rd_wr_eq, Ht. }
  split; [|split; [|split]].
  - apply Honce, Hi.
  - intros d Hd. rewrite (Honce _ _ Hi' d Hd).
    rewrite (Honce _ _ Hi (opposite d)); destruct d; try reflexivity; try discriminate.
    contradiction.
  - reflexivity.
  - intros d j Hj. rewrite rebound_arr. unfold rdf.
    destruct d; try reflexivity; apply rd_wr_ne, Hj.
Qed.

(** ** accelerate_flow never sends a density that is not positive *)

(** X6.  After [accelerate_flow], every cell either holds the nine values
    it held before, or its W, NW and SW values compare strictly greater
    than zero. *)
Theorem X6_accelerate_keeps_positive params g i :
  wf params g -> 2 <= ny params ->
  let v := cell_at (cells g) i in
  let v' := cell_at (cells (accelerate_flow params g)) i in
  v' = v \/
  (fgt (v3 v') f0 = true /\ fgt (v6 v') f0 = true /\ fgt (v7 v') f0 = true).
Proof.
  intros Hwf Hny. cbn zeta.
  destruct (accelerate_flow_spec params g Hwf Hny) as (_ & _ & _ & _ & _ & _ & Hv).
  rewrite Hv. destruct (in_row params (ny params - 2) i); [|left; reflexivity].
  cbn [andb].
  destruct (accel_guard _ _ _ _) eqn:Hg; [|left; reflexivity].
  right. unfold accel_guard in Hg.
  apply andb_true_iff in Hg as [Hg H7]. apply andb_true_iff in Hg as [Hg H6].
  apply andb_true_iff in Hg as [_ H3].
  unfold accel_update. cbn [v3 v6 v7]. tauto.
Qed.

(** ** What timestep needs from the scratch grid *)

Lemma accelerate_cell_indep params aw1 aw2 jj g g' ii :
  cells g = cells g' -> obstacles g = obstacles g' ->
  cells (accelerate_cell params aw1 aw2 jj g ii)
  = cells (accelerate_cell params aw1 aw2 jj g' ii) /\
  obstacles (accelerate_cell params aw1 aw2 jj g ii)
  = obstacles (accelerate_cell params aw1 aw2 jj g' ii).
Proof.
  destruct g as [c t o], g' as [c' t' o']. cbn [cells obstacles].
  intros <- <-. unfold accelerate_cell. cbn [cells obstacles tmp_cells].
  destruct (_ && _); split; reflexivity.
Qed.

Lemma accelerate_flow_indep params g g' :
  cells g = cells g' -> obstacles g = obstacles g' ->
  cells (accelerate_flow params g) = cells (accelerate_flow params g').
Proof.
  unfold accelerate_flow. generalize (range (nx params)) as l. intros l.
  revert g g'. induction l as [|ii l IH]; intros g g' Hc Ho; cbn [fold_left]; [exact Hc|].
  destruct (accelerate_cell_indep params (accel_w1 params) (accel_w2 params)
              (ny params - 2) g g' ii Hc Ho) as [Hc' Ho'].
  apply IH; assumption.
Qed.

(** Every index of an array of the grid is the index of a cell. *)
Lemma index_is_cell params i :
  0 < nx params -> 0 <= i < nx params * ny params ->
  exists jj ii, 0 <= jj < ny params /\ 0 <= ii < nx params /\ i = ii + jj * nx params.
Proof.
  intros Hnx Hi. exists (i / nx params), (i mod nx params).
  pose proof (Z.mod_pos_bound i (nx params) Hnx).
  pose proof (Z.div_mod i (nx params) ltac:(lia)).
  split; [|split; [assumption|lia]].
  split; [apply Z.div_pos; lia|]. apply Z.div_lt_upper_bound; lia.
Qed.

(** X7.  [timestep] overwrites the whole scratch grid except the rest value
    of the blocked cells: on two well-formed inputs with the same current
    grid and obstacle map, whose scratch grids agree on the rest value at
    every blocked cell, it produces the same grids and the same average
    velocity, whatever else the scratch grids hold. *)
Theorem X7_timestep_scratch_independent params g g' :
  wf params g -> wf params g' ->
  cells g = cells g' -> obstacles g = obstacles g' ->
  (forall jj ii, 0 <= jj < ny params -> 0 <= ii < nx params ->
     rd 0 (obstacles g) (ii + jj * nx params) <> 0 ->
     rdf (s0 (tmp_cells g)) (ii + jj * nx params)
     = rdf (s0 (tmp_cells g')) (ii + jj * nx params)) ->
  timestep params g = timestep params g'.
Proof.
  intros Hwf Hwf' Hc Ho Hs0.
  pose proof (accelerate_flow_indep params g g' Hc Ho) as Hac.
  destruct (accelerate_flow_frame params g) as [Hao Hat].
  destruct (accelerate_flow_frame params g') as [Hao' Hat'].
  assert (Hred : tot_cells (stream_collide params (accelerate_flow params g))
                 = tot_cells (stream_collide params (accelerate_flow params g')) /\
                 tot_u (stream_collide params (accelerate_flow params g))
                 = tot_u (stream_collide params (accelerate_flow params g'))).
  { destruct (stream_collide_reduction params (accelerate_flow params g)) as [-> ->].
    destruct (stream_collide_reduction params (accelerate_flow params g')) as [-> ->].
    rewrite Hac, Hao, Hao', Ho. split; reflexivity. }
  assert (Htmp : tmp_cells (fst (timestep params g)) = tmp_cells (fst (timestep params g'))).
  { apply t_speeds_ext. intros d.
    pose proof Hwf as (Hnx & Hny & _ & _ & Ht & _).
    pose proof Hwf' as (_ & _ & _ & _ & Ht' & _).
    assert (Hl : length (arr d (tmp_cells (fst (timestep params g))))
                 = Z.to_nat (nx params * ny params)).
    { unfold timestep. cbn [fst tmp_cells]. apply stream_collide_sized.
      rewrite Hat. exact Ht. }
    assert (Hl' : length (arr d (tmp_cells (fst (timestep params g'))))
                  = Z.to_nat (nx params * ny params)).
    { unfold timestep. cbn [fst tmp_cells]. apply stream_collide_sized.
      rewrite Hat'. exact Ht'. }
    apply (rd_ext f0); [congruence|].
    intros i Hi. rewrite Hl in Hi.
    destruct (index_is_cell params i Hnx ltac:(lia)) as (jj & ii & Hj & Hii & ->).
    pose proof (timestep_cell_value params g jj ii d Hwf Hj Hii) as Hv.
    pose proof (timestep_cell_value params g' jj ii d Hwf' Hj Hii) as Hv'.
    cbn zeta in Hv, Hv'. unfold rdf in Hv, Hv'. rewrite Hv, Hv', Hac, <- Ho.
    destruct (Z.eqb_spec (rd 0 (obstacles g) (ii + jj * nx params)) 0) as [He|He];
      [reflexivity|].
    destruct d; try reflexivity. apply Hs0; assumption. }
  destruct Hred as [Hn Hu].
  unfold timestep in *. cbn [fst tmp_cells] in Htmp.
  rewrite Htmp, Hn, Hu, Hac, Hao, Hao', Ho. reflexivity.
Qed.

(** ** The average velocity timestep returns *)

Lemma length_range (n : Z) : length (range n) = Z.to_nat n.
Proof. unfold range. now rewrite length_map, length_seq. Qed.

Lemma length_cell_list params :
  length (cell_list params) = (Z.to_nat (ny params) * Z.to_nat (nx params))%nat.
Proof.
  unfold cell_list. rewrite <- (length_range (ny params)), <- (length_range (nx params)).
  generalize (range (ny params)) as rows. generalize (range (nx params)) as cols.
  intros cols rows. induction rows as [|r rows IH]; cbn [flat_map length]; [reflexivity|].
  rewrite length_app, IH, length_map. reflexivity.
Qed.

(** X8.  The counter of the loop nest of [timestep] ends at the number of
    open cells (integer additions: the order of the reduction does not
    matter), so on a grid with [nx, ny > 0] it stays within [0, nx*ny].
    [tot_u] receives one term per open cell, [sqrt (u_x^2 + u_y^2)] of the
    values streamed into the cell, and none for a blocked cell.  The order
    in which the terms are added is left open by the source; adding them
    in loop order, as the function [timestep] does, gives one of the
    admitted results, and the value returned is [tot_u / (float)tot_cells]. *)
Theorem X8_timestep_average params g :
  let g1 := accelerate_flow params g in
  let st := stream_collide params g1 in
  tot_cells st = Z.of_nat (length (open_cells params (obstacles g))) /\
  (0 < nx params -> 0 < ny params -> 0 <= tot_cells st <= nx params * ny params) /\
  tot_u_terms params g1
  = map (fun k => fsqrt (vel_sq (propagate params (cells g1) (fst k) (snd k))))
      (open_cells params (obstacles g)) /\
  reduction_of (tot_u_terms params g1) (tot_u st) /\
  timestep_returns params g (tot_u st) (snd (timestep params g)) /\
  snd (timestep params g) = fdiv (tot_u st) (of_int (tot_cells st)).
Proof.
  cbn zeta.
  destruct (stream_collide_reduction params (accelerate_flow params g)) as [Hn Hu].
  destruct (accelerate_flow_frame params g) as [Ho _].
  pose proof (timestep_returns_loop_order params g) as Hret.
  split_conj.
  - rewrite Hn, Ho. reflexivity.
  - intros Hnx Hny. rewrite Hn, Ho. split; [lia|].
    unfold open_cells.
    pose proof (List.filter_length_le (is_open params (obstacles g)) (cell_list params)) as Hle.
    rewrite length_cell_list in Hle. nia.
  - unfold tot_u_terms. rewrite Ho. reflexivity.
  - exact (proj1 Hret).
  - exact Hret.
  - reflexivity.
Qed.

(** ** The timestep loop of main *)

Lemma run_invariants params g (n : nat) :
  wf params g -> 2 <= ny params ->
  wf params (run n params g) /\ obstacles (run n params g) = obstacles g.
Proof.
  revert g. induction n as [|n IH]; intros g Hwf Hny; [split; trivial|].
  cbn [run].
  destruct (IH (fst (iteration params g)) (iteration_wf params g Hwf Hny) Hny) as [Hw Ho].
  split; [exact Hw|]. rewrite Ho, iteration_grids. cbn [obstacles].
  apply accelerate_flow_frame.
Qed.

Lemma time_loop_spec params (n : nat) tt g (av_vels : list F) :
  0 <= tt -> tt + Z.of_nat n <= Z.of_nat (length av_vels) ->
  let res := time_loop params n tt g av_vels in
  fst res = run n params g /\
  length (snd res) = length av_vels /\
  (forall k : nat, (k < n)%nat ->
     rdf (snd res) (tt + Z.of_nat k) = snd (timestep params (run k params g))) /\
  (forall j, j < tt \/ tt + Z.of_nat n <= j -> rdf (snd res) j = rdf av_vels j).
Proof.
  revert tt g av_vels. induction n as [|n IH]; intros tt g av_vels Htt Hlen; cbn zeta.
  - cbn [time_loop run fst snd]. split_conj; trivial. intros k Hk. lia.
  - cbn [time_loop run]. unfold iteration.
    destruct (timestep params g) as [g' av] eqn:Hts. cbn [fst].
    destruct (IH (tt + 1) (swap g') (wr av_vels tt av) ltac:(lia)
                ltac:(rewrite length_wr; lia)) as (Hg & Hl & Hk & Hj).
    split_conj.
    + exact Hg.
    + rewrite Hl. apply length_wr.
    + intros [|k] Hlt.
      * rewrite Z.add_0_r, Hj by lia. cbn [run]. rewrite Hts. cbn [snd].
        unfold rdf. apply rd_wr_eq. lia.
      * replace (tt + Z.of_nat (S k)) with (tt + 1 + Z.of_nat k) by lia.
        rewrite Hk by lia. cbn [run]. unfold iteration. rewrite Hts. reflexivity.
    + intros j Hjr. rewrite Hj by lia. unfold rdf. apply rd_wr_ne. lia.
Qed.



(** ** The final state file *)

Lemma fold_left_snoc {K R : Type} (f : K -> R) (l : list K) (out : list R) :
  fold_left (fun out k => out ++ [f k]) l out = out ++ map f l.
Proof.
  revert out. induction l as [|k l IH]; intros out; cbn [fold_left map].
  - now rewrite app_nil_r.
  - rewrite IH, <- app_assoc. reflexivity.
Qed.

Lemma write_values_cells_map params c (obst : list Z) :
  write_values_cells params c obst
  = map (fun k => write_values_cell params c obst (fst k) (snd k)) (cell_list params).
Proof.
  unfold write_values_cells.
  rewrite (fold_nested (fun jj out ii => out ++ [write_values_cell params c obst jj ii])).
  exact (fold_left_snoc (fun k => write_values_cell params c obst (fst k) (snd k)) _ []).
Qed.

Lemma write_values_cell_flag params c (obst : list Z) k :
  rep_obstacle (write_values_cell params c obst (fst k) (snd k))
  = rd 0 obst (cell_ix params k).
Proof.
  unfold write_values_cell, cell_ix. rewrite (Z.mul_comm (nx params) (fst k)).
  destruct (negb _); reflexivity.
Qed.

Lemma write_values_cell_open params c (obst : list Z) k :
  is_open params obst k = true ->
  rep_u (write_values_cell params c obst (fst k) (snd k))
  = av_cell_speed c (cell_ix params k).
Proof.
  unfold is_open, cell_ix, write_values_cell. intros ->. reflexivity.
Qed.

Lemma filter_map_comm {A B : Type} (f : A -> B) (p : B -> bool) (l : list A) :
  List.filter p (map f l) = map f (List.filter (fun a => p (f a)) l).
Proof.
  induction l as [|a l IH]; cbn [map List.filter]; [reflexivity|].
  destruct (p (f a)); cbn [map]; now rewrite IH.
Qed.

(** X10.  [write_values] prints one line per cell, in loop order.  A line
    of a blocked cell reports the velocity components and the speed as 0
    and the pressure as [density * (1/3)].  The speeds of the lines whose
    obstacle flag is 0, summed in file order and divided by the number of
    such lines, are the value [av_velocity] returns for the same grid. *)
Theorem X10_write_values params c (obst : list Z) :
  let lines := write_values_cells params c obst in
  let open_lines := List.filter (fun r => rep_obstacle r =? 0) lines in
  lines = map (fun k => write_values_cell params c obst (fst k) (snd k))
            (cell_list params) /\
  length lines = (Z.to_nat (ny params) * Z.to_nat (nx params))%nat /\
  (forall r, In r lines -> rep_obstacle r <> 0 ->
     rep_u_x r = f0 /\ rep_u_y r = f0 /\ rep_u r = f0 /\
     rep_pressure r = fmul (density params) (fdiv f1 (of_int 3))) /\
  av_velocity params c obst
  = fdiv (fold_left fadd (map rep_u open_lines) f0)
         (of_int (Z.of_nat (length open_lines))).
Proof.
  cbn zeta. rewrite write_values_cells_map. split_conj.
  - reflexivity.
  - rewrite length_map. apply length_cell_list.
  - intros r Hr Hflag. apply in_map_iff in Hr as (k & <- & _).
    rewrite write_values_cell_flag in Hflag.
    unfold write_values_cell. fold (cell_ix params k).
    apply Z.eqb_neq in Hflag. rewrite Hflag. cbn. tauto.
  - rewrite filter_map_comm.
    assert (Hf : List.filter
                   (fun k => rep_obstacle (write_values_cell params c obst (fst k) (snd k)) =? 0)
                   (cell_list params)
                 = open_cells params obst).
    { unfold open_cells. apply List.filter_ext. intros k.
      now rewrite write_values_cell_flag. }
    rewrite Hf, length_map, map_map.
    unfold av_velocity. rewrite av_velocity_loop_spec. cbn [fst snd].
    rewrite fold_left_map_add. do 2 f_equal.
    apply map_ext_in. intros k Hk.
    symmetry. apply write_values_cell_open.
    unfold open_cells in Hk. apply List.filter_In in Hk. tauto.
Qed.

(** ** Streaming moves values, it neither loses nor copies them *)

Lemma NoDup_cells params : List.NoDup (cell_list params).
Proof.
  unfold cell_list.
  pose proof (NoDup_range (ny params)) as Hr. revert Hr.
  generalize (range (ny params)) as rows.
  induction rows as [|jj rows IH]; intros Hr; cbn [flat_map]; [constructor|].
  inversion Hr as [|? ? Hni Hr']; subst.
  apply List.NoDup_app.
  - apply Finite.Injective_map_NoDup; [|apply NoDup_range].
    intros a b Hab. congruence.
  - apply IH, Hr'.
  - intros k Hk Hk'.
    apply in_map_iff in Hk as (i & <- & _).
    apply in_flat_map in Hk' as (j & Hj & Hin).
    apply in_map_iff in Hin as (i' & Heq & _). inversion Heq; subst. contradiction.
Qed.

Lemma wrap_back (n a o : Z) : 0 <= a < n -> ((a - o) mod n + o) mod n = a.
Proof.
  intros Ha. rewrite Zplus_mod_idemp_l.
  replace (a - o + o) with a by lia. apply Z.mod_small, Ha.
Qed.

Lemma neighbour_permutes params d :
  0 < nx params -> 0 < ny params ->
  Permutation (map (neighbour params d) (cell_list params)) (cell_list params).
Proof.
  intros Hnx Hny. apply NoDup_Permutation_bis.
  - apply Finite.Injective_map_NoDup_in; [|apply NoDup_cells].
    intros [jj ii] [jj' ii'] Hk Hk' Heq.
    apply in_cell_list in Hk as [Hj Hi]. apply in_cell_list in Hk' as [Hj' Hi'].
    unfold neighbour in Heq. cbn [fst snd] in Heq. inversion Heq as [[Hy Hx]].
    rewrite <- (wrap_back (ny params) jj (off_y d) Hj), Hy, wrap_back by exact Hj'.
    rewrite <- (wrap_back (nx params) ii (off_x d) Hi), Hx, wrap_back by exact Hi'.
    reflexivity.
  - rewrite length_map. reflexivity.
  - intros k Hk. apply in_map_iff in Hk as ([jj ii] & <- & _).
    apply in_cell_list. unfold neighbour. cbn [fst snd].
    split; apply Z.mod_pos_bound; assumption.
Qed.

(** X11.  For each speed, the values streamed into the cells of the grid
    are the values the grid held for that speed, rearranged: streaming is a
    permutation of the cells, for any grid size with [nx, ny > 0]. *)
Theorem X11_streaming_permutes params c d :
  0 < nx params -> 0 < ny params ->
  Permutation
    (map (fun k => sp d (propagate params c (fst k) (snd k))) (cell_list params))
    (map (fun k => sp d (cell_at c (cell_ix params k))) (cell_list params)).
Proof.
  intros Hnx Hny.
  replace (map (fun k => sp d (propagate params c (fst k) (snd k))) (cell_list params))
    with (map (fun k => sp d (cell_at c (cell_ix params k)))
            (map (neighbour params d) (cell_list params))).
  - apply Permutation_map, neighbour_permutes; assumption.
  - rewrite map_map. apply map_ext_in. intros [jj ii] Hk.
    apply in_cell_list in Hk as [Hj Hi]. cbn [fst snd].
    rewrite sp_cell_at. symmetry. apply propagate_neighbour; assumption.
Qed.

End MoreKernelFacts.

(** * Further properties in exact arithmetic *)

Section MoreRealFacts.

Implicit Types (params : t_param R) (g : grids R) (prop : t_speed R).

(** The equilibrium values carry the momentum [rho * u] of the values
    they are computed from. *)
Lemma d_equ_momentum prop :
  let e := d_equ prop in
  (v1 e + v5 e + v8 e - (v3 e + v6 e + v7 e) = local_density prop * vel_x prop)%R /\
  (v2 e + v5 e + v6 e - (v4 e + v7 e + v8 e) = local_density prop * vel_y prop)%R.
Proof.
  cbn zeta. unfold d_equ, vel_sq.
  generalize (vel_x prop) (vel_y prop) (local_density prop). intros ux uy rho.
  cbn [v0 v1 v2 v3 v4 v5 v6 v7 v8].
  unfold equ_term, w0, w1, w2, c_lat, f1, f0_5, f1_5, of_int. simpl. split; field.
Qed.

Lemma collision_momentum params prop :
  local_density prop <> 0%R ->
  vel_x (collision params prop) = vel_x prop /\
  vel_y (collision params prop) = vel_y prop.
Proof.
  intros Hrho.
  destruct (d_equ_momentum prop) as [Hx Hy]. cbn zeta in Hx, Hy.
  assert (Hux : (local_density prop * vel_x prop
                 = v1 prop + v5 prop + v8 prop - (v3 prop + v6 prop + v7 prop))%R).
  { unfold vel_x. cbn [fdiv fsub fadd real_arith]. field. exact Hrho. }
  assert (Huy : (local_density prop * vel_y prop
                 = v2 prop + v5 prop + v6 prop - (v4 prop + v7 prop + v8 prop))%R).
  { unfold vel_y. cbn [fdiv fsub fadd real_arith]. field. exact Hrho. }
  rewrite Hux in Hx. rewrite Huy in Hy.
  unfold vel_x at 1, vel_y at 1. rewrite collision_sum.
  unfold vel_x, vel_y. unfold collision.
  revert Hx Hy. generalize (d_equ prop) as e. intros e Hx Hy.
  unfold relax. cbn [v0 v1 v2 v3 v4 v5 v6 v7 v8 fadd fsub fmul fdiv real_arith] in *.
  set (om := omega params). split; f_equal.
  - transitivity
      ((v1 prop + v5 prop + v8 prop - (v3 prop + v6 prop + v7 prop))
       + om * ((v1 e + v5 e + v8 e - (v3 e + v6 e + v7 e))
               - (v1 prop + v5 prop + v8 prop - (v3 prop + v6 prop + v7 prop))))%R.
    + ring.
    + rewrite Hx. ring.
  - transitivity
      ((v2 prop + v5 prop + v6 prop - (v4 prop + v7 prop + v8 prop))
       + om * ((v2 e + v5 e + v6 e - (v4 e + v7 e + v8 e))
               - (v2 prop + v5 prop + v6 prop - (v4 prop + v7 prop + v8 prop))))%R.
    + ring.
    + rewrite Hy. ring.
Qed.

Lemma d_equ_depends prop prop' :
  local_density prop = local_density prop' ->
  vel_x prop = vel_x prop' -> vel_y prop = vel_y prop' ->
  d_equ prop = d_equ prop'.
Proof. intros Hr Hx Hy. unfold d_equ, vel_sq. rewrite Hr, Hx, Hy. reflexivity. Qed.

Lemma collision_vel_sq params prop :
  local_density prop <> 0%R -> vel_sq (collision params prop) = vel_sq prop.
Proof.
  intros Hrho. destruct (collision_momentum params prop Hrho) as [Hx Hy].
  unfold vel_sq. rewrite Hx, Hy. reflexivity.
Qed.

Lemma d_equ_idempotent prop :
  local_density prop <> 0%R -> d_equ (d_equ prop) = d_equ prop.
Proof.
  intros Hrho. destruct (d_equ_momentum prop) as [Hx Hy]. cbn zeta in Hx, Hy.
  pose proof (d_equ_sum prop) as Hs.
  apply d_equ_depends; [exact Hs| |].
  - unfold vel_x at 1. rewrite Hs. cbn [fdiv fsub fadd real_arith]. rewrite Hx.
    field. exact Hrho.
  - unfold vel_y at 1. rewrite Hs. cbn [fdiv fsub fadd real_arith]. rewrite Hy.
    field. exact Hrho.
Qed.

Lemma relax_same (om p : R) : relax om p p = p.
Proof. unfold relax. cbn [fadd fsub fmul real_arith]. ring. Qed.

(** X12.  Over the reals, for streamed values of non-zero density, the
    collide step (the relaxation of [timestep]) keeps the density and both
    velocity components of the cell, for every omega; the equilibrium
    values of the result are those of the input, and a cell that already
    holds its equilibrium values is left as it is. *)
Theorem X12_collision_invariants params prop :
  local_density prop <> 0%R ->
  local_density (collision params prop) = local_density prop /\
  vel_x (collision params prop) = vel_x prop /\
  vel_y (collision params prop) = vel_y prop /\
  d_equ (collision params prop) = d_equ prop /\
  collision params (d_equ prop) = d_equ prop.
Proof.
  intros Hrho. destruct (collision_momentum params prop Hrho) as [Hx Hy].
  pose proof (collision_sum params prop) as Hs.
  split_conj; trivial.
  - apply d_equ_depends; assumption.
  - apply t_speed_ext. intros d.
    rewrite sp_collision, d_equ_idempotent by exact Hrho. apply relax_same.
Qed.

(** ** The fused average *)

Lemma timestep_open_cell params g jj ii :
  wf params g -> 0 <= jj < ny params -> 0 <= ii < nx params ->
  rd 0 (obstacles g) (ii + jj * nx params) = 0 ->
  cell_at (tmp_cells (fst (timestep params g))) (ii + jj * nx params)
  = collision params (propagate params (cells (accelerate_flow params g)) jj ii).
Proof.
  intros Hwf Hj Hi Ho. apply t_speed_ext. intros d.
  rewrite sp_cell_at, sp_collision.
  pose proof (timestep_cell_value params g jj ii d Hwf Hj Hi) as Hv.
  cbn zeta in Hv. rewrite Hv, Ho. reflexivity.
Qed.

(** X13.  Over the reals, on a well-formed grid where no open cell
    receives density zero, the average velocity [timestep] returns (computed
    inside the fused loop from the streamed values, before the collide
    step) is the value [av_velocity] computes from the grid [timestep]
    wrote. *)
Theorem X13_fused_average params g :
  wf params g ->
  (forall jj ii, 0 <= jj < ny params -> 0 <= ii < nx params ->
     rd 0 (obstacles g) (ii + jj * nx params) = 0 ->
     local_density (propagate params (cells (accelerate_flow params g)) jj ii) <> 0%R) ->
  av_velocity params (tmp_cells (fst (timestep params g))) (obstacles g)
  = snd (timestep params g).
Proof.
  intros Hwf Hrho.
  unfold av_velocity. rewrite av_velocity_loop_spec. cbn [fst snd].
  unfold timestep at 2. cbn [snd].
  destruct (stream_collide_reduction params (accelerate_flow params g)) as [Hn Hu].
  destruct (accelerate_flow_frame params g) as [Ho _]. rewrite Ho in Hn, Hu.
  rewrite Hn, Hu. f_equal.
  rewrite (fold_left_map_add
             (fun k => av_cell_speed (tmp_cells (fst (timestep params g))) (cell_ix params k))).
  rewrite (fold_left_map_add
             (fun k => fsqrt (vel_sq (propagate params (cells (accelerate_flow params g))
                                        (fst k) (snd k))))).
  f_equal.
  apply map_ext_in. intros [jj ii] Hk.
  unfold open_cells in Hk. apply List.filter_In in Hk as [Hin Hopen].
  apply in_cell_list in Hin as [Hj Hi].
  unfold is_open, cell_ix in Hopen. cbn [fst snd] in Hopen. apply Z.eqb_eq in Hopen.
  unfold cell_ix. cbn [fst snd].
  rewrite av_cell_speed_exact, (timestep_open_cell params g jj ii Hwf Hj Hi Hopen).
  rewrite collision_vel_sq by (apply Hrho; assumption). reflexivity.
Qed.

(** ** Conservation of mass with forcing *)

Lemma accelerate_flow_mass params g :
  wf params g -> 2 <= ny params ->
  total_density params (cells (accelerate_flow params g))
  = total_density params (cells g).
Proof.
  intros Hwf Hny.
  destruct (accelerate_flow_spec params g Hwf Hny) as (_ & _ & _ & _ & _ & _ & Hv).
  rewrite !total_density_sum. f_equal. apply map_ext. intros k.
  rewrite Hv. destruct (_ && _); [|reflexivity].
  unfold accel_update, local_density.
  cbn [v0 v1 v2 v3 v4 v5 v6 v7 v8 fadd fsub real_arith]. ring.
Qed.

Lemma stream_collide_mass params g :
  wf params g -> 2 <= ny params -> scratch_agrees params g ->
  total_density params (tmp_cells (fst (timestep params g)))
  = total_density params (cells (accelerate_flow params g)).
Proof.
  intros Hwf Hny Hagree.
  pose proof Hwf as (Hnx & Hny0 & _).
  destruct (accelerate_flow_spec params g Hwf Hny) as (_ & _ & Hs0 & _).
  rewrite <- (streaming_conserves_mass params (cells (accelerate_flow params g)) Hnx Hny0).
  rewrite total_density_sum. f_equal. apply map_ext_in. intros [jj ii] Hk.
  apply in_cell_list in Hk as [Hj Hi]. cbn [fst snd].
  unfold cell_ix. cbn [fst snd].
  destruct (Z.eqb_spec (rd 0 (obstacles g) (ii + jj * nx params)) 0) as [Ho|Ho].
  - rewrite (timestep_open_cell params g jj ii Hwf Hj Hi Ho). apply collision_sum.
  - pose proof (fun d => timestep_cell_value params g jj ii d Hwf Hj Hi) as Hv.
    cbn zeta in Hv. apply Z.eqb_neq in Ho.
    pose proof (Hv C0) as H0. pose proof (Hv E1) as H1. pose proof (Hv N2) as H2.
    pose proof (Hv W3) as H3. pose proof (Hv S4) as H4. pose proof (Hv NE5) as H5.
    pose proof (Hv NW6) as H6. pose proof (Hv SW7) as H7. pose proof (Hv SE8) as H8.
    clear Hv. rewrite Ho in *. cbn [arr opposite sp] in *.
    unfold local_density at 1. cbn [cell_at v0 v1 v2 v3 v4 v5 v6 v7 v8].
    rewrite H0, H1, H2, H3, H4, H5, H6, H7, H8.
    rewrite (Hagree jj ii Hj Hi ltac:(apply Z.eqb_neq; exact Ho)), <- Hs0.
    change (rdf (s0 (cells (accelerate_flow params g))) (ii + jj * nx params))
      with (v0 (propagate params (cells (accelerate_flow params g)) jj ii)).
    unfold local_density. cbn [fadd real_arith]. ring.
Qed.

Lemma run_mass params g (n : nat) :
  wf params g -> 2 <= ny params -> scratch_agrees params g ->
  total_density params (cells (run n params g)) = total_density params (cells g).
Proof.
  revert g. induction n as [|n IH]; intros g Hwf Hny Hag; [reflexivity|].
  cbn [run]. rewrite IH; trivial.
  - rewrite iteration_grids. cbn [cells].
    rewrite stream_collide_mass, accelerate_flow_mass; trivial.
  - apply iteration_wf; trivial.
  - apply iteration_scratch_agrees; trivial.
Qed.

(** X14.  Over the reals, for any forcing [accel]: [accelerate_flow]
    leaves the total density as it is (what it adds to the east-side values
    of a cell it takes from the west-side values), and so do a whole
    [timestep] and any number of passes of the main loop, as long as the
    scratch grid starts with the rest values of the main grid at the
    blocked cells. *)
Theorem X14_mass_conserved_with_forcing params g :
  wf params g -> 2 <= ny params ->
  total_density params (cells (accelerate_flow params g))
  = total_density params (cells g) /\
  (scratch_agrees params g ->
   total_density params (tmp_cells (fst (timestep params g)))
   = total_density params (cells g) /\
   forall n : nat,
     total_density params (cells (run n params g)) = total_density params (cells g)).
Proof.
  intros Hwf Hny. split; [apply accelerate_flow_mass; trivial|].
  intros Hag. split.
  - rewrite stream_collide_mass, accelerate_flow_mass; trivial.
  - intros n. apply run_mass; trivial.
Qed.

(** ** The initial state without forcing *)

Lemma initial_cell_equilibrium params prop :
  density params <> 0%R ->
  (forall d, sp d prop = initial_value params d) ->
  local_density prop = density params /\ vel_sq prop = 0%R /\ d_equ prop = prop.
Proof.
  intros Hrho Hv.
  pose proof (Hv C0) as H0. pose proof (Hv E1) as H1. pose proof (Hv N2) as H2.
  pose proof (Hv W3) as H3. pose proof (Hv S4) as H4. pose proof (Hv NE5) as H5.
  pose proof (Hv NW6) as H6. pose proof (Hv SW7) as H7. pose proof (Hv SE8) as H8.
  unfold initial_value in *. cbn [sp class_of] in *.
  assert (Hd : local_density prop = density params).
  { unfold local_density. rewrite H0, H1, H2, H3, H4, H5, H6, H7, H8.
    unfold of_int. simpl. field. }
  assert (Hx : vel_x prop = 0%R).
  { unfold vel_x. rewrite Hd, H1, H3, H5, H6, H7, H8.
    unfold of_int. simpl. field. exact Hrho. }
  assert (Hy : vel_y prop = 0%R).
  { unfold vel_y. rewrite Hd, H2, H4, H5, H6, H7, H8.
    unfold of_int. simpl. field. exact Hrho. }
  assert (Hsq : vel_sq prop = 0%R).
  { unfold vel_sq. rewrite Hx, Hy. simpl. ring. }
  split; [exact Hd|]. split; [exact Hsq|].
  apply t_speed_ext. intros d. rewrite (Hv d).
  unfold d_equ. rewrite Hsq, Hx, Hy, Hd.
  destruct d; unfold initial_value, equ_term, w0, w1, w2, c_lat, f1, f0_5, f1_5, of_int;
    simpl; field.
Qed.

Lemma fold_left_zeros {K : Type} (f : K -> R) (l : list K) :
  (forall k, In k l -> f k = 0%R) ->
  fold_left (fun u k => fadd u (f k)) l 0%R = 0%R.
Proof.
  induction l as [|k l IH]; intros Hz; cbn [fold_left]; [reflexivity|].
  rewrite (Hz k) by (left; reflexivity).
  replace (fadd 0%R 0%R) with 0%R by (simpl; ring).
  apply IH. intros k' Hk'. apply Hz. right. exact Hk'.
Qed.

(** X15.  Over the reals, with a non-zero density and no forcing
    ([accel = 0]), the state [initialise] sets up is steady for every omega:
    [timestep] stores, for every cell and speed, the value the main grid
    already holds there (the rest speed of a blocked cell, which it does
    not store, apart), and when some cell is open the average velocity it
    returns is 0. *)
Theorem X15_initial_state_steady params blocked fresh_cells fresh_tmp (fresh_obst : list Z) :
  0 < nx params -> 2 <= ny params -> nx params * ny params <= int_max ->
  sized params fresh_cells -> sized params fresh_tmp ->
  length fresh_obst = Z.to_nat (nx params * ny params) ->
  density params <> 0%R -> accel params = 0%R ->
  let g := initialise params blocked fresh_cells fresh_tmp fresh_obst in
  (forall jj ii d, 0 <= jj < ny params -> 0 <= ii < nx params ->
     rd 0 (obstacles g) (ii + jj * nx params) = 0 \/ d <> C0 ->
     rdf (arr d (tmp_cells (fst (timestep params g)))) (ii + jj * nx params)
     = rdf (arr d (cells g)) (ii + jj * nx params)) /\
  (open_cells params (obstacles g) <> [] -> snd (timestep params g) = 0%R).
Proof.
  intros Hnx Hny Hmax Hs Ht Ho Hrho Hacc. cbn zeta.
  set (g := initialise params blocked fresh_cells fresh_tmp fresh_obst).
  assert (Hwf : wf params g).
  { unfold wf. split_conj; trivial; try lia.
    - apply initialise_sized, Hs.
    - unfold g. rewrite initialise_obstacles_length. exact Ho. }
  pose proof (accel_zero_id params g Hwf Hny Hacc) as Hid.
  assert (Hprop : forall jj ii, 0 <= jj < ny params -> 0 <= ii < nx params ->
            forall d, sp d (propagate params (cells g) jj ii) = initial_value params d).
  { intros jj ii Hj Hi d. apply initialise_streamed; assumption. }
  split.
  - intros jj ii d Hj Hi Hcase.
    pose proof (timestep_cell_value params g jj ii d Hwf Hj Hi) as Hv.
    cbn zeta in Hv. rewrite Hid in Hv. rewrite Hv.
    assert (Hcell : rdf (arr d (cells g)) (ii + jj * nx params) = initial_value params d)
      by (apply initialise_cell_value; assumption).
    rewrite Hcell.
    destruct (initial_cell_equilibrium params (propagate params (cells g) jj ii) Hrho
                (Hprop jj ii Hj Hi)) as (_ & _ & He).
    destruct (Z.eqb_spec (rd 0 (obstacles g) (ii + jj * nx params)) 0) as [Hopen|Hb].
    + rewrite He, relax_same. apply Hprop; assumption.
    + destruct Hcase as [Hopen|Hd]; [contradiction|].
      destruct d; try contradiction; rewrite (Hprop jj ii Hj Hi); reflexivity.
  - intros Hsome. unfold timestep. cbn [snd].
    destruct (stream_collide_reduction params (accelerate_flow params g)) as [Hn Hu].
    rewrite Hid in Hn, Hu. rewrite Hid, Hn, Hu.
    change (f0 (F:=R)) with (fconst (F:=R) 0 0).
    assert (Hz : (fconst (F:=R) 0 0) = 0%R) by (simpl; ring).
    rewrite Hz, fold_left_zeros.
    + cbn [fdiv real_arith]. unfold Rdiv. ring.
    + intros [jj ii] Hk. unfold open_cells in Hk. apply List.filter_In in Hk as [Hin _].
      apply in_cell_list in Hin as [Hj Hi]. cbn [fst snd].
      destruct (initial_cell_equilibrium params (propagate params (cells g) jj ii) Hrho
                  (Hprop jj ii Hj Hi)) as (_ & Hsq & _).
      rewrite Hsq. apply sqrt_0.
Qed.

End MoreRealFacts.

(** * Further properties in binary32 *)

Section MoreBinary32Facts.

Implicit Types (params : t_param spec_float) (g : grids spec_float).
Implicit Types (c : t_speeds spec_float) (prop : t_speed spec_float).
Implicit Types (x y : spec_float).

Lemma sign_fold_sqrt {K : Type} (f : K -> spec_float) (l : list K) x :
  is_negative x = false -> (forall k, is_negative (f k) = false) ->
  is_negative (fold_left (fun u k => fadd u (fsqrt (f k))) l x) = false.
Proof.
  intros Hx Hf. revert x Hx.
  induction l as [|k l IH]; intros x Hx; cbn [fold_left]; [exact Hx|].
  apply IH, sign_add; [exact Hx | apply sign_sqrt, Hf].
Qed.

(** X16.  In binary32, whatever the grid holds, the average velocity
    [av_velocity] returns does not compare below zero and is not negative:
    it is a NaN, [+0], a positive number or [+infinity].  The same holds for
    the speed [write_values] prints for any cell. *)
Theorem X16_speeds_never_negative params c (obst : list Z) :
  fgt f0 (av_velocity params c obst) = false /\
  is_negative (av_velocity params c obst) = false /\
  forall jj ii,
    fgt f0 (rep_u (write_values_cell params c obst jj ii)) = false /\
    is_negative (rep_u (write_values_cell params c obst jj ii)) = false.
Proof.
  assert (Hav : is_negative (av_velocity params c obst) = false).
  { unfold av_velocity. rewrite av_velocity_loop_spec. cbn [fst snd].
    apply sign_div; [|apply sign_of_int; lia].
    assert (Heq : fold_left (fun u k => fadd u (av_cell_speed c (cell_ix params k)))
                    (open_cells params obst) f0
                  = fold_left
                      (fun u k => fadd u (fsqrt (vel_sq (cell_at c (cell_ix params k)))))
                      (open_cells params obst) f0).
    { generalize (f0 (F:=spec_float)) as u. generalize (open_cells params obst) as l.
      induction l as [|k l IH]; intros u; cbn [fold_left]; [reflexivity|].
      rewrite av_cell_speed_vel_sq. apply IH. }
    rewrite Heq.
    apply (sign_fold_sqrt (fun k => vel_sq (cell_at c (cell_ix params k)))).
    - apply sign_of_int. lia.
    - intros k. apply sign_vel_sq. }
  assert (Hrep : forall jj ii,
            is_negative (rep_u (write_values_cell params c obst jj ii)) = false).
  { intros jj ii. unfold write_values_cell.
    destruct (negb _); cbn [rep_u]; [reflexivity|].
    apply sign_sqrt, sign_add; apply sign_mul_self. }
  split; [apply sign_not_below_zero, Hav|]. split; [exact Hav|].
  intros jj ii. split; [apply sign_not_below_zero, Hrep | apply Hrep].
Qed.

Lemma b32_viscosity_two :
  fmul (fdiv (F:=spec_float) f1 (of_int 6)) (fsub (fdiv (of_int 2) (of_int 2)) f1)
  = S754_zero false.
Proof. vm_compute. reflexivity. Qed.

Lemma div_by_zero_not_finite x : is_finite (fdiv x (S754_zero false)) = false.
Proof. destruct x as [s|s| |s m e]; reflexivity. Qed.

(** X17.  In binary32, with [omega = 2] the viscosity [calc_reynolds]
    divides by is [+0], and the Reynolds number it returns is never a
    finite number (an infinity or a NaN), whatever the grid holds. *)
Theorem X17_reynolds_at_omega_two params c (obst : list Z) :
  omega params = of_int 2 ->
  viscosity params = S754_zero false /\
  is_finite (calc_reynolds params c obst) = false.
Proof.
  intros Hom.
  assert (Hv : viscosity params = S754_zero false).
  { unfold viscosity. rewrite Hom. exact b32_viscosity_two. }
  split; [exact Hv|].
  unfold calc_reynolds. rewrite Hv. apply div_by_zero_not_finite.
Qed.

(** ** A cell without mass *)

Lemma b32_add_nan_r x : fadd x S754_nan = S754_nan.
Proof. destruct x as [s|s| |s m e]; reflexivity. Qed.

Lemma b32_mul_nan_r x : fmul x S754_nan = S754_nan.
Proof. destruct x as [s|s| |s m e]; reflexivity. Qed.

Lemma b32_fold_nan {K : Type} (f : K -> spec_float) (l : list K) :
  fold_left (fun u k => fadd u (f k)) l S754_nan = S754_nan.
Proof. induction l as [|k l IH]; cbn [fold_left]; [reflexivity | exact IH]. Qed.

Lemma b32_fold_poisoned {K : Type} (f : K -> spec_float) (l : list K) k x :
  In k l -> f k = S754_nan ->
  fold_left (fun u k => fadd u (f k)) l x = S754_nan.
Proof.
  revert x. induction l as [|k' l IH]; intros x Hin Hk; [destruct Hin|].
  cbn [fold_left]. destruct Hin as [->|Hin].
  - rewrite Hk, b32_add_nan_r. apply b32_fold_nan.
  - apply IH; assumption.
Qed.

Lemma b32_massless_cell :
  let z := S754_zero false in
  let prop := {| v0 := z; v1 := z; v2 := z; v3 := z; v4 := z;
                 v5 := z; v6 := z; v7 := z; v8 := z |} in
  fsqrt (vel_sq prop) = S754_nan /\
  forall d, fsub (sp d (d_equ prop)) z = S754_nan.
Proof. cbn zeta. split; [vm_compute; reflexivity|]. intros []; vm_compute; reflexivity. Qed.

(** X18.  In binary32, on a well-formed grid: when the nine values
    streamed into an open cell are all [+0], the velocity of the cell is
    [0/0]; [timestep] stores a NaN for each of the nine speeds of that cell
    and the average velocity it returns is a NaN, whatever the other cells
    hold.  The code has no guard against a cell without mass. *)
Theorem X18_massless_cell_gives_nan params g jj ii :
  wf params g -> 0 <= jj < ny params -> 0 <= ii < nx params ->
  rd 0 (obstacles g) (ii + jj * nx params) = 0 ->
  (forall d, sp d (propagate params (cells (accelerate_flow params g)) jj ii)
             = S754_zero false) ->
  (forall d, rdf (arr d (tmp_cells (fst (timestep params g)))) (ii + jj * nx params)
             = S754_nan) /\
  snd (timestep params g) = S754_nan.
Proof.
  intros Hwf Hj Hi Hopen Hz.
  destruct b32_massless_cell as [Hsq Heq]. cbn zeta in Hsq, Heq.
  assert (Hprop : propagate params (cells (accelerate_flow params g)) jj ii
                  = {| v0 := S754_zero false; v1 := S754_zero false; v2 := S754_zero false;
                       v3 := S754_zero false; v4 := S754_zero false; v5 := S754_zero false;
                       v6 := S754_zero false; v7 := S754_zero false; v8 := S754_zero false |}).
  { apply t_speed_ext. intros d. rewrite Hz. destruct d; reflexivity. }
  split.
  - intros d.
    pose proof (timestep_cell_value params g jj ii d Hwf Hj Hi) as Hv.
    cbn zeta in Hv. rewrite Hv, Hopen. cbn [Z.eqb].
    unfold relax. rewrite Hz, Hprop, Heq, b32_mul_nan_r. reflexivity.
  - unfold timestep. cbn [snd].
    destruct (stream_collide_reduction params (accelerate_flow params g)) as [_ Hu].
    destruct (accelerate_flow_frame params g) as [Ho _]. rewrite Ho in Hu.
    rewrite Hu.
    rewrite (b32_fold_poisoned
               (fun k => fsqrt (vel_sq (propagate params (cells (accelerate_flow params g))
                                          (fst k) (snd k))))
               (open_cells params (obstacles g)) (jj, ii)).
    + reflexivity.
    + unfold open_cells. apply List.filter_In. split; [apply in_cell_list; tauto|].
      unfold is_open, cell_ix. cbn [fst snd]. rewrite Hopen. reflexivity.
    + cbn [fst snd]. rewrite Hprop. exact Hsq.
Qed.

End MoreBinary32Facts.

(** * Examples for the further properties *)

Lemma X1_indices_in_bounds_witness :
  let p := fst (demo_start (fl 0) []) in
  0 <= 1 < ny p /\ 0 <= 0 < nx p /\
  (forall d, 0 <= propagate_index p d 1 0 < nx p * ny p) /\
  0 <= cell_ix p (ny p - 2, 0) < nx p * ny p.
Proof.
  intros p.
  assert (Hj : 0 <= 1 < ny p) by solve_cmp.
  assert (Hi : 0 <= 0 < nx p) by solve_cmp.
  destruct (X1_indices_in_bounds p 1 0 Hj Hi) as (_ & Hd & _ & Hrow & _).
  split; [exact Hj|]. split; [exact Hi|]. split; [exact Hd|].
  apply Hrow. solve_cmp.
Defined.

Lemma X2_initialise_cells_witness :
  let p := mk_params 2 2 (fl 36) (fl 0) (fl 1) in
  let junk := uniform 4 (fl 7) in
  let g := initialise p [] junk junk [5; 5; 5; 5] in
  wf p g /\ tmp_cells g = junk /\ v0 (cell_at (cells g) (1 + 1 * nx p)) = fl 16.
Proof.
  intros p junk g.
  assert (Hnx : 0 < nx p) by solve_cmp.
  assert (Hny : 0 < ny p) by solve_cmp.
  assert (Hmax : nx p * ny p <= int_max) by solve_cmp.
  assert (Hs : sized p junk) by (intros []; vm_compute; reflexivity).
  assert (Hl : length [5; 5; 5; 5] = Z.to_nat (nx p * ny p)) by reflexivity.
  assert (Hj : 0 <= 1 < ny p) by solve_cmp.
  assert (Hi : 0 <= 1 < nx p) by solve_cmp.
  destruct (X2_initialise_cells p [] junk junk [5; 5; 5; 5] Hnx Hny Hmax Hs Hs Hl)
    as (Hwf & Ht & Hv).
  split; [exact Hwf|]. split; [exact Ht|].
  fold g in Hv. rewrite (Hv 1 1 Hj Hi). vm_compute. reflexivity.
Defined.

Lemma X3_initialise_obstacles_witness :
  let p := mk_params 2 2 (fl 36) (fl 0) (fl 1) in
  let junk := uniform 4 (fl 7) in
  let g := initialise p [(1, 0)] junk junk [5; 5; 5; 5] in
  rd 0 (obstacles g) (1 + 0 * nx p) = 1 /\ rd 0 (obstacles g) (0 + 1 * nx p) = 0.
Proof.
  intros p junk g.
  assert (Hl : length [5; 5; 5; 5] = Z.to_nat (nx p * ny p)) by reflexivity.
  assert (Hb : Forall (fun q : Z * Z => 0 <= fst q < nx p /\ 0 <= snd q < ny p) [(1, 0)]).
  { constructor; [solve_cmp | constructor]. }
  assert (H0 : 0 <= 0 < ny p) by solve_cmp.
  assert (H1 : 0 <= 1 < ny p) by solve_cmp.
  pose proof (X3_initialise_obstacles p [(1, 0)] junk junk [5; 5; 5; 5] Hl Hb) as Hv.
  cbn zeta in Hv. fold g in Hv.
  split; [rewrite (Hv 0 1 H0 H1) | rewrite (Hv 1 0 H1 H0)]; reflexivity.
Defined.

Lemma X5_rebound_involution_witness :
  let p := fst (demo_start (fconst 1 (-2)) []) in
  let g := snd (demo_start (fconst 1 (-2)) []) in
  let prop := propagate p (cells (accelerate_flow p g)) 0 0 in
  let tmp := uniform 4 (fl 0) in
  sp E1 (cell_at (rebound prop 1 tmp) 1) = sp W3 prop /\
  sp E1 (cell_at (rebound (cell_at (rebound prop 1 tmp) 1) 1 tmp) 1) = sp E1 prop.
Proof.
  intros p g prop tmp.
  assert (Hi : forall d, 0 <= 1 < Z.of_nat (length (arr d tmp)))
    by (intros []; solve_cmp).
  destruct (X5_rebound_involution prop 1 tmp tmp Hi Hi) as (Honce & Htwice & _).
  assert (Hd : E1 <> C0) by discriminate.
  split; [exact (Honce E1 Hd) | exact (Htwice E1 Hd)].
Defined.

Lemma X6_accelerate_keeps_positive_witness :
  let p := fst (demo_start (fconst 1 (-2)) []) in
  let g := snd (demo_start (fconst 1 (-2)) []) in
  wf p g /\ 2 <= ny p /\
  (cell_at (cells (accelerate_flow p g)) 0 = cell_at (cells g) 0 \/
   (fgt (v3 (cell_at (cells (accelerate_flow p g)) 0)) f0 = true /\
    fgt (v6 (cell_at (cells (accelerate_flow p g)) 0)) f0 = true /\
    fgt (v7 (cell_at (cells (accelerate_flow p g)) 0)) f0 = true)).
Proof.
  intros p g.
  assert (Hwf : wf p g) by solve_wf.
  assert (Hny : 2 <= ny p) by solve_cmp.
  split; [exact Hwf|]. split; [exact Hny|].
  exact (X6_accelerate_keeps_positive p g 0 Hwf Hny).
Defined.

Lemma X7_timestep_scratch_independent_witness :
  let p := fst (demo_start (fl 0) [(1, 0)]) in
  let g := snd (demo_start (fl 0) [(1, 0)]) in
  let z := replicate 4 (fl 0) in
  let a := replicate 4 (fl 7) in
  let g' := {| cells := cells g;
               tmp_cells := {| s0 := z; s1 := a; s2 := a; s3 := a; s4 := a;
                               s5 := a; s6 := a; s7 := a; s8 := a |};
               obstacles := obstacles g |} in
  wf p g /\ wf p g' /\ timestep p g = timestep p g'.
Proof.
  intros p g z a g'.
  assert (Hwf : wf p g) by solve_wf.
  assert (Hwf' : wf p g') by solve_wf.
  split; [exact Hwf|]. split; [exact Hwf'|].
  apply (X7_timestep_scratch_independent p g g' Hwf Hwf' eq_refl eq_refl).
  intros jj ii _ _ _. reflexivity.
Defined.


Lemma X11_streaming_permutes_witness :
  let p := fst (demo_start (fconst 1 (-2)) []) in
  let c := cells (accelerate_flow p (snd (demo_start (fconst 1 (-2)) []))) in
  Permutation
    (map (fun k => sp E1 (propagate p c (fst k) (snd k))) (cell_list p))
    (map (fun k => sp E1 (cell_at c (cell_ix p k))) (cell_list p)).
Proof.
  intros p c.
  assert (Hnx : 0 < nx p) by solve_cmp.
  assert (Hny : 0 < ny p) by solve_cmp.
  exact (X11_streaming_permutes p c E1 Hnx Hny).
Defined.

Lemma X12_collision_invariants_witness :
  let p := fst unit_run_R in
  let prop := cell_at (cells (snd unit_run_R)) 0 in
  local_density prop <> 0%R /\
  local_density (collision p prop) = local_density prop /\
  vel_x (collision p prop) = vel_x prop /\
  collision p (d_equ prop) = d_equ prop.
Proof.
  intros p prop.
  assert (Hrho : local_density prop <> 0%R).
  { change ((1 + 1 + 1 + 1 + 1 + 1 + 1 + 1 + 1)%R <> 0%R). lra. }
  destruct (X12_collision_invariants p prop Hrho) as (Hd & Hx & _ & _ & He).
  split; [exact Hrho|]. split; [exact Hd|]. split; [exact Hx | exact He].
Defined.

Lemma two_row_wf : wf (fst two_row_run_R) (snd two_row_run_R).
Proof.
  unfold wf, sized. cbn. unfold int_max. split_conj; try lia; try reflexivity.
  all: intros []; reflexivity.
Defined.

Lemma two_row_cases (jj ii : Z) :
  0 <= jj < ny (fst two_row_run_R) -> 0 <= ii < nx (fst two_row_run_R) ->
  (jj = 0 \/ jj = 1) /\ ii = 0.
Proof. cbn. lia. Defined.

Lemma X13_fused_average_witness :
  let p := fst two_row_run_R in
  let g := snd two_row_run_R in
  wf p g /\
  av_velocity p (tmp_cells (fst (timestep p g))) (obstacles g) = snd (timestep p g).
Proof.
  intros p g.
  pose proof two_row_wf as Hwf. fold p g in Hwf.
  split; [exact Hwf|].
  apply (X13_fused_average p g Hwf).
  intros jj ii Hj Hi _.
  rewrite (accel_zero_id p g Hwf ltac:(cbn; lia) eq_refl).
  destruct (two_row_cases jj ii Hj Hi) as [[-> | ->] ->];
    change ((1 + 1 + 1 + 1 + 1 + 1 + 1 + 1 + 1)%R <> 0%R); lra.
Defined.

Lemma X14_mass_conserved_with_forcing_witness :
  let p := fst two_row_run_R in
  let g := snd two_row_run_R in
  wf p g /\ 2 <= ny p /\ scratch_agrees p g /\
  total_density p (cells (accelerate_flow p g)) = total_density p (cells g) /\
  total_density p (tmp_cells (fst (timestep p g))) = total_density p (cells g).
Proof.
  intros p g.
  pose proof two_row_wf as Hwf. fold p g in Hwf.
  assert (Hny : 2 <= ny p) by (cbn; lia).
  assert (Hag : scratch_agrees p g) by (intros jj ii _ _ _; reflexivity).
  destruct (X14_mass_conserved_with_forcing p g Hwf Hny) as [Hacc Hstep].
  destruct (Hstep Hag) as [Hts _].
  split; [exact Hwf|]. split; [exact Hny|]. split; [exact Hag|].
  split; [exact Hacc | exact Hts].
Defined.

Lemma X15_initial_state_steady_witness :
  let p := two_row_params_R in
  let z := [0%R; 0%R] in
  let fresh := {| s0 := z; s1 := z; s2 := z; s3 := z; s4 := z;
                  s5 := z; s6 := z; s7 := z; s8 := z |} in
  let g := initialise p [] fresh fresh [7; 7] in
  density p <> 0%R /\ accel p = 0%R /\
  rdf (arr NE5 (tmp_cells (fst (timestep p g)))) (0 + 1 * nx p)
  = rdf (arr NE5 (cells g)) (0 + 1 * nx p).
Proof.
  intros p z fresh g.
  assert (Hnx : 0 < nx p) by (cbn; lia).
  assert (Hny : 2 <= ny p) by (cbn; lia).
  assert (Hmax : nx p * ny p <= int_max) by (cbn; unfold int_max; lia).
  assert (Hs : sized p fresh) by (intros []; reflexivity).
  assert (Hl : length [7; 7] = Z.to_nat (nx p * ny p)) by reflexivity.
  assert (Hrho : density p <> 0%R) by (cbn; lra).
  assert (Hacc : accel p = 0%R) by reflexivity.
  assert (Hj : 0 <= 1 < ny p) by (cbn; lia).
  assert (Hi : 0 <= 0 < nx p) by (cbn; lia).
  destruct (X15_initial_state_steady p [] fresh fresh [7; 7]
              Hnx Hny Hmax Hs Hs Hl Hrho Hacc) as [Hv _].
  split; [exact Hrho|]. split; [exact Hacc|].
  apply (Hv 1 0 NE5 Hj Hi). right. discriminate.
Defined.

Lemma X17_reynolds_at_omega_two_witness :
  let p := mk_params 2 2 (fl 36) (fl 0) (fl 2) in
  let c := uniform 4 (fl 1) in
  omega p = of_int 2 /\
  viscosity p = S754_zero false /\
  is_finite (calc_reynolds p c [0; 0; 0; 0]) = false.
Proof.
  intros p c.
  assert (Hom : omega p = of_int 2) by reflexivity.
  split; [exact Hom|].
  exact (X17_reynolds_at_omega_two p c [0; 0; 0; 0] Hom).
Defined.

Lemma X18_massless_cell_gives_nan_witness :
  let p := fst massless_run in
  let g := snd massless_run in
  wf p g /\ rd 0 (obstacles g) (1 + 0 * nx p) = 0 /\
  rdf (arr C0 (tmp_cells (fst (timestep p g)))) (1 + 0 * nx p) = S754_nan /\
  snd (timestep p g) = S754_nan.
Proof.
  intros p g.
  assert (Hwf : wf p g) by solve_wf.
  assert (Hj : 0 <= 0 < ny p) by solve_cmp.
  assert (Hi : 0 <= 1 < nx p) by solve_cmp.
  assert (Ho : rd 0 (obstacles g) (1 + 0 * nx p) = 0) by (vm_compute; reflexivity).
  assert (Hz : forall d, sp d (propagate p (cells (accelerate_flow p g)) 0 1)
                         = S754_zero false) by (intros []; vm_compute; reflexivity).
  destruct (X18_massless_cell_gives_nan p g 0 1 Hwf Hj Hi Ho Hz) as [Hv Hav].
  split; [exact Hwf|]. split; [exact Ho|]. split; [exact (Hv C0) | exact Hav].
Defined.

